(** * cobase: the entity store, its write batcher, the permission proxy
      and the incremental indexer

    A shallow embedding of [src/Persisted.ts] and [src/Index.ts].

    Definitions:
    - [Js] holds the fragment of JavaScript the two files rely on: numbers
      with [NaN] and the infinities, primitive values, truthiness, the
      loose comparison with [null], and [Map] with its insertion order.
    - [Persisted] embeds the write batcher ([dbPut] and the callbacks it
      installs, driven by the events of the timer and of the KV engine),
      the identity map ([for], [remove]), the row loader, the value
      accessors and [clearCache].
    - [SecureAccess] embeds the method dispatch of the permission proxy,
      with the names [methodOverrides] inherits from [Object.prototype].
    - [Index] embeds [indexEntry] with its [catch], the enqueueing done by
      [updated], [commitOperations], [rebuildIndex], [resumeIndex] and the
      end of a [processQueue] pass, each as one step of an index, the loop
      of [processQueue] with its commits, and [transform].
    - [Samples], [Scenarios] and [MoreScenarios] hold small codecs and
      concrete runs.

    Properties: [JsFacts], [PersistedSpec], [SecureAccessSpec],
    [IndexSpec], [BatcherSpec], [EntitySpec], [IndexRowsSpec],
    [IndexQueueSpec], [ScanSpec], [ResumeSpec], [ProxySpec], and
    [Examples] and [MoreExamples] for the properties on concrete inputs.

    Code that lives outside the two files (alkali, ordered-binary, the
    JSON codec) enters as section variables.  The versions the batcher
    and the index count with are whole numbers ([Z]), with 0 for a missing
    one where the code only tests for it; the version of an entity is a
    number, and a setter called with a version that is not whole is left
    out ([version_argument]).  A function that throws returns [None] or a
    value that names the error. *)

From Stdlib Require Import ZArith QArith Qcanon String Ascii List Bool Lia.
From Stdlib Require Import DecimalString.
Import ListNotations.

Local Open Scope Z_scope.

(* ================================================================== *)
(** * JavaScript values *)
(* ================================================================== *)

Module Js.

(** A JavaScript number: a finite value (kept as a canonical rational, so
    that equal numbers are equal terms), [NaN] or an infinity. *)
Inductive number : Type :=
| NaN
| PosInf
| NegInf
| Fin (q : Qc).

Definition num (z : Z) : number := Fin (Q2Qc (inject_Z z)).

(** [n > 0] *)
Definition gt0 (n : number) : bool :=
  match n with
  | NaN => false
  | PosInf => true
  | NegInf => false
  | Fin q => 0 <? Qnum (this q)
  end.

(** ToBoolean on a number: [0] and [NaN] are falsy. *)
Definition number_truthy (n : number) : bool :=
  match n with
  | NaN => false
  | PosInf | NegInf => true
  | Fin q => negb (Qnum (this q) =? 0)
  end.

(** SameValueZero on numbers ([NaN] equals itself). *)
Definition number_eqb (a b : number) : bool :=
  match a, b with
  | NaN, NaN => true
  | PosInf, PosInf => true
  | NegInf, NegInf => true
  | Fin p, Fin q => Qeq_bool (this p) (this q)
  | _, _ => false
  end.

(** [a <= b] on numbers other than [NaN] *)
Definition number_leb (a b : number) : bool :=
  match a, b with
  | NaN, _ | _, NaN => false
  | NegInf, _ => true
  | _, PosInf => true
  | Fin p, Fin q => Qle_bool (this p) (this q)
  | _, _ => false
  end.

(** [Math.max(a, b)]: [NaN] as soon as one argument is [NaN]. *)
Definition Math_max (a b : number) : number :=
  match a, b with
  | NaN, _ | _, NaN => NaN
  | _, _ => if number_leb a b then b else a
  end.

(** The primitive values that reach the code as ids and index keys. *)
Inductive prim : Type :=
| Undefined
| Null
| Boolean (b : bool)
| Number (n : number)
| String (s : string).

(** ToBoolean *)
Definition truthy (v : prim) : bool :=
  match v with
  | Undefined | Null => false
  | Boolean b => b
  | Number n => number_truthy n
  | String s => negb (String.eqb s EmptyString)
  end.

(** [typeof v === 'string'] *)
Definition typeof_string (v : prim) : bool :=
  match v with String _ => true | _ => false end.

(** [v == null]: true of [null] and [undefined] only. *)
Definition loose_eq_null (v : prim) : bool :=
  match v with Undefined | Null => true | _ => false end.

(** SameValueZero, the key comparison of [Map] and [Set]. *)
Definition same_value_zero (a b : prim) : bool :=
  match a, b with
  | Undefined, Undefined => true
  | Null, Null => true
  | Boolean x, Boolean y => Bool.eqb x y
  | Number x, Number y => number_eqb x y
  | String x, String y => String.eqb x y
  | _, _ => false
  end.

(** JSON-serialisable data, the values entities hold. *)
#[warnings="-register-all"]
Inductive value : Type :=
| VNull
| VBool (b : bool)
| VNum (n : number)
| VStr (s : string)
| VArr (l : list value)
| VObj (fields : list (string * value)).

Definition string_truthy (s : string) : bool := negb (String.eqb s EmptyString).

(** ToBoolean on data: objects and arrays are truthy. *)
Definition value_truthy (v : value) : bool :=
  match v with
  | VNull => false
  | VBool b => b
  | VNum n => number_truthy n
  | VStr s => string_truthy s
  | VArr _ | VObj _ => true
  end.

Section Conversions.
  (** StringToNumber of the language, e.g. ["12"] to [12], ["abc"] to
      [NaN], [""] to [0]. *)
Variable StringToNumber : string -> number.

Definition ToNumber (v : prim) : number :=
    match v with
    | Undefined => NaN
    | Null => num 0
    | Boolean true => num 1
    | Boolean false => num 0
    | Number n => n
    | String s => StringToNumber s
    end.
End Conversions.

(** ** [Map]: entries in insertion order *)

Section JsMap.
Context {K V : Type}.
Variable eqb : K -> K -> bool.

Fixpoint map_get (k : K) (m : list (K * V)) : option V :=
    match m with
    | [] => None
    | (k', v) :: m' => if eqb k k' then Some v else map_get k m'
    end.

Definition map_has (k : K) (m : list (K * V)) : bool :=
    match map_get k m with Some _ => true | None => false end.

  (** [set] overwrites in place, a new key goes to the end. *)
Fixpoint map_set (k : K) (v : V) (m : list (K * V)) : list (K * V) :=
    match m with
    | [] => [(k, v)]
    | (k', v') :: m' =>
        if eqb k k' then (k', v) :: m' else (k', v') :: map_set k v m'
    end.

Fixpoint map_delete (k : K) (m : list (K * V)) : list (K * V) :=
    match m with
    | [] => []
    | (k', v') :: m' =>
        if eqb k k' then m' else (k', v') :: map_delete k m'
    end.

Definition map_keys (m : list (K * V)) : list K := map fst m.
Definition map_values (m : list (K * V)) : list V := map snd m.
Definition map_size (m : list (K * V)) : nat := length m.
End JsMap.

(** A [Map] object: the entries sit in an internal slot, next to the
    ordinary properties of the object.  [m.set], [m.get] and [m.delete]
    work on the slot; [m[0]] is an ordinary property access. *)
Record MapObject (K V : Type) : Type := mkMapObject {
  map_data : list (K * V);
  own_properties : list (string * V)
}.
Arguments mkMapObject {K V} _ _.
Arguments map_data {K V} _.
Arguments own_properties {K V} _.

Definition new_Map {K V : Type} : MapObject K V := mkMapObject [] [].

Definition get_property {K V : Type} (m : MapObject K V) (p : string)
  : option V :=
  map_get String.eqb p (own_properties m).

Definition mo_set {K V : Type} (eqb : K -> K -> bool) (k : K) (v : V)
  (m : MapObject K V) : MapObject K V :=
  mkMapObject (map_set eqb k v (map_data m)) (own_properties m).

Definition mo_delete {K V : Type} (eqb : K -> K -> bool) (k : K)
  (m : MapObject K V) : MapObject K V :=
  mkMapObject (map_delete eqb k (map_data m)) (own_properties m).

Definition mo_get {K V : Type} (eqb : K -> K -> bool) (k : K)
  (m : MapObject K V) : option V :=
  map_get eqb k (map_data m).

End Js.
(* ================================================================== *)
(** * Persisted.ts *)
(* ================================================================== *)

Module Persisted.
Import Js.

(** ** Data *)

Definition bytes := list Byte.byte.

Definition bytes_eqb (a b : bytes) : bool :=
  if list_eq_dec Byte.byte_eq_dec a b then true else false.

(** [Buffer.from([1, 1])] and [Buffer.from([1, 2])] *)
Definition DB_VERSION_KEY : bytes := [Byte.x01; Byte.x01].
Definition LAST_VERSION_IN_DB_KEY : bytes := [Byte.x01; Byte.x02].

(** The value of an operation handed to the KV engine: rows are strings,
    the version watermark is written as a number. *)
Inductive opvalue : Type :=
| OVString (s : string)
| OVNumber (n : Z).

Inductive OpType : Type := op_put | op_remove | op_del.

Record Operation : Type := mkOperation {
  op_type : OpType;
  op_key : bytes;
  op_value : option opvalue
}.

(** [readyState]; an unset [readyState] is [None]. *)
Inductive ReadyState : Type :=
| loading_local_data
| up_to_date
| invalidated
| no_local_data.

(** A promise created by the batcher is named by the batch it was created
    with. *)
Definition promise := nat.

(** One write batch: the [Map] from key to operation, its two counters, and
    what its [commitOperations] closure holds on to. *)
Record WriteBatch : Type := mkWriteBatch {
  entries : list (prim * Operation);
  writes : Z;
  writeSize : Z;
  armed : bool;        (* commitOperations is not yet the no-op *)
  lastWriteCompletion : option promise
                       (* completion of the batch opened before *)
}.

Inductive LogEntry : Type :=
| console_error_batch (b : nat)   (* console.error(error), failed batch *)
| console_info (msg : string).

(** The [ready] promise of a class; [onReady] resolves it and
    [onDbFailure] rejects it. *)
Inductive PromiseState : Type := Pending | Fulfilled | Rejected.

(** The state of one class as far as the batcher is concerned, together
    with the table of the KV engine behind it. *)
Record Writer : Type := mkWriter {
  lastVersion : Z;
  batches : list WriteBatch;     (* every batch created, named by position *)
  pendingWrites : list nat;
  currentWriteBatch : option nat;
  writeCompletion : option promise;
  timers : list nat;             (* batches whose 20 ms timer is set *)
  awaiting : list nat;           (* flushes chained on a completion *)
  in_flight : list (nat * list Operation);  (* db.batch calls not settled *)
  resolved : list promise;
  rejected : list promise;
  batch_log : list (list Operation);   (* every db.batch call, in order *)
  table : list (bytes * opvalue);      (* the rows of the KV engine *)
  console : list LogEntry;
  ready : PromiseState;
  onDbFailure_calls : nat
}.

Definition new_Writer (lastVersion0 : Z) (rows : list (bytes * opvalue))
  : Writer :=
  mkWriter lastVersion0 [] [] None None [] [] [] [] [] [] rows [] Pending 0.

(** ** Field updates *)

Definition with_lastVersion (x : Z) (w : Writer) : Writer :=
  mkWriter x (batches w) (pendingWrites w) (currentWriteBatch w)
    (writeCompletion w) (timers w) (awaiting w) (in_flight w) (resolved w)
    (rejected w) (batch_log w) (table w) (console w) (ready w)
    (onDbFailure_calls w).

Definition with_batches (x : list WriteBatch) (w : Writer) : Writer :=
  mkWriter (lastVersion w) x (pendingWrites w) (currentWriteBatch w)
    (writeCompletion w) (timers w) (awaiting w) (in_flight w) (resolved w)
    (rejected w) (batch_log w) (table w) (console w) (ready w)
    (onDbFailure_calls w).

Definition with_pendingWrites (x : list nat) (w : Writer) : Writer :=
  mkWriter (lastVersion w) (batches w) x (currentWriteBatch w)
    (writeCompletion w) (timers w) (awaiting w) (in_flight w) (resolved w)
    (rejected w) (batch_log w) (table w) (console w) (ready w)
    (onDbFailure_calls w).

Definition with_currentWriteBatch (x : option nat) (w : Writer) : Writer :=
  mkWriter (lastVersion w) (batches w) (pendingWrites w) x
    (writeCompletion w) (timers w) (awaiting w) (in_flight w) (resolved w)
    (rejected w) (batch_log w) (table w) (console w) (ready w)
    (onDbFailure_calls w) .

Definition with_writeCompletion (x : option promise) (w : Writer) : Writer :=
  mkWriter (lastVersion w) (batches w) (pendingWrites w)
    (currentWriteBatch w) x (timers w) (awaiting w) (in_flight w)
    (resolved w) (rejected w) (batch_log w) (table w) (console w) (ready w)
    (onDbFailure_calls w) .

Definition with_timers (x : list nat) (w : Writer) : Writer :=
  mkWriter (lastVersion w) (batches w) (pendingWrites w)
    (currentWriteBatch w) (writeCompletion w) x (awaiting w) (in_flight w)
    (resolved w) (rejected w) (batch_log w) (table w) (console w) (ready w)
    (onDbFailure_calls w) .

Definition with_awaiting (x : list nat) (w : Writer) : Writer :=
  mkWriter (lastVersion w) (batches w) (pendingWrites w)
    (currentWriteBatch w) (writeCompletion w) (timers w) x (in_flight w)
    (resolved w) (rejected w) (batch_log w) (table w) (console w) (ready w)
    (onDbFailure_calls w) .

Definition with_in_flight (x : list (nat * list Operation)) (w : Writer) : Writer :=
  mkWriter (lastVersion w) (batches w) (pendingWrites w)
    (currentWriteBatch w) (writeCompletion w) (timers w) (awaiting w) x
    (resolved w) (rejected w) (batch_log w) (table w) (console w) (ready w)
    (onDbFailure_calls w) .

Definition with_resolved (x : list promise) (w : Writer) : Writer :=
  mkWriter (lastVersion w) (batches w) (pendingWrites w)
    (currentWriteBatch w) (writeCompletion w) (timers w) (awaiting w)
    (in_flight w) x (rejected w) (batch_log w) (table w) (console w)
    (ready w) (onDbFailure_calls w) .

Definition with_rejected (x : list promise) (w : Writer) : Writer :=
  mkWriter (lastVersion w) (batches w) (pendingWrites w)
    (currentWriteBatch w) (writeCompletion w) (timers w) (awaiting w)
    (in_flight w) (resolved w) x (batch_log w) (table w) (console w)
    (ready w) (onDbFailure_calls w) .

Definition with_batch_log (x : list (list Operation)) (w : Writer) : Writer :=
  mkWriter (lastVersion w) (batches w) (pendingWrites w)
    (currentWriteBatch w) (writeCompletion w) (timers w) (awaiting w)
    (in_flight w) (resolved w) (rejected w) x (table w) (console w) (ready w)
    (onDbFailure_calls w) .

Definition with_table (x : list (bytes * opvalue)) (w : Writer) : Writer :=
  mkWriter (lastVersion w) (batches w) (pendingWrites w)
    (currentWriteBatch w) (writeCompletion w) (timers w) (awaiting w)
    (in_flight w) (resolved w) (rejected w) (batch_log w) x (console w)
    (ready w) (onDbFailure_calls w) .

Definition with_console (x : list LogEntry) (w : Writer) : Writer :=
  mkWriter (lastVersion w) (batches w) (pendingWrites w)
    (currentWriteBatch w) (writeCompletion w) (timers w) (awaiting w)
    (in_flight w) (resolved w) (rejected w) (batch_log w) (table w) x
    (ready w) (onDbFailure_calls w) .

Definition with_ready (x : PromiseState) (w : Writer) : Writer :=
  mkWriter (lastVersion w) (batches w) (pendingWrites w)
    (currentWriteBatch w) (writeCompletion w) (timers w) (awaiting w)
    (in_flight w) (resolved w) (rejected w) (batch_log w) (table w)
    (console w) x (onDbFailure_calls w) .

Definition with_onDbFailure_calls (x : nat) (w : Writer) : Writer :=
  mkWriter (lastVersion w) (batches w) (pendingWrites w)
    (currentWriteBatch w) (writeCompletion w) (timers w) (awaiting w)
    (in_flight w) (resolved w) (rejected w) (batch_log w) (table w)
    (console w) (ready w) x.

Fixpoint list_update {A : Type} (n : nat) (f : A -> A) (l : list A) : list A :=
  match l, n with
  | [], _ => []
  | x :: l', O => f x :: l'
  | x :: l', S n' => x :: list_update n' f l'
  end.

Definition update_batch (b : nat) (f : WriteBatch -> WriteBatch) (w : Writer)
  : Writer :=
  with_batches (list_update b f (batches w)) w.

Definition empty_batch : WriteBatch := mkWriteBatch [] 0 0 false None.

Definition get_batch (b : nat) (w : Writer) : WriteBatch :=
  nth b (batches w) empty_batch.

Fixpoint remove_first (n : nat) (l : list nat) : list nat :=
  match l with
  | [] => []
  | x :: l' => if Nat.eqb x n then l' else x :: remove_first n l'
  end.

Definition mem (n : nat) (l : list nat) : bool := existsb (Nat.eqb n) l.

(** [l.splice(l.indexOf(b), 1)]: removes the first occurrence of [b]; when
    [b] is absent [indexOf] is [-1] and [splice(-1, 1)] removes the last
    element. *)
Definition splice_indexOf (b : nat) (l : list nat) : list nat :=
  if mem b l then remove_first b l else removelast l.

(** ** The KV engine *)

(** Modelled from the spec: the KV engine ([storage/level] is not among the
    sources), "batch(list of {type: 'put'|'del'|'remove', key, value?})",
    applied to the rows in the order of the list. *)
Definition apply_operation (t : list (bytes * opvalue)) (o : Operation)
  : list (bytes * opvalue) :=
  match op_type o, op_value o with
  | op_put, Some v => map_set bytes_eqb (op_key o) v t
  | op_put, None => t
  | _, _ => map_delete bytes_eqb (op_key o) t
  end.

(** Modelled from the spec: the atomic batch write of the KV engine, all
    operations or, on failure, none. *)
Definition apply_batch (ops : list Operation) (t : list (bytes * opvalue))
  : list (bytes * opvalue) :=
  fold_left apply_operation ops t.


(** ** The write batcher *)

Section Batcher.
(** [toBufferKey] of ordered-binary *)
Variable toBufferKey : prim -> bytes.

(** [version || getNextVersion()]; [nextVersion] is what [getNextVersion]
    returns when it is called. *)
Definition effective_version (version : option Z) (nextVersion : Z) : Z :=
  match version with
  | Some v => if v =? 0 then nextVersion else v
  | None => nextVersion
  end.

(** The callback handed to [when(lastWriteCompletion, ...)]: collect the
    operations of the batch in the order of the [Map], add the put of
    [this.lastVersion], close the batch and hand everything to [db.batch].
    The local [lastVersion] the loop computes is not used. *)
Definition flush (b : nat) (w : Writer) : Writer :=
  let operations :=
    map_values (entries (get_batch b w))
      ++ [mkOperation op_put LAST_VERSION_IN_DB_KEY
            (Some (OVNumber (lastVersion w)))] in
  let w1 := with_currentWriteBatch None w in
  let w2 := with_in_flight (in_flight w1 ++ [(b, operations)]) w1 in
  with_batch_log (batch_log w2 ++ [operations]) w2.

(** Modelled from the spec: [when(x, f)] ([util/when] is not among the
    sources) runs [f] at once on a plain value and chains it on a
    completion handle, "flushing: chained on the previous batch's
    completion"; [true] when [f] is put off. *)
Definition when_defers (x : option promise) : bool :=
  match x with
  | Some _ => true
  | None => false
  end.

(** [currentWriteBatch.commitOperations = () => {}] *)
Definition disarm (B : WriteBatch) : WriteBatch :=
  mkWriteBatch (entries B) (writes B) (writeSize B) false
    (lastWriteCompletion B).

(** [currentWriteBatch.commitOperations()]: the first call disarms itself,
    clears the timer and chains the flush on the previous completion; a
    [null] completion lets the flush run at once, a promise defers it. *)
Definition commitOperations (b : nat) (w : Writer) : Writer :=
  let B := get_batch b w in
  if armed B then
    let w1 := update_batch b disarm w in
    let w2 := with_timers (remove_first b (timers w1)) w1 in
    if when_defers (lastWriteCompletion B)
    then with_awaiting (awaiting w2 ++ [b]) w2
    else flush b w2
  else w.

(** [finished] *)
Definition finished (b : nat) (w : Writer) : Writer :=
  let w1 := with_pendingWrites (splice_indexOf b (pendingWrites w)) w in
  let w2 :=
    match writeCompletion w1 with
    | Some p => if Nat.eqb p b then with_writeCompletion None w1 else w1
    | None => w1
    end in
  with_resolved (resolved w2 ++ [b]) w2.

(** The part of [dbPut] that opens a batch. *)
Definition open_batch (w : Writer) : Writer * nat :=
  let b := length (batches w) in
  let w1 :=
    with_batches
      (batches w ++ [mkWriteBatch [] 0 0 true (writeCompletion w)]) w in
  let w2 := with_currentWriteBatch (Some b) w1 in
  let w3 := with_pendingWrites (pendingWrites w2 ++ [b]) w2 in
  let w4 := with_writeCompletion (Some b) w3 in
  (with_timers (timers w4 ++ [b]) w4, b).

Definition set_operation (key : prim) (o : Operation) (B : WriteBatch)
  : WriteBatch :=
  mkWriteBatch (map_set same_value_zero key o (entries B)) (writes B)
    (writeSize B) (armed B) (lastWriteCompletion B).

Definition set_writes (n : Z) (B : WriteBatch) : WriteBatch :=
  mkWriteBatch (entries B) n (writeSize B) (armed B) (lastWriteCompletion B).

Definition set_writeSize (n : Z) (B : WriteBatch) : WriteBatch :=
  mkWriteBatch (entries B) (writes B) n (armed B) (lastWriteCompletion B).

(** [value.length || 10] for a string value *)
Definition value_length (s : string) : Z :=
  let n := Z.of_nat (String.length s) in if n =? 0 then 10 else n.

(** [if (!currentWriteBatch) { ... }]: the batch the call writes to, opened
    when there is none. *)
Definition current_or_open (w : Writer) : Writer * nat :=
  match currentWriteBatch w with
  | Some b => (w, b)
  | None => open_batch w
  end.

(** The operation [dbPut] stores under [key]. *)
Definition operation_of (key : prim) (value : option string) : Operation :=
  mkOperation (match value with None => op_remove | Some _ => op_put end)
    (toBufferKey key)
    (match value with None => None | Some s => Some (OVString s) end).

(** [currentWriteBatch.set(key, ...)] followed by the test
    [writes++ > 100 || value && (writeSize += (value.length || 10)) > 100000]
    and the commit it guards. *)
Definition record_operation (key : prim) (value : option string) (b : nat)
  (w : Writer) : Writer :=
  let w2 := update_batch b (set_operation key (operation_of key value)) w in
  let old_writes := writes (get_batch b w2) in
  let w3 := update_batch b (set_writes (old_writes + 1)) w2 in
  if 100 <? old_writes then commitOperations b w3
  else
    match value with
    | Some s =>
        if string_truthy s then
          let size := writeSize (get_batch b w3) + value_length s in
          let w4 := update_batch b (set_writeSize size) w3 in
          if 100000 <? size then commitOperations b w4 else w4
        else w3
    | None => w3
    end.

(** [static dbPut(key, value, version)]; the result holds the promise the
    call returns. *)
Definition dbPut (key : prim) (value : option string) (version : option Z)
  (nextVersion : Z) (w : Writer) : Writer * promise :=
  let w0 :=
    with_lastVersion
      (Z.max (lastVersion w) (effective_version version nextVersion)) w in
  let '(w1, b) := current_or_open w0 in
  (record_operation key value b w1, b).

(** ** What happens to a class between two calls *)

Inductive Event : Type :=
| DbPut (key : prim) (value : option string) (version : option Z)
    (nextVersion : Z)
| TimerFires (b : nat)          (* the 20 ms timer of batch b *)
| PreviousCompleted (b : nat)   (* the deferred flush of batch b runs *)
| BatchWritten (b : nat)        (* db.batch of batch b succeeded *)
| BatchFailed (b : nat).        (* db.batch of batch b failed *)

Fixpoint find_in_flight (b : nat) (l : list (nat * list Operation))
  : option (list Operation) :=
  match l with
  | [] => None
  | (b', ops) :: l' => if Nat.eqb b' b then Some ops else find_in_flight b l'
  end.

Fixpoint drop_in_flight (b : nat) (l : list (nat * list Operation))
  : list (nat * list Operation) :=
  match l with
  | [] => []
  | (b', ops) :: l' =>
      if Nat.eqb b' b then l' else (b', ops) :: drop_in_flight b l'
  end.

Definition previous_resolved (b : nat) (w : Writer) : bool :=
  match lastWriteCompletion (get_batch b w) with
  | Some p => mem p (resolved w)
  | None => true
  end.

(** An event that cannot happen in the state it meets leaves the state as
    it is. *)
Definition step (e : Event) (w : Writer) : Writer :=
  match e with
  | DbPut key value version nextVersion =>
      fst (dbPut key value version nextVersion w)
  | TimerFires b =>
      if mem b (timers w) then commitOperations b w else w
  | PreviousCompleted b =>
      if mem b (awaiting w) && previous_resolved b w
      then flush b (with_awaiting (remove_first b (awaiting w)) w)
      else w
  | BatchWritten b =>
      match find_in_flight b (in_flight w) with
      | Some ops =>
          let w1 := with_in_flight (drop_in_flight b (in_flight w)) w in
          finished b (with_table (apply_batch ops (table w1)) w1)
      | None => w
      end
  | BatchFailed b =>
      match find_in_flight b (in_flight w) with
      | Some ops =>
          let w1 := with_in_flight (drop_in_flight b (in_flight w)) w in
          finished b (with_console (console w1 ++ [console_error_batch b]) w1)
      | None => w
      end
  end.

Definition run (tr : list Event) (w : Writer) : Writer :=
  fold_left (fun w e => step e w) tr w.

(** A promise settles once. *)
Definition settle (s : PromiseState) (w : Writer) : Writer :=
  match ready w with
  | Pending => with_ready s w
  | _ => w
  end.

(** [when(this.didReset, this.onReady, this.onDbFailure)] at the end of
    [register]: the only place that passes [onDbFailure] on. *)
Definition register_settled (didReset_ok : bool) (w : Writer) : Writer :=
  if didReset_ok then settle Fulfilled w
  else with_onDbFailure_calls (S (onDbFailure_calls w)) (settle Rejected w).

(** ** Vocabulary for the batches *)

(** The versions the [dbPut] calls of a trace count with. *)
Definition versions (tr : list Event) : list Z :=
  flat_map
    (fun e =>
       match e with
       | DbPut _ _ version nextVersion =>
           [effective_version version nextVersion]
       | _ => []
       end) tr.

(** The versions of the rows a trace writes: a [dbPut] with a value and a
    version writes the row of that version. *)
Definition row_versions (tr : list Event) : list Z :=
  flat_map
    (fun e =>
       match e with
       | DbPut _ (Some _) (Some v) _ => [v]
       | _ => []
       end) tr.

(** The extra put of a flush *)
Definition watermark (v : Z) : Operation :=
  mkOperation op_put LAST_VERSION_IN_DB_KEY (Some (OVNumber v)).

(** Each operation of a batch sits under the key it was stored with. *)
Definition keyed (B : WriteBatch) : Prop :=
  Forall (fun ko => op_key (snd ko) = toBufferKey (fst ko)) (entries B).

(** What [db.batch] receives: the operations of a batch followed by the
    watermark. *)
Definition formed (ops : list Operation) : Prop :=
  exists B v, keyed B /\ ops = map_values (entries B) ++ [watermark v].

(** What holds of every state a class reaches *)
Definition inv (w : Writer) : Prop :=
  Forall keyed (batches w) /\ Forall (fun bo => formed (snd bo)) (in_flight w).

(** One step hands at most one batch to the engine, and that batch ends
    with the version the class holds at that moment. *)
Definition logs (w w' : Writer) : Prop :=
  batch_log w' = batch_log w
  \/ exists B, keyed B
       /\ batch_log w'
          = batch_log w
            ++ [map_values (entries B) ++ [watermark (lastVersion w')]].

(** The open batch is one of the batches created so far. *)
Definition current_in_range (w : Writer) : Prop :=
  forall b, currentWriteBatch w = Some b -> (b < length (batches w))%nat.


End Batcher.

(** ** Instances and the identity map *)

(** An object reference: the position of the object among the instances
    the class has constructed. *)
Definition ref := nat.

(** The fields of an instance the code below reads or writes, as own
    properties of the object.  [None] is an unset ([undefined] or [null])
    field; an unset [cachedVersion] and [-1] behave alike in
    [cachedVersion > -1].  An instance without a [version] of its own
    reads the one of the prototype, see [this_version]. *)
Record Instance : Type := mkInstance {
  id : prim;
  readyState : option ReadyState;
  asJSON : option string;
  _cachedValue : option value;
  cachedVersion : Z;
  version : option number
}.

(** The object [new this(id)] leaves behind: [checkSourceVersions] is
    [false], so [readyState] stays unset, and the constructor assigns no
    [version]. *)
Definition new_Instance (i : prim) : Instance :=
  mkInstance i None None None (-1) None.

Record Class : Type := mkClass {
  abstract : bool;                      (* this.constructor === Persisted *)
  transformVersion : Z;                 (* 0 while unset *)
  transform_hasVersion : bool;          (* prototype.transform.hasVersion *)
  prototype_version : option Z;         (* this.prototype.version *)
  syncVersion : Z;                      (* Persisted.syncVersion *)
  instancesById : list (prim * ref);
  instances : list Instance;            (* objects constructed so far *)
  writer : Writer
}.

(** [this.prototype.version]: what [for] has assigned, and before that the
    [version] alkali's [Variable.prototype] carries, which is 0. *)
Definition inherited_version (C : Class) : number :=
  match prototype_version C with
  | Some v => num v
  | None => num 0
  end.

(** [this.version] on an instance: its own [version], or the one it
    inherits from the prototype of its class. *)
Definition this_version (inherited : number) (e : Instance) : number :=
  match version e with
  | Some n => n
  | None => inherited
  end.

Definition with_instancesById (m : list (prim * ref)) (C : Class) : Class :=
  mkClass (abstract C) (transformVersion C) (transform_hasVersion C)
    (prototype_version C) (syncVersion C) m (instances C) (writer C).

Definition with_instances (l : list Instance) (C : Class) : Class :=
  mkClass (abstract C) (transformVersion C) (transform_hasVersion C)
    (prototype_version C) (syncVersion C) (instancesById C) l (writer C).

Definition with_writer (w : Writer) (C : Class) : Class :=
  mkClass (abstract C) (transformVersion C) (transform_hasVersion C)
    (prototype_version C) (syncVersion C) (instancesById C) (instances C) w.

Definition with_transform_version_set (C : Class) : Class :=
  mkClass (abstract C) (transformVersion C) true (Some (syncVersion C))
    (syncVersion C) (instancesById C) (instances C) (writer C).

Inductive exn : Type :=
| Error_bad_id          (* Error('Id should be a number or ...') *)
| TypeError_no_id       (* TypeError('No id provided') *)
| TypeError_abstract.   (* TypeError('Can not directly instantiate ...') *)

Inductive result (A : Type) : Type :=
| Return (a : A)
| Throw (e : exn).
Arguments Return {A} _.
Arguments Throw {A} _.

(** Modelled from the spec: the identity map of a class
    ([util/WeakValueMap] is not among the sources).  "Lookup returns the
    existing instance or inserts a newly constructed one."  Entries the
    garbage collector drops from a weak map are not modelled: an entry
    stays until it is deleted. *)
Definition identity_get (i : prim) (m : list (prim * ref)) : option ref :=
  map_get same_value_zero i m.

(** Modelled from the spec: the identity map, entering an instance under
    its id. *)
Definition identity_set (i : prim) (r : ref) (m : list (prim * ref))
  : list (prim * ref) :=
  map_set same_value_zero i r m.

(** Modelled from the spec: the identity map, "[delete(id)] removes the
    entry". *)
Definition identity_delete (i : prim) (m : list (prim * ref))
  : list (prim * ref) :=
  map_delete same_value_zero i m.

Section Identity.
Variable StringToNumber : string -> number.
Variable toBufferKey : prim -> bytes.

(** [constructor(id)] *)
Definition construct (i : prim) (C : Class) : result (ref * Class) :=
  if loose_eq_null i then Throw TypeError_no_id
  else if abstract C then Throw TypeError_abstract
  else
    Return (length (instances C),
            with_instances (instances C ++ [new_Instance i]) C).

(** [id > 0 && typeof id === 'string' || id == null] *)
Definition for_rejects (i : prim) : bool :=
  (gt0 (ToNumber StringToNumber i) && typeof_string i) || loose_eq_null i.

(** [static for(id)]; the [transform] method always exists on these
    classes, its [hasVersion] mark is kept per class. *)
Definition for_ (i : prim) (C : Class) : result (ref * Class) :=
  if for_rejects i then Throw Error_bad_id
  else
    match identity_get i (instancesById C) with
    | Some instance => Return (instance, C)
    | None =>
        match construct i C with
        | Throw e => Throw e
        | Return (instance, C1) =>
            let C2 :=
              if negb (transform_hasVersion C1)
                 && negb (transformVersion C1 =? 0)
              then with_transform_version_set C1
              else C1 in
            Return (instance,
                    with_instancesById
                      (identity_set i instance (instancesById C2))
                      C2)
        end
    end.

(** [id > 0 && typeof id === 'string' || !id] *)
Definition remove_rejects (i : prim) : bool :=
  (gt0 (ToNumber StringToNumber i) && typeof_string i) || negb (truthy i).

(** [static remove(id, event)] up to the event it passes on to [updated]:
    the entity is looked up, a delete is enqueued, the identity map drops
    the id. *)
Definition remove (i : prim) (nextVersion : Z) (C : Class) : result Class :=
  if remove_rejects i then Throw Error_bad_id
  else
    match for_ i C with
    | Throw e => Throw e
    | Return (_, C1) =>
        let w := fst (dbPut toBufferKey i None None nextVersion (writer C1)) in
        let C2 := with_writer w C1 in
        Return (with_instancesById
                  (identity_delete i (instancesById C2)) C2)
    end.

End Identity.

(** ** The identity invariant *)

Section IdentityInvariant.
Variable StringToNumber : string -> number.
Variable toBufferKey : prim -> bytes.

(** Every entry of the map names an object that carries its id, and no id
    is entered twice. *)
Definition canonical (C : Class) : Prop :=
  NoDup (map fst (instancesById C))
  /\ forall i r, In (i, r) (instancesById C) ->
       exists e, nth_error (instances C) r = Some e /\ id e = i.

(** The states a class goes through by calls of [for] and [remove]. *)
Inductive reachable : Class -> Prop :=
| reachable_new (C : Class) :
    instancesById C = [] -> reachable C
| reachable_for (i : prim) (r : ref) (C C1 : Class) :
    reachable C -> for_ StringToNumber i C = Return (r, C1) -> reachable C1
| reachable_remove (i : prim) (nv : Z) (C C1 : Class) :
    reachable C -> remove StringToNumber toBufferKey i nv C = Return C1 -> reachable C1.




End IdentityInvariant.

(** ** Loading, reading and dropping the cached value *)

Record LocalData : Type := mkLocalData {
  ld_version : option number;
  ld_asJSON : option string
}.

(** [data.indexOf(',')] together with the two [slice]s around it *)
Fixpoint split_comma (s : string) : option (string * string) :=
  match s with
  | EmptyString => None
  | String.String c s' =>
      if Ascii.eqb c ","%char then Some (EmptyString, s')
      else
        match split_comma s' with
        | Some (a, b) => Some (String.String c a, b)
        | None => None
        end
  end.

Definition isFinite (n : number) : bool :=
  match n with Fin _ => true | _ => false end.

Section Entity.
Variable StringToNumber : string -> number.
Variable JSON_parse : string -> value.
Variable toBufferKey : prim -> bytes.
(** [this.prototype.version] of the class of the instance, see
    [inherited_version] *)
Variable inherited : number.

(** [withValue] of [loadLocalData]; [None] is the call that returns
    nothing usable (no comma and not a finite number) or that fails on a
    value that is not a string. *)
Definition withValue (data : option opvalue) : option LocalData :=
  match data with
  | None => Some (mkLocalData None None)
  | Some (OVString s) =>
      if string_truthy s then
        match split_comma s with
        | Some (v, json) =>
            Some (mkLocalData (Some (StringToNumber v)) (Some json))
        | None =>
            if isFinite (StringToNumber s)
            then Some (mkLocalData (Some (StringToNumber s)) None)
            else None
        end
      else Some (mkLocalData None None)
  | Some (OVNumber n) =>
      if n =? 0 then Some (mkLocalData None None) else None
  end.

(** The loop of [dbGet] over [pendingWrites], newest batch first. *)
Fixpoint pending_lookup (key : prim) (newest_first : list nat) (w : Writer)
  : option Operation :=
  match newest_first with
  | [] => None
  | b :: older =>
      match map_get same_value_zero key (entries (get_batch b w)) with
      | Some o => Some o
      | None => pending_lookup key older w
      end
  end.

(** [static dbGet(key)] *)
Definition dbGet (key : prim) (w : Writer) : option opvalue :=
  match pending_lookup key (rev (pendingWrites w)) w with
  | Some o => op_value o
  | None => map_get bytes_eqb (toBufferKey key) (table w)
  end.

(** [loadLocalData] *)
Definition loadLocalData (e : Instance) (w : Writer) : option LocalData :=
  withValue (dbGet (id e) w).

(** [this.version || 0] *)
Definition version_or_0 (e : Instance) : number :=
  let n := this_version inherited e in
  if number_truthy n then n else num 0.

Definition set_loaded (r : ReadyState) (v : option number)
  (json : option string) (e : Instance) : Instance :=
  mkInstance (id e) (Some r) json (_cachedValue e) (cachedVersion e) v.

(** [loadLatestLocalData] for [versionProperty = 'version'], as in
    [Persisted]: with JSON in the row, [this[versionProperty] = version]
    overwrites the maximum assigned just before.  [nextVersion] is what
    [updateVersion] assigns.  [None]: the destructuring of a missing
    [data] fails. *)
Definition loadLatestLocalData (nextVersion : Z) (e : Instance) (w : Writer)
  : option Instance :=
  match loadLocalData e w with
  | None => None
  | Some data =>
      let fresh :=
        set_loaded no_local_data (Some (num nextVersion)) (asJSON e) e in
      let has_json :=
        match ld_asJSON data with
        | Some json => string_truthy json
        | None => false
        end in
      if has_json
      then Some (set_loaded up_to_date (ld_version data) (ld_asJSON data) e)
      else
        match ld_version data with
        | Some v =>
            if number_truthy v
            then Some (set_loaded invalidated
                         (Some (Math_max v (version_or_0 e)))
                         (asJSON e) e)
            else Some fresh
        | None => Some fresh
        end
  end.

Definition set_cachedValue (v : option value) (e : Instance) : Instance :=
  mkInstance (id e) (readyState e) (asJSON e) v (cachedVersion e) (version e).

(** [get value()]: the cached value when there is a truthy one, otherwise
    the parsed [asJSON], otherwise nothing. *)
Definition get_value (e : Instance) : option value * Instance :=
  let parsed :=
    match asJSON e with
    | Some json =>
        if string_truthy json
        then Some (JSON_parse json)
        else None
    | None => None
    end in
  match _cachedValue e with
  | Some v => if value_truthy v then (Some v, e)
              else (parsed, set_cachedValue parsed e)
  | None => (parsed, set_cachedValue parsed e)
  end.

(** [valueOf()] of [Persisted] outside any context: load when
    [readyState] is unset, then [super.valueOf(true)], the [valueOf] of
    alkali's [Variable], which is taken to read the [value] property. *)
Definition valueOf (nextVersion : Z) (e : Instance) (w : Writer)
  : option (option value * Instance) :=
  match readyState e with
  | Some _ => Some (get_value e)
  | None =>
      match loadLatestLocalData nextVersion e w with
      | Some e1 => Some (get_value e1)
      | None => None
      end
  end.

(** What the store holds for an id, as a load sees it. *)
Definition stored_json (i : prim) (w : Writer) : option (option string) :=
  match withValue (dbGet i w) with
  | None => None
  | Some data =>
      match ld_asJSON data with
      | Some json => if string_truthy json then Some (Some json) else Some None
      | None => Some None
      end
  end.

(** The value a read makes of it *)
Definition parse_stored (j : option string) : option value :=
  match j with
  | Some json => Some (JSON_parse json)
  | None => None
  end.

End Entity.

(** [clearCache()] *)
Definition clearCache (e : Instance) : Instance :=
  mkInstance (id e)
    (match readyState e with
     | Some up_to_date | Some invalidated => None
     | r => r
     end)
    None None (-1) (version e).

(** An instance method applied to the object behind a reference. *)
Definition on_instance (f : Instance -> Instance) (r : ref) (C : Class)
  : Class :=
  with_instances (list_update r f (instances C)) C.

Section Setter.
Variable JSON_stringify : value -> string.
Variable NumberToString : number -> string.
Variable toBufferKey : prim -> bytes.

(** The version as [dbPut] takes it.  The batcher keeps [lastVersion] as
    a whole number: a whole version is passed on, [NaN] is falsy and
    counts in [version || getNextVersion()] like a missing one, and a
    version that is a fraction or infinite is outside of what is modelled
    ([None]). *)
Definition version_argument (v : number) : option (option Z) :=
  match v with
  | Fin q =>
      if (Zpos (Qden (this q)) =? 1) then Some (Some (Qnum (this q)))
      else None
  | NaN => Some None
  | PosInf | NegInf => None
  end.

Definition set_fields (r : option ReadyState) (json : option string)
  (v : option value) (e : Instance) : Instance :=
  mkInstance (id e) r json v (cachedVersion e) (version e).

(** [set value(value)] of [Persisted] ([versionProperty = 'version']) for
    a value that is at hand, on the object behind [r], with
    [shouldPersist] left alone.  [None]: there is no object behind [r], or
    the version is not one [version_argument] covers. *)
Definition set_value (value : option value) (nextVersion : Z) (r : ref)
  (C : Class) : option Class :=
  match nth_error (instances C) r with
  | None => None
  | Some e =>
      let newToCache :=
        match readyState e with
        | None | Some no_local_data => true
        | _ => false
        end in
      let state1 :=
        if newToCache then Some loading_local_data else readyState e in
      let is_truthy :=
        match value with Some v => value_truthy v | None => false end in
      if negb is_truthy && newToCache then
        Some (on_instance
                (set_fields (Some no_local_data) (asJSON e) value) r C)
      else
        let state2 := if is_truthy then state1 else Some invalidated in
        let json :=
          match value with
          | Some v => if value_truthy v then Some (JSON_stringify v) else None
          | None => None
          end in
        let C1 := on_instance (set_fields state2 json value) r C in
        match identity_get (id e) (instancesById C1) with
        | Some r' =>
            if Nat.eqb r' r then
              let version := this_version (inherited_version C1) e in
              let data :=
                match json with
                | Some j =>
                    if string_truthy j
                    then (NumberToString version ++ "," ++ j)%string
                    else NumberToString version
                | None => NumberToString version
                end in
              match version_argument version with
              | Some v =>
                  Some (with_writer
                          (fst (dbPut toBufferKey (id e) (Some data) v
                                  nextVersion (writer C1))) C1)
              | None => None
              end
            else Some C1
        | None => Some C1
        end
  end.

End Setter.

(** ** The states of the batcher *)

Section BatcherShape.
Variable toBufferKey : prim -> bytes.

(** A batch as [dbPut] fills it: one operation per key, each the one
    [dbPut] makes for its key. *)
Definition batch_ok (B : WriteBatch) : Prop :=
  NoDup (map fst (entries B))
  /\ Forall (fun ko =>
              exists value, snd ko = operation_of toBufferKey (fst ko) value)
       (entries B).

(** The operations of batch [p] as its flush handed them over *)
Definition flushed_from (p : nat) (ops : list Operation) (w : Writer)
  : Prop :=
  exists v, ops = map_values (entries (get_batch p w)) ++ [watermark v].

(** Batch [b] is the open batch: its timer runs, or its flush has been
    requested and waits for the completion of the batch before it. *)
Definition is_open (b : nat) (w : Writer) : Prop :=
  currentWriteBatch w = Some b
  /\ writeCompletion w = Some b
  /\ (b < length (batches w))%nat
  /\ ~ In b (resolved w)
  /\ ((armed (get_batch b w) = true /\ timers w = [b] /\ awaiting w = [])
      \/ (armed (get_batch b w) = false /\ timers w = []
          /\ awaiting w = [b]
          /\ lastWriteCompletion (get_batch b w) <> None)).

(** Batch [p] is with the engine. *)
Definition is_written (p : nat) (ops : list Operation) (w : Writer) : Prop :=
  in_flight w = [(p, ops)]
  /\ (p < length (batches w))%nat
  /\ ~ In p (resolved w)
  /\ flushed_from p ops w.

(** The four situations a class can be in: nothing pending; one batch
    open; one batch with the engine; one batch with the engine and the
    next one open behind it. *)
Inductive phase (w : Writer) : Prop :=
| phase_idle :
    currentWriteBatch w = None -> writeCompletion w = None ->
    pendingWrites w = [] -> in_flight w = [] ->
    timers w = [] -> awaiting w = [] -> phase w
| phase_open (b : nat) :
    is_open b w -> pendingWrites w = [b] -> in_flight w = [] ->
    (forall p, lastWriteCompletion (get_batch b w) = Some p ->
               In p (resolved w)) ->
    phase w
| phase_writing (p : nat) (ops : list Operation) :
    is_written p ops w ->
    currentWriteBatch w = None -> writeCompletion w = Some p ->
    pendingWrites w = [p] -> timers w = [] -> awaiting w = [] -> phase w
| phase_writing_open (p : nat) (ops : list Operation) (b : nat) :
    is_written p ops w -> is_open b w -> p <> b ->
    pendingWrites w = [p; b] ->
    lastWriteCompletion (get_batch b w) = Some p -> phase w.

(** What holds of a class after any sequence of events *)
Definition batcher_ok (w : Writer) : Prop :=
  phase w
  /\ Forall batch_ok (batches w)
  /\ NoDup (resolved w)
  /\ (forall x, In x (resolved w) -> (x < length (batches w))%nat)
  /\ (forall x, (x < length (batches w))%nat ->
        In x (resolved w) \/ In x (pendingWrites w)).

End BatcherShape.

(** A change of one batch that leaves its timer and its chaining alone *)
Definition batch_local (f : WriteBatch -> WriteBatch) : Prop :=
  forall B, armed (f B) = armed B
            /\ lastWriteCompletion (f B) = lastWriteCompletion B.

(** Two states in which [dbGet] reads the same: it looks at
    [pendingWrites], at the entries of the batches and at the table. *)
Definition same_reads (w w' : Writer) : Prop :=
  pendingWrites w' = pendingWrites w /\ table w' = table w
  /\ forall b, entries (get_batch b w') = entries (get_batch b w).

(** The keys of all batches are among [ks]. *)
Definition keys_within (ks : list prim) (w : Writer) : Prop :=
  forall b k, In k (map fst (entries (get_batch b w))) -> In k ks.

(** ** Vocabulary for what a read returns *)

(** The keys a trace writes to *)
Definition put_keys (tr : list Event) : list prim :=
  flat_map (fun e => match e with DbPut k _ _ _ => [k] | _ => [] end) tr.

(** The value of the last [dbPut] of a trace to [key]; [Some None] when
    that call removed the entity. *)
Definition last_put (key : prim) (tr : list Event) : option (option string) :=
  fold_left
    (fun acc e =>
       match e with
       | DbPut k value _ _ => if same_value_zero key k then Some value else acc
       | _ => acc
       end) tr None.

(** The keys the batches of a class hold *)
Definition batch_keys (w : Writer) : list prim :=
  flat_map (fun B => map fst (entries B)) (batches w).

(** No batch write of the trace fails. *)
Definition no_failure (tr : list Event) : bool :=
  forallb (fun e => match e with BatchFailed _ => false | _ => true end) tr.

(** What [dbGet] returns for a value handed to [dbPut] *)
Definition stored (value : option string) : option opvalue :=
  match value with
  | Some s => Some (OVString s)
  | None => None
  end.

(** ** The previous value of an entity and the reset of a cached one *)

Section Previous.
Variable StringToNumber : string -> number.
Variable JSON_parse : string -> value.
Variable NumberToString : number -> string.
Variable toBufferKey : prim -> bytes.

(** [asJSON && JSON.parse(asJSON)] *)
Definition parsed_or_falsy (json : option string) : option value :=
  match json with
  | Some j => if string_truthy j then Some (JSON_parse j) else Some (VStr j)
  | None => None
  end.

(** [assignPreviousValue(event)]: what is entered for the instance into
    [event.previousValues], the cached value of an up-to-date instance
    that has a truthy one, otherwise the stored JSON, parsed; [None] when
    [loadLocalData] yields nothing to take [asJSON] from. *)
Definition assignPreviousValue (e : Instance) (w : Writer)
  : option (option value) :=
  let from_store :=
    match loadLocalData StringToNumber toBufferKey e w with
    | Some data => Some (parsed_or_falsy (ld_asJSON data))
    | None => None
    end in
  match readyState e, _cachedValue e with
  | Some up_to_date, Some v =>
      if value_truthy v then Some (Some v) else from_store
  | _, _ => from_store
  end.

(** [resetCache(event)] of [Cached] on the object behind [r], with
    [shouldPersist] left alone: the cached value goes, the instance gets
    the next version, and the version alone is stored, "to indicate
    invalidation". *)
Definition resetCache (nextVersion : Z) (r : ref) (C : Class)
  : option Class :=
  match nth_error (instances C) r with
  | None => None
  | Some e =>
      let C1 :=
        on_instance
          (fun e =>
             mkInstance (id e) (readyState e) None None (cachedVersion e)
               (Some (num nextVersion))) r C in
      Some (with_writer
              (fst (dbPut toBufferKey (id e)
                      (Some (NumberToString (num nextVersion)))
                      (Some nextVersion) nextVersion (writer C1))) C1)
  end.

End Previous.

(** ** Range scans of the KV engine *)

(** The order of binary keys: byte by byte, a proper prefix first. *)
Fixpoint compare_bytes (a b : bytes) : comparison :=
  match a, b with
  | [], [] => Eq
  | [], _ :: _ => Lt
  | _ :: _, [] => Gt
  | x :: a', y :: b' =>
      match N.compare (Strings.Byte.to_N x) (Strings.Byte.to_N y) with
      | Eq => compare_bytes a' b'
      | c => c
      end
  end.

(** The options of a scan, [{gt, lt, gte, lte}] *)
Record IterableOptions : Type := mkIterableOptions {
  o_gt : option bytes;
  o_lt : option bytes;
  o_gte : option bytes;
  o_lte : option bytes
}.

Definition bound_holds (ok : comparison -> bool) (key : bytes)
  (bound : option bytes) : bool :=
  match bound with
  | Some b => ok (compare_bytes key b)
  | None => true
  end.

(** Modelled from the spec: the bounds of
    "iterable({gt?, lt?, gte?, lte?, values?: bool})". *)
Definition in_range (o : IterableOptions) (key : bytes) : bool :=
  bound_holds (fun c => match c with Gt => true | _ => false end) key (o_gt o)
  && bound_holds (fun c => match c with Lt => true | _ => false end) key
       (o_lt o)
  && bound_holds (fun c => match c with Lt => false | _ => true end) key
       (o_gte o)
  && bound_holds (fun c => match c with Gt => false | _ => true end) key
       (o_lte o).

Fixpoint insert_row (r : bytes * opvalue) (l : list (bytes * opvalue))
  : list (bytes * opvalue) :=
  match l with
  | [] => [r]
  | x :: l' =>
      match compare_bytes (fst r) (fst x) with
      | Gt => x :: insert_row r l'
      | _ => r :: l
      end
  end.

(** Modelled from the spec: the range scan of the KV engine
    ([storage/level] is not among the sources),
    "iterable({gt?, lt?, gte?, lte?, values?: bool}) yielding {key, value}
    pairs in key order"; the order of the keys, which are buffers, is taken
    to be the order byte by byte. *)
Definition iterable (o : IterableOptions) (t : list (bytes * opvalue))
  : list (bytes * opvalue) :=
  fold_right insert_row [] (filter (fun r => in_range o (fst r)) t).

(** The rows come in the order of their keys. *)
Fixpoint in_key_order (l : list (bytes * opvalue)) : Prop :=
  match l with
  | [] => True
  | x :: l' =>
      (forall y, In y l' -> compare_bytes (fst x) (fst y) <> Gt)
      /\ in_key_order l'
  end.

(** [{ gt: Buffer.from([2]) }], the options of [entries] and of the scan
    in [getInstanceIdsAndVersionsSince], and those of [getInstanceIds]
    without a range *)
Definition all_entities : IterableOptions :=
  mkIterableOptions (Some [Byte.x02]) None None None.

(** The [range] argument of [getInstanceIds]; a bound that is not given
    is [undefined]. *)
Record Range : Type := mkRange {
  r_gt : prim;
  r_lt : prim;
  r_gte : prim;
  r_lte : prim
}.

Section Listing.
Variable toBufferKey : prim -> bytes.
(** [fromBufferKey] of ordered-binary *)
Variable fromBufferKey : bytes -> prim.

(** [if (range.gt != null) options.gt = toBufferKey(range.gt)] *)
Definition bound_of (p : prim) (default : option bytes) : option bytes :=
  if loose_eq_null p then default else Some (toBufferKey p).

(** The options [getInstanceIds] builds: [gt] stays [[2]] unless the range
    brings a [gt] of its own. *)
Definition range_options (range : option Range) : IterableOptions :=
  match range with
  | Some r =>
      mkIterableOptions (bound_of (r_gt r) (Some [Byte.x02]))
        (bound_of (r_lt r) None) (bound_of (r_gte r) None)
        (bound_of (r_lte r) None)
  | None => all_entities
  end.

(** [static getInstanceIds(range)]: [currentWriteBatch.completion] is
    never set, so [when] runs the scan at once, on the table as it is. *)
Definition getInstanceIds (range : option Range) (w : Writer) : list prim :=
  map (fun r => fromBufferKey (fst r))
    (iterable (range_options range) (table w)).

(** [static entries(opts)] *)
Definition entries_of_table (w : Writer) : list (prim * opvalue) :=
  map (fun r => (fromBufferKey (fst r), snd r))
    (iterable all_entities (table w)).

End Listing.

End Persisted.
(* ================================================================== *)
(** * The permission proxy of Persisted.ts *)
(* ================================================================== *)

Module SecureAccess.

(** What [Class.allow(...)] wraps: the class itself, and through the [for]
    override every instance it hands out. *)
Inductive target : Type :=
| TheClass
| AnInstance (id : nat).

(** An object as a caller holds it: the target itself, or
    [new Proxy(target, handler)]. *)
Inductive object : Type :=
| Plain (t : target)
| Proxied (t : target).

(** The names a caller can ask the proxy for, by what [handler.get] makes
    of them.  [methodOverrides] is an object literal: besides its own
    three names, [methodOverrides[name]] finds every member of
    [Object.prototype]. *)
Inductive name : Type :=
| n_for
| n_stopNotifies
| n_isChecked
| n_valueOf                        (* Object.prototype.valueOf *)
| n_proto                          (* __proto__, an object, not a function *)
| n_object_prototype (s : string)  (* another function of Object.prototype:
                                      toString, hasOwnProperty,
                                      constructor, ... *)
| n_method (s : string)            (* any other name under which the
                                      target has a function *)
| n_field (s : string).            (* any other name *)

Inductive effect : Type :=
| Ran (t : target) (n : name) (arg : nat)
    (* target[name] ran with this = target *)
| Checked (t : target) (n : name) (arg : nat).
    (* secureAccess.checkPermissions ran *)

Inductive retval : Type :=
| R_object (o : object)
| R_true
| R_result (t : target) (n : name) (arg : nat)
    (* what a method of the target returned, when it is no object of the
       class *)
| R_builtin (t : target) (s : string) (arg : nat).
    (* what a function of Object.prototype returned *)

Inductive outcome : Type :=
| Returned (effects : list effect) (r : retval)
| Thrown_AccessError (effects : list effect)
| Thrown_TypeError (effects : list effect)
| Out_of_fuel.

Section Proxy.
(** [secureAccess.checkPermissions(permissions, target, name, args)
    === true] *)
Variable checkPermissions : target -> name -> nat -> bool.
(** Whether alkali's [currentContext] is set when the call is made *)
Variable currentContext : bool.
(** What the methods of the class and of its instances return *)
Variable method_returns : target -> string -> nat -> retval.

(** [target[name](arg)], the call on the wrapped object itself.
    [Class.for(id)] returns the instance of that id; [for] is static, an
    instance has none, and [isChecked] exists on the proxy alone. *)
Definition own_method (t : target) (n : name) (arg : nat) : outcome :=
  match n, t with
  | n_for, TheClass =>
      Returned [Ran t n arg] (R_object (Plain (AnInstance arg)))
  | n_for, AnInstance _ => Thrown_TypeError []
  | n_isChecked, _ => Thrown_TypeError []
  | n_proto, _ => Thrown_TypeError []
  | n_field _, _ => Thrown_TypeError []
  | n_method s, _ => Returned [Ran t n arg] (method_returns t s arg)
  | _, _ => Returned [Ran t n arg] (R_result t n arg)
  end.

(** [receiver[name](arg)].  On a proxy this is [handler.get(target, name)]
    applied to [arg].  When [methodOverrides[name]] is truthy the handler
    returns it bound to [target], so inside it [this] is the wrapped
    object: for the three overrides, and also for what [methodOverrides]
    inherits from [Object.prototype], which then runs in place of the
    method of the target.  Any other function of the target is wrapped
    into the permission check, which needs a current context; anything
    else is returned as it is, and calling it fails. *)
Fixpoint invoke (fuel : nat) (receiver : object) (n : name) (arg : nat)
  : outcome :=
  match fuel with
  | O => Out_of_fuel
  | S fuel' =>
      match receiver with
      | Plain t => own_method t n arg
      | Proxied t =>
          let this := Plain t in
          match n with
          | n_for =>
              (* let target = Class.for(id);
                 return new Proxy(target, handler) *)
              match invoke fuel' (Plain TheClass) n_for arg with
              | Returned eff (R_object (Plain t')) =>
                  Returned eff (R_object (Proxied t'))
              | other => other
              end
          | n_stopNotifies =>
              (* return this.stopNotifies(target) *)
              invoke fuel' this n_stopNotifies arg
          | n_isChecked => Returned [] R_true
          | n_valueOf =>
              (* Object.prototype.valueOf.bind(target)() *)
              Returned [] (R_object this)
          | n_proto =>
              (* methodOverrides.__proto__.bind is not a function *)
              Thrown_TypeError []
          | n_object_prototype s => Returned [] (R_builtin t s arg)
          | n_method _ =>
              if currentContext then
                if checkPermissions t n arg then
                  match own_method t n arg with
                  | Returned eff r => Returned (Checked t n arg :: eff) r
                  | Thrown_AccessError eff =>
                      Thrown_AccessError (Checked t n arg :: eff)
                  | Thrown_TypeError eff =>
                      Thrown_TypeError (Checked t n arg :: eff)
                  | Out_of_fuel => Out_of_fuel
                  end
                else Thrown_AccessError [Checked t n arg]
              else
                (* context.newContext() on a missing context *)
                Thrown_TypeError []
          | n_field _ => Thrown_TypeError []
          end
      end
  end.

End Proxy.

End SecureAccess.

(* ================================================================== *)
(** * Index.ts *)
(* ================================================================== *)

Module Index.
Import Js.

Definition bytes := Persisted.bytes.
Definition Operation := Persisted.Operation.

(** [Buffer.from([30])] and [Buffer.from([1, 2])] *)
Definition SEPARATOR_BYTE : bytes := [Byte.x1e].
Definition LAST_INDEXED_VERSION_KEY : bytes := [Byte.x01; Byte.x02].

(** An index key: [string | number], as [indexBy] declares it. *)
Inductive key : Type :=
| KNumber (n : number)
| KString (s : string).

Definition key_prim (k : key) : prim :=
  match k with
  | KNumber n => Number n
  | KString s => String s
  end.

Definition key_eqb (a b : key) : bool :=
  same_value_zero (key_prim a) (key_prim b).

(** One element of what [indexBy] returns: an object with [key] and
    [value], a bare key, or [null] or [undefined], of which no property can
    be read. *)
Inductive entry : Type :=
| Entry_object (k : key) (v : option value)
| Entry_key (k : key)
| Entry_nullish.

(** What [indexBy] returns: nothing, [null] (what the [indexBy] of the
    index class itself returns), a single key, a single object or an
    array. *)
Inductive indexed : Type :=
| I_undefined
| I_null
| I_key (k : key)
| I_object (k : key) (v : option value)
| I_array (l : list entry).

(** What [entity.valueOf(INDEXING_MODE)] comes to, the second try
    included: the value, [undefined], or a failure of both tries. *)
Inductive entity_value : Type :=
| Value (v : value)
| No_value
| Retrieval_fails.

(** The origin of an update, a member of [sources]. *)
Definition source := nat.

Record IndexRequest : Type := mkIndexRequest {
  previousState : option value;
  deleted : bool;
  sources : option (list source);
  version : Z                       (* 0: missing *)
}.

(** The warnings of [console.warn] and the error [updated] throws; what
    [console.log] and [console.info] write is left out. *)
Inductive LogEntry : Type :=
| warn_missing_version (id : prim)  (* 'index request missing version' *)
| error_missing_version (id : prim) (* Error('missing version') *)
| warn_error_indexing (id : prim)   (* 'Error indexing' *)
| warn_error_retrieving (id : prim).
    (* 'Error retrieving value needing to be indexed' *)

(** The variables closed over by the index class together with its static
    fields and the table of the KV engine behind it. *)
Record State : Type := mkState {
  operations : list Operation;
  byteCount : Z;
  lastIndexedVersion : Z;
  updatedIndexEntries : list (key * list source);
  queue : MapObject prim IndexRequest;
  queuedIndexedProgress : option Z;
  committing : list (list Operation * Z);
    (* db.batch calls not yet resolved, with the progress of the callback *)
  sending : list Z;
    (* sendUpdates promises not yet resolved, with their progress *)
  table : list (bytes * Persisted.opvalue);
  console : list LogEntry
}.

Definition new_State : State :=
  mkState [] 0 0 [] new_Map None [] [] [] [].

Definition with_operations (x : list Operation) (n : Z) (s : State) : State :=
  mkState x n (lastIndexedVersion s) (updatedIndexEntries s) (queue s)
    (queuedIndexedProgress s) (committing s) (sending s) (table s) (console s).

Definition with_lastIndexedVersion (x : Z) (s : State) : State :=
  mkState (operations s) (byteCount s) x (updatedIndexEntries s) (queue s)
    (queuedIndexedProgress s) (committing s) (sending s) (table s) (console s).

Definition with_updatedIndexEntries (x : list (key * list source))
  (s : State) : State :=
  mkState (operations s) (byteCount s) (lastIndexedVersion s) x (queue s)
    (queuedIndexedProgress s) (committing s) (sending s) (table s) (console s).

Definition with_queue (x : MapObject prim IndexRequest) (s : State) : State :=
  mkState (operations s) (byteCount s) (lastIndexedVersion s)
    (updatedIndexEntries s) x (queuedIndexedProgress s) (committing s)
    (sending s) (table s) (console s).

Definition with_queuedIndexedProgress (x : option Z) (s : State) : State :=
  mkState (operations s) (byteCount s) (lastIndexedVersion s)
    (updatedIndexEntries s) (queue s) x (committing s) (sending s) (table s)
    (console s).

Definition with_committing (x : list (list Operation * Z)) (s : State)
  : State :=
  mkState (operations s) (byteCount s) (lastIndexedVersion s)
    (updatedIndexEntries s) (queue s) (queuedIndexedProgress s) x (sending s)
    (table s) (console s).

Definition with_sending (x : list Z) (s : State) : State :=
  mkState (operations s) (byteCount s) (lastIndexedVersion s)
    (updatedIndexEntries s) (queue s) (queuedIndexedProgress s)
    (committing s) x (table s) (console s).

Definition with_table (x : list (bytes * Persisted.opvalue)) (s : State)
  : State :=
  mkState (operations s) (byteCount s) (lastIndexedVersion s)
    (updatedIndexEntries s) (queue s) (queuedIndexedProgress s)
    (committing s) (sending s) x (console s).

Definition with_console (x : list LogEntry) (s : State) : State :=
  mkState (operations s) (byteCount s) (lastIndexedVersion s)
    (updatedIndexEntries s) (queue s) (queuedIndexedProgress s)
    (committing s) (sending s) (table s) x.

(** [Set.add] *)
Definition set_add (x : source) (l : list source) : list source :=
  if existsb (Nat.eqb x) l then l else l ++ [x].

(** [addUpdatedIndexEntry(key, sources)] *)
Definition addUpdatedIndexEntry (k : key) (srcs : option (list source))
  (s : State) : State :=
  let old :=
    match map_get key_eqb k (updatedIndexEntries s) with
    | Some e => e
    | None => []
    end in
  let e :=
    match srcs with
    | Some l => fold_left (fun acc x => set_add x acc) l old
    | None => old
    end in
  with_updatedIndexEntries (map_set key_eqb k e (updatedIndexEntries s)) s.

Section Indexing.
(** [JSON.stringify] *)
Variable JSON_stringify : value -> string.
(** [toBufferKey] of ordered-binary *)
Variable toBufferKey : prim -> bytes.
(** [static indexBy(data)] of the index class; [None] when it throws *)
Variable indexBy : value -> option indexed.
(** [Source.for(id)]: [None] when it throws, as [for] does on the ids it
    rejects; otherwise the entity, given by what its
    [valueOf(INDEXING_MODE)] comes to *)
Variable Source_for : prim -> option entity_value.

(** [entry.value === undefined ? '' : JSON.stringify(entry.value)] *)
Definition value_json (v : option value) : string :=
  match v with
  | None => EmptyString
  | Some x => JSON_stringify x
  end.

(** The key and the serialised value of one element:
    [typeof entry === 'object' ? entry.key : entry] and [entry.value];
    [None] for [null] and [undefined], on which these throw a
    [TypeError]. *)
Definition entry_pair (e : entry) : option (key * string) :=
  match e with
  | Entry_object k v => Some (k, value_json v)
  | Entry_key k => Some (k, EmptyString)
  | Entry_nullish => None
  end.

(** The elements the two loops of [indexEntry] walk through: an array as
    it is, a single object or key as the one element, nothing for
    [undefined]; [null] has the type ['object'] and is no array, so it is
    wrapped into an array like a single object. *)
Definition entries_of (r : indexed) : list entry :=
  match r with
  | I_undefined => []
  | I_null => [Entry_nullish]
  | I_key k => [Entry_key k]
  | I_object k v => [Entry_object k v]
  | I_array l => l
  end.

(** [Buffer.concat([toBufferKey(key), SEPARATOR_BYTE, toBufferKey(id)])] *)
Definition fullKey (k : key) (id : prim) : bytes :=
  toBufferKey (key_prim k) ++ SEPARATOR_BYTE ++ toBufferKey id.

Definition put_operation (k : key) (id : prim) (v : string) : Operation :=
  Persisted.mkOperation Persisted.op_put (fullKey k id)
    (Some (Persisted.OVString v)).

Definition del_operation (k : key) (id : prim) : Operation :=
  Persisted.mkOperation Persisted.op_del (fullKey k id) None.

(** The first loop over the elements [l], filling [toRemove]; [None] when
    it throws. *)
Fixpoint collect_previous (l : list entry) (toRemove : list (key * string))
  : option (list (key * string)) :=
  match l with
  | [] => Some toRemove
  | e :: l' =>
      match entry_pair e with
      | Some kv =>
          collect_previous l' (map_set key_eqb (fst kv) (snd kv) toRemove)
      | None => None
      end
  end.

(** [toRemove] as it stands after the first loop; [None] when [indexBy]
    or the loop throws. *)
Definition previous_map (req : IndexRequest)
  : option (list (key * string)) :=
  match previousState req with
  | Some p =>
      match indexBy p with
      | Some r => collect_previous (entries_of r) []
      | None => None
      end
  | None => Some []
  end.

(** The elements of the second loop: none for a deleted entity, which is
    not loaded at all, and none without data; [None] when [indexBy]
    throws. *)
Definition current_elements (entity : entity_value) (req : IndexRequest)
  : option (list entry) :=
  if deleted req then Some []
  else
    match entity with
    | Value data => option_map entries_of (indexBy data)
    | No_value | Retrieval_fails => Some []
    end.

(** The body of the second loop *)
Definition index_one (id : prim) (srcs : option (list source))
  (acc : State * list (key * string)) (kv : key * string)
  : State * list (key * string) :=
  let '(s, toRemove) := acc in
  let '(k, v) := kv in
  let removedValue := map_get key_eqb k toRemove in
  let toRemove' :=
    match removedValue with
    | Some _ => map_delete key_eqb k toRemove
    | None => toRemove
    end in
  let changed :=
    match removedValue with
    | None => true
    | Some old => negb (String.eqb v old)
    end in
  if changed then
    let o := put_operation k id v in
    let n :=
      byteCount s + Z.of_nat (String.length v)
      + Z.of_nat (length (Persisted.op_key o)) in
    (addUpdatedIndexEntry k srcs (with_operations (operations s ++ [o]) n s),
     toRemove')
  else (s, toRemove').

(** The second loop over the elements [l]: it stops at the first element
    on which it throws, with [None] in place of [toRemove]; what it has
    pushed to [operations] by then stays. *)
Fixpoint index_entries (id : prim) (srcs : option (list source))
  (l : list entry) (acc : State * list (key * string))
  : State * option (list (key * string)) :=
  match l with
  | [] => (fst acc, Some (snd acc))
  | e :: l' =>
      match entry_pair e with
      | Some kv => index_entries id srcs l' (index_one id srcs acc kv)
      | None => (fst acc, None)
      end
  end.

(** The body of the third loop *)
Definition remove_one (id : prim) (srcs : option (list source)) (s : State)
  (kv : key * string) : State :=
  addUpdatedIndexEntry (fst kv) srcs
    (with_operations (operations s ++ [del_operation (fst kv) id])
       (byteCount s) s).

(** The [catch] around the body of [indexEntry]:
    [console.warn('Error indexing', ...)] *)
Definition abandoned (id : prim) (s : State) : State :=
  with_console (console s ++ [warn_error_indexing id]) s.

(** [static *indexEntry(id, indexRequest)], run to its end.  Whatever
    throws inside the [try] ends the request in [abandoned]: the
    operations pushed so far stay, the remaining puts, all dels and the
    lines on the version are skipped. *)
Definition indexEntry (id : prim) (req : IndexRequest) (s : State) : State :=
  match Source_for id with
  | None => abandoned id s
  | Some entity =>
      match previous_map req with
      | None => abandoned id s
      | Some toRemove0 =>
          let s0 :=
            match entity with
            | Retrieval_fails =>
                if deleted req then s
                else with_console (console s ++ [warn_error_retrieving id]) s
            | _ => s
            end in
          match current_elements entity req with
          | None => abandoned id s0
          | Some l =>
              match index_entries id (sources req) l (s0, toRemove0) with
              | (s1, None) => abandoned id s1
              | (s1, Some toRemove) =>
                  let s2 :=
                    fold_left (remove_one id (sources req)) toRemove s1 in
                  if version req =? 0
                  then with_console
                         (console s2 ++ [warn_missing_version id]) s2
                  else with_lastIndexedVersion
                         (Z.max (version req) (lastIndexedVersion s2)) s2
              end
          end
      end
  end.

(** ** The queue *)

(** What [updated] reads off the event *)
Record Update : Type := mkUpdate {
  u_version : Z;                        (* event.version, 0: missing *)
  u_deleted : bool;                     (* event.type == 'deleted' *)
  u_sources : option (list source);     (* event.sources *)
  u_source : option source              (* event.source *)
}.

Definition merge_sources (u : Update) (old : option (list source))
  : option (list source) :=
  match u_sources u, u_source u with
  | Some l, _ =>
      Some (fold_left (fun acc x => set_add x acc) l
              (match old with Some o => o | None => [] end))
  | None, Some x =>
      Some (set_add x (match old with Some o => o | None => [] end))
  | None, None => old
  end.

(** The callback of [static updated(event, by)] for an update of the
    source instance [id]: the request goes to the end of the queue with the
    version of the event; a missing version throws after the queue has
    been touched. *)
Definition updated (id : prim) (previous : option value) (u : Update)
  (s : State) : State :=
  if truthy id then
    let '(q, req) :=
      match mo_get same_value_zero id (queue s) with
      | Some r =>
          let r' :=
            mkIndexRequest (previousState r) (deleted r) (sources r)
              (u_version u) in
          (mo_set same_value_zero id r'
             (mo_delete same_value_zero id (queue s)), r')
      | None =>
          let r' := mkIndexRequest previous false None (u_version u) in
          (mo_set same_value_zero id r' (queue s), r')
      end in
    if version req =? 0
    then
      let s1 := with_queue q s in
      with_console (console s1 ++ [error_missing_version id]) s1
    else
      let req' :=
        mkIndexRequest (previousState req) (u_deleted u)
          (merge_sources u (sources req)) (version req) in
      with_queue (mo_set same_value_zero id req' q) s
  else s.

(** [queue.delete(id); spawn(this.indexEntry(id, indexRequest))] for the
    first entry of the queue *)
Definition index_next (s : State) : State :=
  match map_data (queue s) with
  | [] => s
  | (id, req) :: _ =>
      indexEntry id req
        (with_queue (mo_delete same_value_zero id (queue s)) s)
  end.

(** [this.queue[0]] *)
Definition nextIndexRequest (s : State) : option IndexRequest :=
  get_property (queue s) "0".

(** The progress [commitOperations] computes *)
Definition indexedProgress (s : State) : Z :=
  match nextIndexRequest s with
  | Some next => Z.min (version next - 1) (lastIndexedVersion s)
  | None => lastIndexedVersion s
  end.

(** [if (this.queuedIndexedProgress)] *)
Definition progress_ready (s : State) : option Z :=
  match queuedIndexedProgress s with
  | Some p => if p =? 0 then None else Some p
  | None => None
  end.

Definition progress_operation (p : Z) : Operation :=
  Persisted.mkOperation Persisted.op_put LAST_INDEXED_VERSION_KEY
    (Some (Persisted.OVNumber p)).

(** [static commitOperations()] up to the call of [db.batch] *)
Definition commitOperations (s : State) : State :=
  let progress := indexedProgress s in
  match operations s with
  | [] => with_queuedIndexedProgress (Some progress) s
  | _ =>
      let operationsToCommit := operations s in
      let s1 := with_operations [] 0 s in
      let '(ops, s2) :=
        match progress_ready s1 with
        | Some p =>
            (operationsToCommit ++ [progress_operation p],
             with_queuedIndexedProgress None s1)
        | None => (operationsToCommit, s1)
        end in
      with_committing (committing s2 ++ [(ops, progress)]) s2
  end.

(** The batch resolves: the rows are in the table, [sendUpdates] empties
    [updatedIndexEntries] and starts the updates. *)
Definition batch_resolved (s : State) : State :=
  match committing s with
  | [] => s
  | (ops, progress) :: rest =>
      let s1 := with_table (Persisted.apply_batch ops (table s)) s in
      let s2 := with_committing rest s1 in
      let s3 := with_updatedIndexEntries [] s2 in
      with_sending (sending s3 ++ [progress]) s3
  end.

(** The updates are written:
    [this.queuedIndexedProgress = indexedProgress] *)
Definition updates_written (s : State) : State :=
  match sending s with
  | [] => s
  | progress :: rest =>
      with_queuedIndexedProgress (Some progress) (with_sending rest s)
  end.

(** The end of a pass of [processQueue]:
    [db.put(LAST_INDEXED_VERSION_KEY, this.queuedIndexedProgress)] *)
Definition store_progress (s : State) : State :=
  match progress_ready s with
  | Some p =>
      with_queuedIndexedProgress None
        (with_table
           (map_set Persisted.bytes_eqb LAST_INDEXED_VERSION_KEY
              (Persisted.OVNumber p) (table s)) s)
  | None => s
  end.

(** ** Rebuilding and resuming *)

(** [static *rebuildIndex()]: the table is cleared and the progress 0 is
    put, which "indicates indexing has started". *)
Definition rebuildIndex (s : State) : State :=
  with_table [(LAST_INDEXED_VERSION_KEY, Persisted.OVNumber 0)] s.

(** The watermark the table holds *)
Definition stored_progress (s : State) : option Persisted.opvalue :=
  map_get Persisted.bytes_eqb LAST_INDEXED_VERSION_KEY (table s).

(** The second part of [fromBufferKey(key, true)] *)
Variable sourceId_of : bytes -> prim.
(** [INITIALIZATION_SOURCE] *)
Variable INITIALIZATION_SOURCE : source.
(** What [updateDBVersion] writes under [[0x01,0x01]] *)
Variable db_version_json : string.

(** [+this.getDb().getSync(LAST_INDEXED_VERSION_KEY) || 0]; [None] for a
    string under the progress key, which [commitOperations],
    [processQueue] and [rebuildIndex] never write and whose conversion is
    left out. *)
Definition stored_version (s : State) : option Z :=
  match stored_progress s with
  | None => Some 0
  | Some (Persisted.OVNumber p) => Some p
  | Some (Persisted.OVString _) => None
  end.

(** The scan over all entries that removes the rows of the sources to be
    indexed again: [if (setOfIds.has(sourceId)) db.removeSync(key)] *)
Definition remove_rows_of (ids : list prim)
  (t : list (bytes * Persisted.opvalue)) : list (bytes * Persisted.opvalue) :=
  filter
    (fun r =>
       negb (Persisted.in_range Persisted.all_entities (fst r)
             && existsb (same_value_zero (sourceId_of (fst r))) ids))
    t.

(** [{ version, sources: new Set([INITIALIZATION_SOURCE]) }] *)
Definition resume_request (v : Z) : IndexRequest :=
  mkIndexRequest None false (Some [INITIALIZATION_SOURCE]) v.

(** [static *resumeIndex()] up to [requestProcessing], run to its end,
    for the list [Source.getInstanceIdsAndVersionsSince(lastIndexedVersion)]
    has yielded; the put of [updateDBVersion] is taken as done. *)
Definition resumeIndex (idsAndVersions : list (prim * Z)) (s : State)
  : option State :=
  match stored_version s with
  | None => None
  | Some n =>
      let s1 := with_lastIndexedVersion n s in
      let t :=
        if n =? 0
        then [(Persisted.DB_VERSION_KEY, Persisted.OVString db_version_json)]
        else remove_rows_of (map fst idsAndVersions) (table s1) in
      let s2 := with_table t s1 in
      Some (with_queue
              (fold_left
                 (fun q iv =>
                    mo_set same_value_zero (fst iv) (resume_request (snd iv)) q)
                 idsAndVersions (queue s2))
              s2)
  end.

(** ** The steps of an index *)

(** What can happen to an index, one at a time.  [Resume] carries what
    [Source.getInstanceIdsAndVersionsSince] yields. *)
Inductive Step : Type :=
| Enqueue (id : prim) (previous : option value) (u : Update)
| IndexNext
| Commit
| BatchResolved
| UpdatesWritten
| StoreProgress
| Rebuild
| Resume (idsAndVersions : list (prim * Z)).

(** A resume that meets a string under the progress key, which
    [stored_version] leaves out, leaves the state as it is. *)
Definition step (e : Step) (s : State) : State :=
  match e with
  | Enqueue id previous u => updated id previous u s
  | IndexNext => index_next s
  | Commit => commitOperations s
  | BatchResolved => batch_resolved s
  | UpdatesWritten => updates_written s
  | StoreProgress => store_progress s
  | Rebuild => rebuildIndex s
  | Resume idsAndVersions =>
      match resumeIndex idsAndVersions s with
      | Some s' => s'
      | None => s
      end
  end.

Definition run (tr : list Step) (s : State) : State :=
  fold_left (fun s e => step e s) tr s.

(** ** The loop of [processQueue] *)

(** [DEFAULT_INDEXING_CONCURRENCY] *)
Definition DEFAULT_INDEXING_CONCURRENCY : Z := 15.

(** [(Source.MAX_CONCURRENCY || DEFAULT_INDEXING_CONCURRENCY) * 2], with 0
    for a [MAX_CONCURRENCY] that is not set *)
Definition commit_threshold (MAX_CONCURRENCY : Z) : Z :=
  (if MAX_CONCURRENCY =? 0 then DEFAULT_INDEXING_CONCURRENCY
   else MAX_CONCURRENCY) * 2.

(** [yield this.commitOperations()]: the call and, when it hands a batch
    to the engine, the completion of that batch, which the pass waits
    for.  No other batch is in flight then, since every commit of a pass
    is waited for, so that [batch_resolved] is the completion of this
    one. *)
Definition commit_and_wait (s : State) : State :=
  match operations s with
  | [] => commitOperations s
  | _ :: _ => batch_resolved (commitOperations s)
  end.

(** [for (let [id, indexRequest] of queue) { ... }] of [processQueue] over
    the requests [l] that are queued, with every [indexEntry] run to its
    end before the next one starts, no update arriving in between, no
    [onBeforeCommit] hook and every batch written.  [since] is
    [sinceLastStateUpdate]: the test [sinceLastStateUpdate++ > threshold]
    looks at the value before the increment.  The result tells whether the
    pass has returned from inside the loop, which it does after the
    request at hand when [cancelIndexing] is set. *)
Fixpoint processQueue_for (cancelIndexing : bool) (threshold : Z)
  (l : list (prim * IndexRequest)) (since : Z) (s : State) : State * bool :=
  match l with
  | [] => (s, false)
  | (id, req) :: l' =>
      let s1 :=
        indexEntry id req
          (with_queue (mo_delete same_value_zero id (queue s)) s) in
      let '(s2, since') :=
        if threshold <? since then (commit_and_wait s1, 0)
        else (s1, since + 1) in
      if cancelIndexing then (s2, true)
      else processQueue_for cancelIndexing threshold l' since' s2
  end.

(** ** The entries of a request *)

(** The keys and serialised values of the elements [l] when each of them
    can be read *)
Fixpoint pairs_of (l : list entry) : option (list (key * string)) :=
  match l with
  | [] => Some []
  | e :: l' =>
      match entry_pair e, pairs_of l' with
      | Some kv, Some r => Some (kv :: r)
      | _, _ => None
      end
  end.

(** The entries of the current value, when [Source.for] and [indexBy]
    return and every element can be read *)
Definition current_entries (id : prim) (req : IndexRequest)
  : option (list (key * string)) :=
  match Source_for id with
  | Some entity =>
      match current_elements entity req with
      | Some l => pairs_of l
      | None => None
      end
  | None => None
  end.

(** The request is indexed to the end: nothing throws. *)
Definition completes (id : prim) (req : IndexRequest) : bool :=
  match previous_map req, current_entries id req with
  | Some _, Some _ => true
  | _, _ => false
  end.

(** What indexing the request adds to the console *)
Definition request_warnings (id : prim) (req : IndexRequest)
  : list LogEntry :=
  match Source_for id, previous_map req with
  | Some entity, Some _ =>
      (match entity with
       | Retrieval_fails =>
           if deleted req then [] else [warn_error_retrieving id]
       | _ => []
       end)
      ++ (if completes id req
          then if version req =? 0 then [warn_missing_version id] else []
          else [warn_error_indexing id])
  | _, _ => [warn_error_indexing id]
  end.

(** ** The difference of two sets of entries, in the words of the
    specification *)

(** No operation for an entry whose key and serialised value are as
    before, a put for a new or changed pair, and a del for every previous
    key that is not among the current ones. *)
Definition diff_operations (id : prim) (previous current : list (key * string))
  : list Operation :=
  flat_map
    (fun kv =>
       match map_get key_eqb (fst kv) previous with
       | Some old =>
           if String.eqb (snd kv) old then []
           else [put_operation (fst kv) id (snd kv)]
       | None => [put_operation (fst kv) id (snd kv)]
       end) current
  ++ flat_map
       (fun kv =>
          if existsb (key_eqb (fst kv)) (map fst current) then []
          else [del_operation (fst kv) id]) previous.

(** The progress in the words of the specification: the smaller of the
    first queued request's version minus one and [lastIndexedVersion]. *)
Definition progress_by_specification (s : State) : Z :=
  match map_data (queue s) with
  | (_, next) :: _ => Z.min (version next - 1) (lastIndexedVersion s)
  | [] => lastIndexedVersion s
  end.

(** The puts of the second loop, against the [toRemove] it starts from *)
Definition puts_against (id : prim) (toRemove current : list (key * string))
  : list Operation :=
  flat_map
    (fun kv =>
       match map_get key_eqb (fst kv) toRemove with
       | Some old =>
           if String.eqb (snd kv) old then []
           else [put_operation (fst kv) id (snd kv)]
       | None => [put_operation (fst kv) id (snd kv)]
       end) current.

(** The versions of the requests still in the queue *)
Definition queued_versions (s : State) : list Z :=
  map (fun kv => version (snd kv)) (map_data (queue s)).

End Indexing.

(** ** Vocabulary for the rows of an index *)

(** The value of the last entry under [k] *)
Fixpoint last_value (k : key) (l : list (key * string)) : option string :=
  match l with
  | [] => None
  | (k', v) :: l' =>
      match last_value k l' with
      | Some x => Some x
      | None => if key_eqb k k' then Some v else None
      end
  end.

Section Rows.
Variable toBufferKey : prim -> bytes.

(** The table holds, for the source [id], the rows of [previous]. *)
Definition rows_agree (id : prim) (previous : list (key * string))
  (t : list (bytes * Persisted.opvalue)) : Prop :=
  forall k old,
    In (k, old) previous ->
    map_get Persisted.bytes_eqb (fullKey toBufferKey k id) t
    = Some (Persisted.OVString old).

(** The row of the source [id] under the index key [k] that the current
    entries ask for: the value of the last entry under [k]; no row when
    there is no entry but there was one before; the row as it is for a key
    that is neither among the previous nor among the current ones. *)
Definition expected_row (id : prim) (previous current : list (key * string))
  (t : list (bytes * Persisted.opvalue)) (k : key)
  : option Persisted.opvalue :=
  match last_value k current with
  | Some v => Some (Persisted.OVString v)
  | None =>
      if existsb (key_eqb k) (map fst previous) then None
      else map_get Persisted.bytes_eqb (fullKey toBufferKey k id) t
  end.

(** No two of the keys [K] have the same composite key for [id]. *)
Definition distinct_rows (id : prim) (K : list key) : Prop :=
  forall k1 k2,
    In k1 K -> In k2 K ->
    fullKey toBufferKey k1 id = fullKey toBufferKey k2 id -> k1 = k2.

End Rows.

(** ** Vocabulary for the queue and the progress *)

(** The queue holds one request per id. *)
Definition queue_ok (s : State) : Prop :=
  NoDup (map fst (map_data (queue s))).

Section Indexed.
Variable toBufferKey : prim -> bytes.

(** [srcs] have been recorded for the index key [k]. *)
Definition announced (k : key) (srcs : option (list source))
  (m : list (key * list source)) : Prop :=
  exists e,
    map_get key_eqb k m = Some e
    /\ forall l x, srcs = Some l -> In x l -> In x e.

(** The entries recorded so far are still there, with at least the
    sources they had. *)
Definition grown (m m' : list (key * list source)) : Prop :=
  forall k e,
    map_get key_eqb k m = Some e ->
    exists e', map_get key_eqb k m' = Some e' /\ incl e e'.

(** [s'] differs from [s] by operations on rows of [id], all announced,
    by entries recorded, and by what has been written to the console. *)
Definition indexed_from (id : prim) (srcs : option (list source))
  (s s' : State) : Prop :=
  lastIndexedVersion s' = lastIndexedVersion s
  /\ committing s' = committing s /\ sending s' = sending s
  /\ queuedIndexedProgress s' = queuedIndexedProgress s
  /\ table s' = table s /\ queue s' = queue s
  /\ grown (updatedIndexEntries s) (updatedIndexEntries s')
  /\ exists ops,
       operations s' = operations s ++ ops
       /\ Forall (fun o =>
                    exists k,
                      Persisted.op_key o = fullKey toBufferKey k id
                      /\ announced k srcs (updatedIndexEntries s')) ops.

End Indexed.

(** An operation on the progress key records a progress of at most [n]. *)
Definition bounded (n : Z) (o : Operation) : Prop :=
  Persisted.op_key o = LAST_INDEXED_VERSION_KEY ->
  exists p, o = progress_operation p /\ p <= n.

(** The row under the progress key, if there is one, is a number of at
    most [n]. *)
Definition row_bounded (n : Z) (t : list (bytes * Persisted.opvalue))
  : Prop :=
  forall v,
    map_get Persisted.bytes_eqb LAST_INDEXED_VERSION_KEY t = Some v ->
    exists p, v = Persisted.OVNumber p /\ p <= n.

(** Every progress on its way to the table, and [lastIndexedVersion]
    itself, is at most [n], which is not negative. *)
Definition progress_below (n : Z) (s : State) : Prop :=
  0 <= n
  /\ lastIndexedVersion s <= n
  /\ Forall (bounded n) (operations s)
  /\ Forall (fun c => Forall (bounded n) (fst c) /\ snd c <= n) (committing s)
  /\ Forall (fun p => p <= n) (sending s)
  /\ (forall p, queuedIndexedProgress s = Some p -> p <= n)
  /\ row_bounded n (table s).

(** Every progress on its way to the table is at most
    [lastIndexedVersion]. *)
Definition progress_ok (s : State) : Prop :=
  progress_below (lastIndexedVersion s) s.

(** The row under the progress key, if the table has one, is a number that
    is not negative. *)
Definition resumable (t : list (bytes * Persisted.opvalue)) : Prop :=
  forall v,
    map_get Persisted.bytes_eqb LAST_INDEXED_VERSION_KEY t = Some v ->
    exists p, v = Persisted.OVNumber p /\ 0 <= p.

(** No step of the trace is a [resumeIndex]. *)
Definition no_resume (tr : list Step) : bool :=
  forallb (fun e => match e with Resume _ => false | _ => true end) tr.

(** An index right after the start of the process: nothing in memory, the
    table as the process before left it. *)
Definition started (t : list (bytes * Persisted.opvalue)) : State :=
  with_table t new_State.

(** ** One pass over the queue *)

(** [lastIndexedVersion] once requests with the versions [vs] have been
    indexed in turn, starting from [n] *)
Definition advanced (vs : list Z) (n : Z) : Z :=
  fold_left (fun acc v => if v =? 0 then acc else Z.max v acc) vs n.

Section Pass.
Variable JSON_stringify : value -> string.
Variable toBufferKey : prim -> bytes.
Variable indexBy : value -> option indexed.
Variable Source_for : prim -> option entity_value.

(** The versions of the requests of [l] that are indexed to the end *)
Definition completed_versions (l : list (prim * IndexRequest)) : list Z :=
  map (fun kv => version (snd kv))
    (filter
       (fun kv =>
          completes JSON_stringify indexBy Source_for (fst kv) (snd kv))
       l).

(** What indexing the requests of [l] adds to the console *)
Definition pass_warnings (l : list (prim * IndexRequest)) : list LogEntry :=
  flat_map
    (fun kv =>
       request_warnings JSON_stringify indexBy Source_for (fst kv) (snd kv))
    l.

(** The requests of [l] taken off the queue and indexed in turn, with no
    commit in between *)
Definition indexed_all (l : list (prim * IndexRequest)) (s : State) : State :=
  fold_left
    (fun s kv =>
       indexEntry JSON_stringify toBufferKey indexBy Source_for (fst kv)
         (snd kv)
         (with_queue (mo_delete same_value_zero (fst kv) (queue s)) s))
    l s.

(** The batch [commitOperations] hands over for the operations that
    wait *)
Definition batch_of (s : State) : list Operation :=
  operations s
  ++ match progress_ready s with
     | Some p => [progress_operation p]
     | None => []
     end.

End Pass.

(** ** Reading an index *)

(** [Buffer.from([31])] *)
Definition SEPARATOR_NEXT_BYTE : bytes := [Byte.x1f].

(** What [transform] returns for one row *)
Inductive found : Type :=
| Full (id : prim) (v : value)   (* { id: sourceId, value: JSON.parse(value) } *)
| Parsed (v : value)             (* JSON.parse(value) *)
| SourceId (id : prim).          (* sourceId *)

Section Reading.
Variable toBufferKey : prim -> bytes.
(** [JSON.parse]; [None] when it throws a [SyntaxError], as it does on
    the empty string *)
Variable JSON_parse : string -> option value.
(** [Number::toString], which [JSON.parse] applies to a number *)
Variable NumberToString : number -> string.
(** The second part of [fromBufferKey(key, true)] *)
Variable sourceId_of : bytes -> prim.

(** The range of [transform]: everything that starts with the key of the
    instance and the separator. *)
Definition transform_options (id : prim) : Persisted.IterableOptions :=
  Persisted.mkIterableOptions
    (Some (toBufferKey id ++ SEPARATOR_BYTE))
    (Some (toBufferKey id ++ SEPARATOR_NEXT_BYTE)) None None.

(** The callback of [map] in [transform]; [None] when [JSON.parse]
    throws. *)
Definition found_of (returnFullKeyValue : bool)
  (r : bytes * Persisted.opvalue) : option found :=
  let sourceId := sourceId_of (fst r) in
  let text :=
    match snd r with
    | Persisted.OVString s => s
    | Persisted.OVNumber n => NumberToString (num n)
    end in
  let has_length :=
    match snd r with
    | Persisted.OVString s => string_truthy s
    | Persisted.OVNumber _ => false
    end in
  if returnFullKeyValue then option_map (Full sourceId) (JSON_parse text)
  else if has_length then option_map Parsed (JSON_parse text)
  else Some (SourceId sourceId).

(** The results of the callback for all rows; [None] as soon as it throws
    on one of them. *)
Fixpoint map_found (returnFullKeyValue : bool)
  (rows : list (bytes * Persisted.opvalue)) : option (list found) :=
  match rows with
  | [] => Some []
  | r :: rows' =>
      match found_of returnFullKeyValue r,
            map_found returnFullKeyValue rows' with
      | Some f, Some l => Some (f :: l)
      | _, _ => None
      end
  end.

(** [transform()] of the index instance [id], as an array; [None] when
    the scan is rejected because the callback throws on a row. *)
Definition transform (returnFullKeyValue : bool) (id : prim)
  (t : list (bytes * Persisted.opvalue)) : option (list found) :=
  map_found returnFullKeyValue
    (Persisted.iterable (transform_options id) t).

End Reading.

End Index.

(* ================================================================== *)
(** * Sample codecs *)
(* ================================================================== *)

(** Small stand-ins for the codecs of the libraries, used to run the
    definitions on concrete inputs. *)
Module Samples.
Import Js.

Definition digit (c : ascii) : option Z :=
  let n := Z.of_nat (nat_of_ascii c) in
  if (48 <=? n) && (n <=? 57) then Some (n - 48) else None.

Fixpoint digits (s : string) (acc : Z) : option Z :=
  match s with
  | EmptyString => Some acc
  | String.String c s' =>
      match digit c with
      | Some d => digits s' (10 * acc + d)
      | None => None
      end
  end.

(** StringToNumber on unsigned decimal literals; the empty string is [0],
    anything else [NaN]. *)
Definition StringToNumber (s : string) : number :=
  match digits s 0 with
  | Some z => num z
  | None => NaN
  end.

Definition byte_of_Z (z : Z) : Byte.byte :=
  match Byte.of_nat (Z.to_nat (z mod 256)) with
  | Some b => b
  | None => Byte.x00
  end.

(** A key codec whose keys start with a byte of at least [0x02]. *)
Definition toBufferKey (p : prim) : Persisted.bytes :=
  match p with
  | Undefined => [Byte.x02]
  | Null => [Byte.x03]
  | Boolean b => [Byte.x04; if b then Byte.x01 else Byte.x00]
  | Number (Fin q) => [Byte.x05; byte_of_Z (Qnum (this q))]
  | Number _ => [Byte.x06]
  | String s => Byte.x07 :: map byte_of_ascii (list_ascii_of_string s)
  end.

(** A JSON reader that keeps the text as a string value. *)
Definition JSON_parse (s : string) : value := VStr s.

(** A JSON reader for the rows of an index: it throws on the empty
    string, as [JSON.parse] does, and keeps any other text as a string
    value. *)
Definition JSON_parse_row (s : string) : option value :=
  if string_truthy s then Some (VStr s) else None.

(** The decimal writing of a whole number *)
Definition NumberToString (n : number) : string :=
  match n with
  | Fin q => NilZero.string_of_int (Z.to_int (Qnum (this q)))
  | PosInf => "Infinity"
  | NegInf => "-Infinity"
  | NaN => "NaN"
  end.

(** A JSON writer for the same stand-in: a string is written as it is. *)
Definition JSON_stringify (v : value) : string :=
  match v with
  | VStr s => s
  | VNull => "null"
  | VBool true => "true"
  | VBool false => "false"
  | VNum n => NumberToString n
  | VArr _ => "[]"
  | VObj _ => "{}"
  end.

(** An [indexBy] that indexes an object under each of its field names,
    with the field as attached value, a string under itself and a number
    under nothing; on an array it returns [null], as the [indexBy] of the
    index class does, and on [null] and the booleans it throws. *)
Definition indexBy (v : value) : option Index.indexed :=
  match v with
  | VObj fields =>
      Some (Index.I_array
              (map (fun f => Index.Entry_object (Index.KString (fst f))
                               (Some (snd f))) fields))
  | VStr s => Some (Index.I_key (Index.KString s))
  | VNum _ => Some Index.I_undefined
  | VArr _ => Some Index.I_null
  | VNull | VBool _ => None
  end.

(** A source that has an entity for every id: its value when it is
    listed, none otherwise *)
Definition Source_for (l : list (prim * value)) (id : prim)
  : option Index.entity_value :=
  match map_get same_value_zero id l with
  | Some v => Some (Index.Value v)
  | None => Some Index.No_value
  end.

(** A concrete class that has not handed out any instance. *)
Definition empty_class : Persisted.Class :=
  Persisted.mkClass false 0 false None 10 [] [] (Persisted.new_Writer 0 []).

End Samples.

(* ================================================================== *)
(** * Scenarios *)
(* ================================================================== *)

(** Concrete classes, traces and requests the properties are tried on. *)
Module Scenarios.
Import Js Persisted.

Definition id1 : prim := Number (num 1).
Definition id7 : prim := Number (num 7).

Definition s_for := Persisted.for_ Samples.StringToNumber.
Definition s_remove :=
  Persisted.remove Samples.StringToNumber Samples.toBufferKey.
Definition s_run := Persisted.run Samples.toBufferKey.
Definition s_valueOf :=
  Persisted.valueOf Samples.StringToNumber Samples.JSON_parse
    Samples.toBufferKey (num 0).

(** The class after [for(7)] on a class without instances *)
Definition class_with_7 : Class :=
  mkClass false 0 false None 10 [(id7, 0%nat)] [new_Instance id7]
    (new_Writer 0 []).

(** The class after [remove(7)], and after the [for(7)] that follows *)
Definition class_without_7 : Class :=
  match s_remove id7 1001 class_with_7 with
  | Return C => C
  | Throw _ => class_with_7
  end.


(** The base class [Persisted] itself *)
Definition abstract_class : Class :=
  mkClass true 0 false None 10 [] [] (new_Writer 0 []).

(** A row of version 1000 is written and committed, then the entity is
    removed, the remove counting with the next global version 1001. *)
Definition set_then_remove : list Event :=
  [DbPut id1 (Some "1000,{}"%string) (Some 1000) 1001;
   TimerFires 0; BatchWritten 0;
   DbPut id1 None None 1001;
   TimerFires 1; BatchWritten 1].


(** A class whose registration has gone through, a put, and the failure
    of its batch. *)
Definition registered : Writer := register_settled true (new_Writer 0 []).

Definition failing_write : list Event :=
  [DbPut id1 (Some "1000,{}"%string) (Some 1000) 1001;
   TimerFires 0; BatchFailed 0].

Definition table_with_row : Writer :=
  new_Writer 7 [(Samples.toBufferKey id1, OVString "7,hello")].

(** A new entity is looked up, read (there is no row), given the value
    ["hello"], and its batch is written. *)
Definition class_after_set : option Class :=
  match s_for id1 Samples.empty_class with
  | Return (r, C1) =>
      match nth_error (instances C1) r with
      | Some e =>
          match s_valueOf 7 e (writer C1) with
          | Some (_, e1) =>
              match
                set_value Samples.JSON_stringify Samples.NumberToString
                  Samples.toBufferKey (Some (VStr "hello")) 8 r
                  (on_instance (fun _ => e1) r C1)
              with
              | Some C2 =>
                  Some (with_writer
                          (s_run [TimerFires 0; BatchWritten 0] (writer C2)) C2)
              | None => None
              end
          | None => None
          end
      | None => None
      end
  | Throw _ => None
  end.

Definition JSON_one : value := VStr "1".

(** The previous value indexes under [a] with the value 1, the current one
    names [a] twice with the same value. *)
Definition once : value := VObj [("a"%string, JSON_one)].
Definition twice : value :=
  VObj [("a"%string, JSON_one); ("a"%string, JSON_one)].

Definition two : value := VStr "2".

(** Before: [a] with 1 and [b] with 1.  Now: [a] with 2 and nothing
    under [b]. *)
Definition before_ab : value :=
  VObj [("a"%string, JSON_one); ("b"%string, JSON_one)].
Definition now_a : value := VObj [("a"%string, two)].

Definition request_of (previous : value) : Index.IndexRequest :=
  Index.mkIndexRequest (Some previous) false None 3.

Definition s_indexEntry (current : value) :=
  Index.indexEntry Samples.JSON_stringify Samples.toBufferKey Samples.indexBy
    (Samples.Source_for [(id1, current)]) id1.

(** The entries the sample [indexBy] makes of a value *)
Definition entries_by (v : value) : list (Index.key * string) :=
  match Samples.indexBy v with
  | Some r =>
      match Index.pairs_of Samples.JSON_stringify (Index.entries_of r) with
      | Some l => l
      | None => []
      end
  | None => []
  end.

Definition diff_of (previous current : value) : list Index.Operation :=
  Index.diff_operations Samples.toBufferKey id1
    (fold_left (fun m kv => map_set Index.key_eqb (fst kv) (snd kv) m)
       (entries_by previous) [])
    (entries_by current).

(** ** The index *)

Definition id2 : prim := Number (num 2).

(** The source holds ["x"] under id 1 and ["y"] under id 2. *)
Definition source_values : list (prim * value) :=
  [(id1, VStr "x"); (id2, VStr "y")].

Definition update (v : Z) : Index.Update :=
  Index.mkUpdate v false None (Some 0%nat).

(** An update of id 1 with version 10 is queued and indexed; while the
    pass waits for the entry, an update of id 2 with version 5 is queued;
    the pass then commits, the batch resolves, the updates are written and
    the pass stores the progress. *)
Definition overtaking_run : list Index.Step :=
  [Index.Enqueue id1 None (update 10); Index.IndexNext;
   Index.Enqueue id2 None (update 5);
   Index.Commit; Index.BatchResolved; Index.UpdatesWritten;
   Index.StoreProgress].

(** A stand-in for the second part of [fromBufferKey(key, true)] on
    composite keys that end in a number key of the sample codec. *)
Definition last_number_of (key : bytes) : prim :=
  match rev key with
  | b :: _ => Number (num (Z.of_N (Strings.Byte.to_N b)))
  | [] => Undefined
  end.

Definition s_index_run : list Index.Step -> Index.State -> Index.State :=
  Index.run Samples.JSON_stringify Samples.toBufferKey Samples.indexBy
    (Samples.Source_for source_values) last_number_of 0%nat "{}"%string.

End Scenarios.

(* ================================================================== *)
(** * More scenarios *)
(* ================================================================== *)

Module MoreScenarios.
Import Js Persisted Scenarios.

Abbreviation tbk := Samples.toBufferKey.

(** A row for id 1 is put and the timer of its batch fires: the batch is
    with the engine. *)
Definition put_and_flush : list Event :=
  [DbPut id1 (Some "1000,{}"%string) (Some 1000) 1001; TimerFires 0].

(** What the engine received *)
Definition flushed_operations : list Operation :=
  [mkOperation op_put (tbk id1) (Some (OVString "1000,{}")); watermark 1000].

(** Two entities are put, the batch is flushed, id 1 is put again into the
    next batch, and the first batch is written. *)
Definition overwrite_in_next_batch : list Event :=
  [DbPut id1 (Some "1,a"%string) (Some 1) 2;
   DbPut id7 (Some "1,b"%string) (Some 1) 2;
   TimerFires 0;
   DbPut id1 (Some "2,c"%string) (Some 2) 3;
   BatchWritten 0].

(** The canonical instance of id 1, loaded when there was no row: version
    7, no value yet. *)
Definition loaded_1 : Instance :=
  mkInstance id1 (Some no_local_data) None None (-1) (Some (num 7)).

Definition class_with_loaded_1 : Class :=
  mkClass false 0 false None 10 [(id1, 0%nat)] [loaded_1] (new_Writer 0 []).

Definition commit_0 : list Event := [TimerFires 0; BatchWritten 0].

(** The instance [valueOf] leaves behind when it loads the row
    ["7,hello"] *)
Definition hello_1 : Instance :=
  mkInstance id1 (Some up_to_date) (Some "hello"%string)
    (Some (VStr "hello")) (-1) (Some (num 7)).

(** ** The index *)

Abbreviation key_a := (Index.KString "a").
Abbreviation key_b := (Index.KString "b").

(** Now: [a] with 2, and [a] again with 1. *)
Definition now_aa : value :=
  VObj [("a"%string, two); ("a"%string, JSON_one)].

(** The rows of [before_ab] for the source 1 *)
Definition rows_before : list (bytes * opvalue) :=
  [(Index.fullKey tbk key_a id1, OVString "1");
   (Index.fullKey tbk key_b id1, OVString "1")].

Definition s_operations (current : value) (req : Index.IndexRequest)
  : list Index.Operation :=
  Index.operations (s_indexEntry current req Index.new_State).

(** A stand-in for the second part of [fromBufferKey(key, true)] *)
Definition sample_sourceId_of (key : bytes) : prim := Undefined.

Definition s_transform :=
  Index.transform tbk Samples.JSON_parse_row Samples.NumberToString
    sample_sourceId_of.

(** An update of id 1 is queued, then one of id 2. *)
Definition two_queued : list Index.Step :=
  [Index.Enqueue id1 None (update 10); Index.Enqueue id2 None (update 11)].

(** An update of id 1 with version 10 is queued and indexed, the batch
    is committed and written and its updates are sent; then the index is
    resumed, with nothing to index again. *)
Definition resume_after_indexing : list Index.Step :=
  [Index.Enqueue id1 None (update 10); Index.IndexNext; Index.Commit;
   Index.BatchResolved; Index.UpdatesWritten; Index.Resume []].

(** A source in which [indexBy] throws on what id 7 holds *)
Definition poisoned_values : list (prim * value) :=
  [(id1, VStr "x"); (id2, VStr "y"); (id7, VNull)].

(** Updates of the ids 1, 2 and 7 are queued. *)
Definition three_queued : Index.State :=
  Index.run Samples.JSON_stringify tbk Samples.indexBy
    (Samples.Source_for poisoned_values) last_number_of 0%nat "{}"%string
    [Index.Enqueue id1 None (update 10); Index.Enqueue id2 None (update 11);
     Index.Enqueue id7 None (update 12)]
    Index.new_State.

Definition s_processQueue_for :=
  Index.processQueue_for Samples.JSON_stringify tbk Samples.indexBy
    (Samples.Source_for poisoned_values).

(** ** Listing and resuming *)

(** A stand-in for [fromBufferKey] that reads the number keys of the
    sample codec. *)
Definition sample_fromBufferKey (key : bytes) : prim :=
  match key with
  | [Byte.x05; b] => Number (num (Z.of_N (Strings.Byte.to_N b)))
  | _ => Undefined
  end.

(** An index table with the progress 5 and the rows of [before_ab] *)
Definition index_at_5 : Index.State :=
  Index.with_table
    ((Index.LAST_INDEXED_VERSION_KEY, OVNumber 5) :: rows_before)
    Index.new_State.

Definition s_resumeIndex :=
  Index.resumeIndex last_number_of 0%nat "{}"%string.

End MoreScenarios.
(* ================================================================== *)
(** * Facts about the JavaScript fragment *)
(* ================================================================== *)

Module JsFacts.
Import Js.

Lemma number_eqb_eq (a b : number) : number_eqb a b = true <-> a = b.
Proof.
  destruct a as [| | |p], b as [| | |q]; simpl;
    try (split; [discriminate | congruence]); try tauto.
  rewrite Qeq_bool_iff. split.
  - intros H. f_equal. now apply Qc_is_canon.
  - intros [= ->]. reflexivity.
Qed.

Lemma same_value_zero_eq (a b : prim) : same_value_zero a b = true <-> a = b.
Proof.
  destruct a, b; simpl; try (split; [discriminate | congruence]); try tauto.
  - rewrite Bool.eqb_true_iff. split; congruence.
  - rewrite number_eqb_eq. split; congruence.
  - rewrite String.eqb_eq. split; congruence.
Qed.

Lemma same_value_zero_refl (a : prim) : same_value_zero a a = true.
Proof. now apply same_value_zero_eq. Qed.

Lemma same_value_zero_neq (a b : prim) :
  same_value_zero a b = false <-> a <> b.
Proof.
  rewrite <- same_value_zero_eq. destruct (same_value_zero a b); split;
    congruence.
Qed.

Section MapFacts.
Context {K V : Type}.
Variable eqb : K -> K -> bool.
Hypothesis eqb_eq : forall a b, eqb a b = true <-> a = b.

Lemma eqb_refl' (a : K) : eqb a a = true.
  Proof. now apply eqb_eq. Qed.

Lemma map_get_set_same (k : K) (v : V) (m : list (K * V)) :
    map_get eqb k (map_set eqb k v m) = Some v.
  Proof.
    induction m as [|[k' v'] m IH]; simpl.
    - now rewrite eqb_refl'.
    - destruct (eqb k k') eqn:E; simpl; rewrite E; auto.
  Qed.

Lemma map_get_set_other (k k0 : K) (v : V) (m : list (K * V)) :
    k0 <> k -> map_get eqb k0 (map_set eqb k v m) = map_get eqb k0 m.
  Proof.
    intros Hne. induction m as [|[k' v'] m IH]; simpl.
    - destruct (eqb k0 k) eqn:E; auto. apply eqb_eq in E. contradiction.
    - destruct (eqb k k') eqn:E; simpl.
      + apply eqb_eq in E. subst k'.
        destruct (eqb k0 k) eqn:E0; auto.
        apply eqb_eq in E0. contradiction.
      + now rewrite IH.
  Qed.

Lemma map_get_In (k : K) (v : V) (m : list (K * V)) :
    map_get eqb k m = Some v -> In (k, v) m.
  Proof.
    induction m as [|[k' v'] m IH]; simpl; [discriminate|].
    destruct (eqb k k') eqn:E.
    - apply eqb_eq in E. intros [= ->]. subst. now left.
    - intros H. right. auto.
  Qed.

Lemma map_get_None_notin (k : K) (m : list (K * V)) :
    map_get eqb k m = None -> ~ In k (map fst m).
  Proof.
    induction m as [|[k' v'] m IH]; simpl; [tauto|].
    destruct (eqb k k') eqn:E; [discriminate|].
    intros H [Hk | Hk]; [|now apply IH].
    subst k'. rewrite eqb_refl' in E. discriminate.
  Qed.

Lemma map_set_fresh (k : K) (v : V) (m : list (K * V)) :
    map_get eqb k m = None -> map_set eqb k v m = m ++ [(k, v)].
  Proof.
    induction m as [|[k' v'] m IH]; simpl; [reflexivity|].
    destruct (eqb k k') eqn:E; [discriminate|].
    intros H. now rewrite IH.
  Qed.
Lemma map_set_In (k : K) (v : V) (m : list (K * V)) (x : K * V) :
  In x (map_set eqb k v m) -> x = (k, v) \/ In x m.
Proof.
  induction m as [|[k' v'] m IH]; simpl.
  - intros [<- | []]. now left.
  - destruct (eqb k k') eqn:E; simpl.
    + apply eqb_eq in E. subst k'. intros [<- | H]; auto.
    + intros [<- | H]; auto. destruct (IH H); auto.
Qed.

Lemma map_set_keys (k : K) (v : V) (m : list (K * V)) :
  map fst (map_set eqb k v m) = map fst m
  \/ (~ In k (map fst m) /\ map fst (map_set eqb k v m) = map fst m ++ [k]).
Proof.
  induction m as [|[k' v'] m IH]; simpl.
  - right. auto.
  - destruct (eqb k k') eqn:E; simpl.
    + now left.
    + destruct IH as [-> | [Hn ->]]; [now left|right].
      split; auto. intros [-> | H]; auto.
      rewrite eqb_refl' in E. discriminate.
Qed.

Lemma map_set_NoDup (k : K) (v : V) (m : list (K * V)) :
  NoDup (map fst m) -> NoDup (map fst (map_set eqb k v m)).
Proof.
  intros H. destruct (map_set_keys k v m) as [-> | [Hn ->]]; auto.
  apply NoDup_app; auto.
  - constructor; [tauto|constructor].
  - intros a Ha [<- | []]. contradiction.
Qed.

Lemma map_delete_In (k : K) (m : list (K * V)) (x : K * V) :
  In x (map_delete eqb k m) -> In x m.
Proof.
  induction m as [|[k' v'] m IH]; simpl; auto.
  destruct (eqb k k'); simpl; intuition.
Qed.

Lemma map_delete_NoDup (k : K) (m : list (K * V)) :
  NoDup (map fst m) -> NoDup (map fst (map_delete eqb k m)).
Proof.
  induction m as [|[k' v'] m IH]; simpl; auto.
  intros H. inversion H as [|? ? Hn Hd]; subst.
  destruct (eqb k k'); simpl; auto.
  constructor; auto.
  intros Hin. apply Hn. apply in_map_iff in Hin.
  destruct Hin as [[a b] [Ha Hb]]. simpl in Ha. subst a.
  apply in_map_iff. exists (k', b). split; auto.
  now apply map_delete_In in Hb.
Qed.


Lemma map_delete_absent (k : K) (m : list (K * V)) :
  map_get eqb k m = None -> map_delete eqb k m = m.
Proof.
  induction m as [|[k' v'] m IH]; simpl; auto.
  destruct (eqb k k'); [discriminate|]. intros H. now rewrite IH.
Qed.

Lemma map_get_delete_other (k k0 : K) (m : list (K * V)) :
  k0 <> k -> map_get eqb k0 (map_delete eqb k m) = map_get eqb k0 m.
Proof.
  intros Hne. induction m as [|[k' v'] m IH]; simpl; auto.
  destruct (eqb k k') eqn:E; simpl.
  - apply eqb_eq in E. subst k'.
    destruct (eqb k0 k) eqn:E0; auto. apply eqb_eq in E0. contradiction.
  - now rewrite IH.
Qed.

Lemma filter_keys_id (k : K) (m : list (K * V)) :
  ~ In k (map fst m) -> filter (fun kv => negb (eqb k (fst kv))) m = m.
Proof.
  induction m as [|[k' v'] m IH]; simpl; auto.
  intros H. destruct (eqb k k') eqn:E; simpl.
  - apply eqb_eq in E. subst. tauto.
  - rewrite IH; auto.
Qed.

Lemma map_delete_filter (k : K) (m : list (K * V)) :
  NoDup (map fst m) ->
  map_delete eqb k m = filter (fun kv => negb (eqb k (fst kv))) m.
Proof.
  induction m as [|[k' v'] m IH]; simpl; auto.
  intros H. inversion H as [|? ? Hn Hd]; subst.
  destruct (eqb k k') eqn:E; simpl.
  - apply eqb_eq in E. subst k'. symmetry. now apply filter_keys_id.
  - now rewrite IH.
Qed.

End MapFacts.

End JsFacts.

(* ================================================================== *)
(** * Properties of Persisted.ts *)
(* ================================================================== *)

Module PersistedSpec.
Import Js JsFacts Persisted.

(** ** The identity map *)

Section IdentityFacts.
Variable StringToNumber : string -> number.
Variable toBufferKey : prim -> bytes.

Abbreviation for_ := (for_ StringToNumber).
Abbreviation remove := (remove StringToNumber toBufferKey).
Abbreviation for_rejects := (for_rejects StringToNumber).
Abbreviation remove_rejects := (remove_rejects StringToNumber).
Abbreviation reachable := (reachable StringToNumber toBufferKey).

Lemma for_rejects_iff (i : prim) :
  for_rejects i = true <->
  (exists s, i = String s /\ gt0 (StringToNumber s) = true)
  \/ i = Null \/ i = Undefined.
Proof.
  unfold Persisted.for_rejects. rewrite orb_true_iff, andb_true_iff. split.
  - intros [[Hgt Hs] | Hn].
    + destruct i; try discriminate. left. exists s. auto.
    + destruct i; try discriminate; auto.
  - intros [[s [-> Hs]] | [-> | ->]]; simpl; auto.
Qed.

Lemma for_bad_id_iff (i : prim) (C : Class) :
  for_ i C = Throw Error_bad_id <-> for_rejects i = true.
Proof.
  unfold Persisted.for_. destruct (for_rejects i) eqn:R.
  - split; auto.
  - split; [|discriminate].
    destruct (identity_get i (instancesById C)); [discriminate|].
    unfold construct. destruct (loose_eq_null i); [discriminate|].
    destruct (abstract C); discriminate.
Qed.

(** What a successful [for] does. *)
Lemma for_cases (i : prim) (C C1 : Class) (r : ref) :
  for_ i C = Return (r, C1) ->
  (identity_get i (instancesById C) = Some r /\ C1 = C)
  \/ (identity_get i (instancesById C) = None
      /\ r = length (instances C)
      /\ instances C1 = instances C ++ [new_Instance i]
      /\ instancesById C1 = identity_set i r (instancesById C)).
Proof.
  unfold Persisted.for_. destruct (for_rejects i); [discriminate|].
  destruct (identity_get i (instancesById C)) as [r0|] eqn:G.
  - intros [= <- <-]. left. auto.
  - unfold construct. destruct (loose_eq_null i); [discriminate|].
    destruct (abstract C); [discriminate|].
    intros [= <- <-]. right.
    destruct (negb _ && negb _); simpl; auto.
Qed.

Lemma for_registers (i : prim) (C C1 : Class) (r : ref) :
  for_ i C = Return (r, C1) ->
  identity_get i (instancesById C1) = Some r.
Proof.
  intros H. destruct (for_cases _ _ _ _ H) as [[G ->] | (G & _ & _ & ->)];
    auto.
  apply map_get_set_same. apply same_value_zero_eq.
Qed.

Lemma for_accepts (i : prim) (C : Class) :
  abstract C = false -> for_rejects i = false ->
  exists r C1, for_ i C = Return (r, C1).
Proof.
  intros Ha R. unfold Persisted.for_. rewrite R.
  destruct (identity_get i (instancesById C)) as [r|].
  - exists r, C. reflexivity.
  - unfold construct.
    unfold Persisted.for_rejects in R. apply orb_false_iff in R.
    destruct R as [_ R]. rewrite R, Ha. eexists. eexists. reflexivity.
Qed.

Lemma canonical_for (i : prim) (C C1 : Class) (r : ref) :
  canonical C -> for_ i C = Return (r, C1) -> canonical C1.
Proof.
  intros [Hnd Hc] H.
  destruct (for_cases _ _ _ _ H) as [[G ->] | (G & Hr & Hi & Hm)].
  - split; auto.
  - split.
    + rewrite Hm. unfold identity_set.
      now apply (map_set_NoDup same_value_zero same_value_zero_eq).
    + intros j r' Hin. rewrite Hm in Hin. rewrite Hi.
      apply (map_set_In same_value_zero same_value_zero_eq) in Hin.
      destruct Hin as [[= -> ->] | Hin].
      * exists (new_Instance i). split; auto.
        rewrite Hr, nth_error_app2, Nat.sub_diag; auto.
      * destruct (Hc _ _ Hin) as [e [He Hid]]. exists e. split; auto.
        rewrite nth_error_app1; auto. apply nth_error_Some. congruence.
Qed.

Lemma canonical_remove (i : prim) (nv : Z) (C C1 : Class) :
  canonical C -> remove i nv C = Return C1 -> canonical C1.
Proof.
  intros HC. unfold Persisted.remove.
  destruct (remove_rejects i); [discriminate|].
  destruct (for_ i C) as [[r C0]|] eqn:F; [|discriminate].
  intros [= <-]. destruct (canonical_for _ _ _ _ HC F) as [Hnd Hc].
  split; simpl.
  - now apply map_delete_NoDup.
  - intros j r' Hin. apply map_delete_In in Hin. auto.
Qed.

Lemma reachable_canonical (C : Class) : reachable C -> canonical C.
Proof.
  induction 1 as [C H | i r C C1 _ IH H | i nv C C1 _ IH H].
  - split; rewrite H; simpl; [constructor | tauto].
  - eapply canonical_for; eauto.
  - eapply canonical_remove; eauto.
Qed.



Lemma for_again (i : prim) (r : ref) (C : Class) :
  for_rejects i = false ->
  identity_get i (instancesById C) = Some r ->
  for_ i C = Return (r, C).
Proof. intros R G. unfold Persisted.for_. now rewrite R, G. Qed.




(** The object [for] returns carries the id it was asked for. *)
Lemma for_returns_the_id (i : prim) (C C1 : Class) (r : ref) :
  canonical C -> for_ i C = Return (r, C1) ->
  exists e, nth_error (instances C1) r = Some e /\ id e = i.
Proof.
  intros HC H. destruct (canonical_for _ _ _ _ HC H) as [_ Hc].
  apply Hc. apply (map_get_In same_value_zero same_value_zero_eq).
  exact (for_registers _ _ _ _ H).
Qed.


(** C6, as the code has it: [for(id)] throws the bad-id error exactly for
    a string that converts to a positive number and for [null] and
    [undefined]; any other id yields the instance the identity map holds
    for it afterwards, an object that carries the id and that a further
    [for(id)] returns again, unless the class is the abstract [Persisted]
    base, whose constructor refuses: there [for] throws the [TypeError] of
    the constructor for an id that is not mapped. *)
Theorem for_bad_id_exactly (i : prim) (C : Class) :
  (for_ i C = Throw Error_bad_id <->
     (exists s, i = String s /\ gt0 (StringToNumber s) = true)
     \/ i = Null \/ i = Undefined)
  /\ (reachable C ->
      for_ i C <> Throw Error_bad_id ->
      (abstract C = true
       /\ identity_get i (instancesById C) = None
       /\ for_ i C = Throw TypeError_abstract)
      \/ exists r C1 e,
           for_ i C = Return (r, C1)
           /\ identity_get i (instancesById C1) = Some r
           /\ nth_error (instances C1) r = Some e
           /\ id e = i
           /\ for_ i C1 = Return (r, C1)).
Proof.
  split.
  - rewrite for_bad_id_iff. apply for_rejects_iff.
  - intros HR Hn.
    assert (for_rejects i = false) as R.
    { destruct (for_rejects i) eqn:R; auto.
      exfalso. apply Hn. now apply for_bad_id_iff. }
    assert (Hnull : loose_eq_null i = false).
    { unfold Persisted.for_rejects in R. apply orb_false_iff in R. tauto. }
    assert (Hret : forall r C1,
               for_ i C = Return (r, C1) ->
               exists r C1 e,
                 for_ i C = Return (r, C1)
                 /\ identity_get i (instancesById C1) = Some r
                 /\ nth_error (instances C1) r = Some e
                 /\ id e = i
                 /\ for_ i C1 = Return (r, C1)).
    { intros r C1 H. pose proof (for_registers _ _ _ _ H) as G.
      destruct (for_returns_the_id i C C1 r (reachable_canonical _ HR) H)
        as (e & He & Hid).
      exists r, C1, e. repeat split; auto. now apply for_again. }
    destruct (identity_get i (instancesById C)) as [r|] eqn:G.
    + right. apply (Hret r C). now apply for_again.
    + destruct (abstract C) eqn:Ha.
      * left. repeat split; auto.
        unfold Persisted.for_. rewrite R, G. unfold construct.
        now rewrite Hnull, Ha.
      * right. destruct (for_accepts i C Ha R) as (r & C1 & H).
        now apply (Hret r C1).
Qed.

Lemma remove_bad_id (i : prim) (nv : Z) (C : Class) :
  remove_rejects i = true -> remove i nv C = Throw Error_bad_id.
Proof. intros R. unfold Persisted.remove. now rewrite R. Qed.

(** C10: [remove(id)] throws the bad-id error for every falsy id, the
    number 0 and the empty string among them, [for] does not reject 0, and
    whatever [for] rejects [remove] rejects too. *)
Theorem remove_rejects_more_than_for :
  (forall i nv C, truthy i = false -> remove i nv C = Throw Error_bad_id)
  /\ (forall nv C, remove (Number (num 0)) nv C = Throw Error_bad_id)
  /\ (forall nv C, remove (String EmptyString) nv C = Throw Error_bad_id)
  /\ (forall C, for_ (Number (num 0)) C <> Throw Error_bad_id)
  /\ (forall C, abstract C = false ->
        exists r C1, for_ (Number (num 0)) C = Return (r, C1))
  /\ (forall i nv C,
        for_ i C = Throw Error_bad_id -> remove i nv C = Throw Error_bad_id).
Proof.
  assert (forall i nv C, truthy i = false -> remove i nv C = Throw Error_bad_id)
    as Hfalsy.
  { intros i nv C Hf. apply remove_bad_id. unfold Persisted.remove_rejects.
    rewrite Hf. apply orb_true_r. }
  repeat split; auto.
  - intros C H. apply for_bad_id_iff in H. discriminate.
  - intros C Ha. now apply for_accepts.
  - intros i nv C H. apply for_bad_id_iff in H. apply remove_bad_id.
    unfold Persisted.for_rejects, Persisted.remove_rejects in *.
    apply orb_true_iff in H. destruct H as [-> | H]; auto.
    destruct i; try discriminate; apply orb_true_r.
Qed.

End IdentityFacts.


(** ** The write batcher *)

Section BatcherFacts.
Variable toBufferKey : prim -> bytes.

Abbreviation dbPut := (dbPut toBufferKey).
Abbreviation step := (step toBufferKey).
Abbreviation run := (run toBufferKey).
Abbreviation keyed := (keyed toBufferKey).
Abbreviation formed := (formed toBufferKey).
Abbreviation inv := (inv toBufferKey).
Abbreviation logs := (logs toBufferKey).

Ltac break_match :=
  match goal with
  | |- context [if ?c then _ else _] => destruct c eqn:?
  | |- context [match ?x with _ => _ end] => destruct x eqn:?
  end.

Lemma lastVersion_update_batch b f w :
  lastVersion (update_batch b f w) = lastVersion w.
Proof. reflexivity. Qed.

Lemma lastVersion_commitOperations b w :
  lastVersion (commitOperations b w) = lastVersion w.
Proof. unfold commitOperations. repeat break_match; reflexivity. Qed.

Lemma lastVersion_finished b w : lastVersion (finished b w) = lastVersion w.
Proof. unfold finished. repeat break_match; reflexivity. Qed.

Lemma lastVersion_current_or_open w :
  lastVersion (fst (current_or_open w)) = lastVersion w.
Proof. unfold current_or_open. break_match; reflexivity. Qed.

Lemma lastVersion_record_operation key value b w :
  lastVersion (record_operation toBufferKey key value b w) = lastVersion w.
Proof.
  unfold record_operation.
  repeat break_match; rewrite ?lastVersion_commitOperations; reflexivity.
Qed.

Lemma dbPut_eq key value version nextVersion w :
  fst (dbPut key value version nextVersion w)
  = let w0 :=
      with_lastVersion
        (Z.max (lastVersion w) (effective_version version nextVersion)) w in
    record_operation toBufferKey key value (snd (current_or_open w0))
      (fst (current_or_open w0)).
Proof.
  unfold Persisted.dbPut. cbv zeta.
  destruct (current_or_open _) as [w1 b]. reflexivity.
Qed.

Lemma lastVersion_dbPut key value version nextVersion w :
  lastVersion (fst (dbPut key value version nextVersion w))
  = Z.max (lastVersion w) (effective_version version nextVersion).
Proof.
  rewrite dbPut_eq. cbv zeta.
  now rewrite lastVersion_record_operation, lastVersion_current_or_open.
Qed.

Lemma lastVersion_step e w :
  lastVersion (step e w)
  = match e with
    | DbPut _ _ version nextVersion =>
        Z.max (lastVersion w) (effective_version version nextVersion)
    | _ => lastVersion w
    end.
Proof.
  destruct e; simpl.
  - apply lastVersion_dbPut.
  - break_match; auto using lastVersion_commitOperations.
  - break_match; reflexivity.
  - break_match; rewrite ?lastVersion_finished; reflexivity.
  - break_match; rewrite ?lastVersion_finished; reflexivity.
Qed.

Lemma run_app tr1 tr2 w : run (tr1 ++ tr2) w = run tr2 (run tr1 w).
Proof. apply fold_left_app. Qed.

Lemma lastVersion_run tr w :
  lastVersion (run tr w) = fold_left Z.max (versions tr) (lastVersion w).
Proof.
  revert w. induction tr as [|e tr IH]; intros w; [reflexivity|].
  change (run (e :: tr) w) with (run tr (step e w)).
  rewrite IH, lastVersion_step. unfold versions. simpl flat_map.
  rewrite fold_left_app. destruct e; reflexivity.
Qed.

Lemma fold_max_ge (l : list Z) (a : Z) :
  a <= fold_left Z.max l a /\ forall v, In v l -> v <= fold_left Z.max l a.
Proof.
  revert a. induction l as [|x l IH]; intros a; simpl.
  - split; [lia | tauto].
  - destruct (IH (Z.max a x)) as [H1 H2]. split; [lia|].
    intros v [<- | Hv]; auto. lia.
Qed.

Lemma row_versions_incl tr v : In v (row_versions tr) ->
  v = 0 \/ In v (versions tr).
Proof.
  unfold row_versions, versions. rewrite !in_flat_map.
  intros [e [He Hv]]. destruct e as [k [s|] [x|] nv| | | |]; try contradiction.
  destruct Hv as [<- | []].
  destruct (Z.eq_dec x 0) as [-> | Hx]; [now left|right].
  exists (DbPut k (Some s) (Some x) nv). split; auto. simpl.
  destruct (Z.eqb_spec x 0); [contradiction | now left].
Qed.

(** *** Shape of the batches handed to the engine *)

Lemma nth_list_update_same {A : Type} (f : A -> A) (d : A) (l : list A)
  (n : nat) :
  nth n (list_update n f l) d = if (n <? length l)%nat then f (nth n l d) else d.
Proof.
  revert n. induction l as [|x l IH]; intros [|n]; simpl; auto.
Qed.

Lemma nth_list_update_other {A : Type} (f : A -> A) (d : A) (l : list A)
  (n m : nat) :
  n <> m -> nth m (list_update n f l) d = nth m l d.
Proof.
  revert n m. induction l as [|x l IH]; intros [|n] [|m] H; simpl; auto.
  congruence.
Qed.

Lemma length_list_update {A : Type} (f : A -> A) (l : list A) (n : nat) :
  length (list_update n f l) = length l.
Proof.
  revert n. induction l as [|x l IH]; intros [|n]; simpl; auto.
Qed.

Lemma Forall_list_update {A : Type} (P : A -> Prop) (f : A -> A)
  (l : list A) (n : nat) :
  (forall x, P x -> P (f x)) -> Forall P l -> Forall P (list_update n f l).
Proof.
  intros Hf. revert n. induction l as [|x l IH]; intros [|n] H; simpl; auto;
    inversion H; subst; constructor; auto.
Qed.

Lemma keyed_empty : keyed empty_batch.
Proof. constructor. Qed.

Lemma get_batch_keyed b w : Forall keyed (batches w) -> keyed (get_batch b w).
Proof.
  intros H. unfold get_batch.
  destruct (nth_in_or_default b (batches w) empty_batch) as [Hin | ->].
  - rewrite Forall_forall in H. auto.
  - apply keyed_empty.
Qed.

Lemma keyed_set_operation key value B :
  keyed B -> keyed (set_operation key (operation_of toBufferKey key value) B).
Proof.
  unfold keyed, set_operation. simpl. generalize (entries B) as l.
  induction l as [|[k o] l IH]; simpl; intros H.
  - repeat constructor.
  - inversion H; subst. destruct (same_value_zero key k) eqn:E.
    + apply same_value_zero_eq in E. subst k. constructor; auto.
    + constructor; auto.
Qed.

Lemma inv_update_batch b f w :
  (forall B, keyed B -> keyed (f B)) -> inv w -> inv (update_batch b f w).
Proof.
  intros Hf [H1 H2]. split; simpl; auto. now apply Forall_list_update.
Qed.

Lemma inv_flush b w : inv w -> inv (flush b w).
Proof.
  intros [H1 H2]. split; simpl; auto.
  apply Forall_app. split; auto. constructor; [|constructor]. simpl.
  exists (get_batch b w), (lastVersion w). split; auto.
  now apply get_batch_keyed.
Qed.

Lemma inv_commitOperations b w : inv w -> inv (commitOperations b w).
Proof.
  intros H. unfold commitOperations.
  destruct (armed (get_batch b w)); auto.
  assert (inv (with_timers
    (remove_first b (timers (update_batch b disarm w)))
    (update_batch b disarm w))) as H'.
  { apply (inv_update_batch b disarm) in H; auto. }
  destruct (lastWriteCompletion (get_batch b w)).
  - exact H'.
  - now apply inv_flush.
Qed.

Lemma inv_record_operation key value b w :
  inv w -> inv (record_operation toBufferKey key value b w).
Proof.
  intros H. unfold record_operation.
  set (w2 := update_batch b _ w).
  assert (inv w2) as H2.
  { apply inv_update_batch; auto. intros B. apply keyed_set_operation. }
  set (w3 := update_batch b _ w2).
  assert (inv w3) as H3 by (apply inv_update_batch; auto).
  destruct (100 <? _); [now apply inv_commitOperations|].
  destruct value as [s|]; auto. destruct (string_truthy s); auto.
  set (w4 := update_batch b _ w3).
  assert (inv w4) as H4 by (apply inv_update_batch; auto).
  destruct (100000 <? _); auto using inv_commitOperations.
Qed.

Lemma inv_current_or_open w : inv w -> inv (fst (current_or_open w)).
Proof.
  intros [H1 H2]. unfold current_or_open.
  destruct (currentWriteBatch w); simpl; [split; auto|].
  split; simpl; auto. apply Forall_app. split; auto.
  repeat constructor.
Qed.

Lemma inv_finished b w : inv w -> inv (finished b w).
Proof.
  intros [H1 H2]. unfold finished.
  destruct (writeCompletion _) as [p|]; [destruct (Nat.eqb p b)|];
    split; simpl; auto.
Qed.

Lemma Forall_drop_in_flight (P : nat * list Operation -> Prop) b l :
  Forall P l -> Forall P (drop_in_flight b l).
Proof.
  induction l as [|[b' ops] l IH]; simpl; auto.
  intros H. inversion H; subst. destruct (Nat.eqb b' b); auto.
Qed.

Lemma find_in_flight_In b l ops :
  find_in_flight b l = Some ops -> In (b, ops) l.
Proof.
  induction l as [|[b' o] l IH]; simpl; [discriminate|].
  destruct (Nat.eqb_spec b' b).
  - intros [= ->]. subst. now left.
  - auto.
Qed.

Lemma inv_step e w : inv w -> inv (step e w).
Proof.
  intros H. destruct e as [key val ver nv | b | b | b | b]; simpl.
  - rewrite dbPut_eq. cbv zeta. apply inv_record_operation.
    apply inv_current_or_open. destruct H. split; auto.
  - destruct (mem b (timers w)); auto using inv_commitOperations.
  - destruct (mem b (awaiting w) && previous_resolved b w); auto.
    apply inv_flush. destruct H. split; auto.
  - destruct (find_in_flight b (in_flight w)); auto.
    apply inv_finished. destruct H as [H1 H2]. split; simpl; auto.
    now apply Forall_drop_in_flight.
  - destruct (find_in_flight b (in_flight w)); auto.
    apply inv_finished. destruct H as [H1 H2]. split; simpl; auto.
    now apply Forall_drop_in_flight.
Qed.

Lemma inv_run tr w : inv w -> inv (run tr w).
Proof.
  revert w. induction tr as [|e tr IH]; intros w H; auto.
  apply IH. now apply inv_step.
Qed.

Lemma inv_new l0 rows : inv (new_Writer l0 rows).
Proof. split; constructor. Qed.

Lemma logs_commitOperations b w :
  inv w -> logs w (commitOperations b w).
Proof.
  intros H. unfold commitOperations.
  destruct (armed (get_batch b w)); [|now left].
  destruct (lastWriteCompletion (get_batch b w)); [now left|].
  right. eexists. split; [|reflexivity].
  apply get_batch_keyed. apply (inv_update_batch b disarm) in H; auto.
  apply H.
Qed.

Lemma logs_record_operation key value b w :
  inv w -> logs w (record_operation toBufferKey key value b w).
Proof.
  intros H. unfold record_operation.
  set (w2 := update_batch b _ w).
  assert (inv w2) as H2.
  { apply inv_update_batch; auto. intros B. apply keyed_set_operation. }
  set (w3 := update_batch b _ w2).
  assert (inv w3) as H3 by (apply inv_update_batch; auto).
  destruct (100 <? _); [exact (logs_commitOperations b w3 H3)|].
  destruct value as [s|]; [|now left]. destruct (string_truthy s); [|now left].
  set (w4 := update_batch b _ w3).
  assert (inv w4) as H4 by (apply inv_update_batch; auto).
  destruct (100000 <? _); [exact (logs_commitOperations b w4 H4)|now left].
Qed.

Lemma logs_step e w : inv w -> logs w (step e w).
Proof.
  intros H. destruct e as [key val ver nv | b | b | b | b]; simpl.
  - rewrite dbPut_eq. cbv zeta.
    set (w0 := with_lastVersion _ w).
    assert (inv (fst (current_or_open w0))) as H1.
    { apply inv_current_or_open. destruct H. split; auto. }
    pose proof (logs_record_operation key val (snd (current_or_open w0))
                  _ H1) as L.
    assert (batch_log (fst (current_or_open w0)) = batch_log w) as E.
    { unfold current_or_open. destruct (currentWriteBatch w0); reflexivity. }
    unfold logs in *. now rewrite E in L.
  - destruct (mem b (timers w)); [|now left].
    now apply logs_commitOperations.
  - destruct (mem b (awaiting w) && previous_resolved b w); [|now left].
    right. eexists. split; [|reflexivity]. apply get_batch_keyed. apply H.
  - destruct (find_in_flight b (in_flight w)); [|now left]. left.
    unfold finished. simpl.
    destruct (writeCompletion w) as [p|]; [destruct (Nat.eqb p b)|];
      reflexivity.
  - destruct (find_in_flight b (in_flight w)); [|now left]. left.
    unfold finished. simpl.
    destruct (writeCompletion w) as [p|]; [destruct (Nat.eqb p b)|];
      reflexivity.
Qed.

(** *** Reading the watermark back *)

Lemma bytes_eqb_eq (a b : bytes) : bytes_eqb a b = true <-> a = b.
Proof.
  unfold bytes_eqb. destruct (list_eq_dec Byte.byte_eq_dec a b); split;
    congruence.
Qed.

Lemma apply_batch_watermark (body : list Operation) (v : Z)
  (t : list (bytes * opvalue)) :
  map_get bytes_eqb LAST_VERSION_IN_DB_KEY
    (apply_batch (body ++ [watermark v]) t) = Some (OVNumber v).
Proof.
  unfold apply_batch. rewrite fold_left_app. simpl.
  unfold apply_operation at 1. simpl.
  apply map_get_set_same. apply bytes_eqb_eq.
Qed.

Hypothesis entity_keys :
  forall k, toBufferKey k <> LAST_VERSION_IN_DB_KEY.

Lemma keyed_not_reserved (B : WriteBatch) :
  keyed B ->
  Forall (fun o => op_key o <> LAST_VERSION_IN_DB_KEY)
    (map_values (entries B)).
Proof.
  unfold keyed, map_values. generalize (entries B) as l.
  induction l as [|[k o] l IH]; simpl; intros H; constructor;
    inversion H; subst; auto.
  simpl in *. congruence.
Qed.

(** C3, as the code has it: the class's [lastVersion] is the largest of
    its start value and the versions counted for the operations enqueued
    so far, a put without version and every remove counting with the next
    global version, so it bounds the version of every row written; a
    flushed batch is the operations of the batch followed by one put of
    [[0x01,0x02]] with the [lastVersion] of that moment, and once the
    batch is written that value is what [[0x01,0x02]] reads. *)
Theorem watermark_is_max_enqueued_version (l0 : Z)
  (rows : list (bytes * opvalue)) (tr : list Event) :
  let w := run tr (new_Writer l0 rows) in
  lastVersion w = fold_left Z.max (versions tr) l0
  /\ (forall v, In v (row_versions tr) -> v <> 0 -> v <= lastVersion w)
  /\ (forall e,
        batch_log (step e w) = batch_log w
        \/ exists body,
             batch_log (step e w)
             = batch_log w ++ [body ++ [watermark (lastVersion (step e w))]]
             /\ Forall (fun o => op_key o <> LAST_VERSION_IN_DB_KEY) body)
  /\ (forall b ops,
        find_in_flight b (in_flight w) = Some ops ->
        exists body v,
          ops = body ++ [watermark v]
          /\ Forall (fun o => op_key o <> LAST_VERSION_IN_DB_KEY) body
          /\ map_get bytes_eqb LAST_VERSION_IN_DB_KEY
               (table (step (BatchWritten b) w)) = Some (OVNumber v)).
Proof.
  intros w.
  assert (inv w) as Hinv by (apply inv_run, inv_new).
  assert (lastVersion w = fold_left Z.max (versions tr) l0) as HL
    by (apply lastVersion_run).
  split; [exact HL|]. split; [|split].
  - intros v Hv Hnz. rewrite HL.
    destruct (row_versions_incl _ _ Hv) as [-> | Hin]; [contradiction|].
    now apply fold_max_ge.
  - intros e. destruct (logs_step e w Hinv) as [E | [B [HB E]]]; [now left|].
    right. exists (map_values (entries B)). split; auto.
    now apply keyed_not_reserved.
  - intros b ops Hf. destruct Hinv as [_ Hfl].
    rewrite Forall_forall in Hfl.
    destruct (Hfl _ (find_in_flight_In _ _ _ Hf)) as (B & v & HB & E).
    simpl in E. exists (map_values (entries B)), v.
    repeat split; auto using keyed_not_reserved.
    simpl. rewrite Hf. unfold finished.
    assert (forall t, map_get bytes_eqb LAST_VERSION_IN_DB_KEY
              (apply_batch ops t) = Some (OVNumber v)) as R.
    { intros t. rewrite E. apply apply_batch_watermark. }
    destruct (writeCompletion _) as [p|]; [destruct (Nat.eqb p b)|];
      simpl; apply R.
Qed.

(** *** When a flush is requested *)

Lemma get_batch_update_same b f w :
  (b < length (batches w))%nat ->
  get_batch b (update_batch b f w) = f (get_batch b w).
Proof.
  intros H. unfold get_batch, update_batch. simpl.
  rewrite nth_list_update_same.
  apply Nat.ltb_lt in H. now rewrite H.
Qed.

Lemma length_batches_update b f w :
  length (batches (update_batch b f w)) = length (batches w).
Proof. apply length_list_update. Qed.






Lemma range_commitOperations b w :
  length (batches (commitOperations b w)) = length (batches w)
  /\ (currentWriteBatch (commitOperations b w) = None
      \/ currentWriteBatch (commitOperations b w) = currentWriteBatch w).
Proof.
  unfold commitOperations. destruct (armed (get_batch b w)); auto.
  destruct (when_defers (lastWriteCompletion (get_batch b w))); simpl;
    rewrite length_list_update; auto.
Qed.







(** *** A failed batch write *)

Lemma remove_first_not_In (b : nat) (l : list nat) :
  NoDup l -> ~ In b (remove_first b l).
Proof.
  induction l as [|x l IH]; simpl; [tauto|].
  intros H. inversion H; subst. destruct (Nat.eqb_spec x b).
  - subst. assumption.
  - intros [-> | Hin]; [congruence|]. now apply IH.
Qed.

Lemma mem_In (b : nat) (l : list nat) : mem b l = true <-> In b l.
Proof.
  unfold mem. rewrite existsb_exists. split.
  - intros [x [Hx E]]. apply Nat.eqb_eq in E. now subst.
  - intros H. exists b. split; auto. apply Nat.eqb_refl.
Qed.

(** C7, as the code has it: when the batch write of the engine fails the
    error is logged, the completion of the batch is resolved and never
    rejected, the batch leaves [pendingWrites], [writeCompletion] goes
    back to [null] if it still is the completion of that batch, nothing
    reaches the table, and neither [onDbFailure] nor the [ready] promise
    is touched. *)
Theorem failed_batch_resolves (b : nat) (ops : list Operation) (w : Writer) :
  find_in_flight b (in_flight w) = Some ops ->
  let w' := step (BatchFailed b) w in
  resolved w' = resolved w ++ [b]
  /\ rejected w' = rejected w
  /\ pendingWrites w' = splice_indexOf b (pendingWrites w)
  /\ (In b (pendingWrites w) -> NoDup (pendingWrites w) ->
      ~ In b (pendingWrites w'))
  /\ writeCompletion w'
     = match writeCompletion w with
       | Some p => if Nat.eqb p b then None else Some p
       | None => None
       end
  /\ console w' = console w ++ [console_error_batch b]
  /\ table w' = table w
  /\ batch_log w' = batch_log w
  /\ ready w' = ready w
  /\ onDbFailure_calls w' = onDbFailure_calls w.
Proof.
  intros Hf w'. subst w'. simpl. rewrite Hf. unfold finished. simpl.
  assert (In b (pendingWrites w) -> NoDup (pendingWrites w) ->
          ~ In b (splice_indexOf b (pendingWrites w))) as Hp.
  { intros Hin Hnd. unfold splice_indexOf.
    apply mem_In in Hin. rewrite Hin. now apply remove_first_not_In. }
  destruct (writeCompletion w) as [p|] eqn:W;
    [destruct (Nat.eqb p b) eqn:E|]; simpl; rewrite ?W, ?E;
    repeat split; auto.
Qed.

End BatcherFacts.

(** ** Dropping the cached value *)

Section EntityFacts.
Variable StringToNumber : string -> number.
Variable JSON_parse : string -> value.
Variable toBufferKey : prim -> bytes.
Variable inherited : number.

Abbreviation valueOf :=
  (valueOf StringToNumber JSON_parse toBufferKey inherited).
Abbreviation loadLatestLocalData :=
  (loadLatestLocalData StringToNumber toBufferKey inherited).
Abbreviation get_value := (get_value JSON_parse).
Abbreviation stored_json := (stored_json StringToNumber toBufferKey).
Abbreviation parse_stored := (parse_stored JSON_parse).

(** A load on an instance without cached value and without [asJSON]
    yields what the store holds. *)
Lemma valueOf_unloaded (nv : Z) (e : Instance) (w : Writer) :
  readyState e = None -> asJSON e = None -> _cachedValue e = None ->
  option_map fst (valueOf nv e w)
  = option_map parse_stored (stored_json (id e) w).
Proof.
  intros R J V. unfold Persisted.valueOf, Persisted.loadLatestLocalData,
    loadLocalData, stored_json. rewrite R.
  destruct (withValue StringToNumber (dbGet toBufferKey (id e) w))
    as [data|]; [|reflexivity].
  destruct (ld_asJSON data) as [json|] eqn:EJ.
  - destruct (string_truthy json) eqn:T.
    + simpl. unfold Persisted.get_value. simpl. rewrite V, T. reflexivity.
    + destruct (ld_version data) as [v|]; [destruct (number_truthy v)|];
        simpl; unfold Persisted.get_value; simpl; rewrite V, J; reflexivity.
  - destruct (ld_version data) as [v|]; [destruct (number_truthy v)|];
      simpl; unfold Persisted.get_value; simpl; rewrite V, J; reflexivity.
Qed.

Lemma clearCache_reloads (nv : Z) (e : Instance) (w : Writer) :
  readyState e = None \/ readyState e = Some up_to_date
  \/ readyState e = Some invalidated ->
  option_map fst (valueOf nv (clearCache e) w)
  = option_map parse_stored (stored_json (id e) w).
Proof.
  intros H.
  change (id e) with (id (clearCache e)).
  apply valueOf_unloaded; auto.
  unfold clearCache. simpl. destruct H as [-> | [-> | ->]]; reflexivity.
Qed.

(** The instance a first [valueOf] leaves behind. *)
Lemma valueOf_new_state (nv : Z) (i : prim) (w : Writer) (v : option value)
  (e1 : Instance) :
  valueOf nv (new_Instance i) w = Some (v, e1) ->
  id e1 = i
  /\ ((readyState e1 = Some up_to_date \/ readyState e1 = Some invalidated)
      \/ (readyState e1 = Some no_local_data /\ v = None)).
Proof.
  unfold Persisted.valueOf, Persisted.loadLatestLocalData, loadLocalData.
  simpl.
  destruct (withValue StringToNumber (dbGet toBufferKey i w)) as [data|];
    [|discriminate].
  destruct (ld_asJSON data) as [json|].
  - destruct (string_truthy json) eqn:T.
    + unfold Persisted.get_value. simpl. rewrite T.
      intros [= <- <-]. simpl. auto.
    + destruct (ld_version data) as [n|]; [destruct (number_truthy n)|];
        unfold Persisted.get_value; simpl; intros [= <- <-]; simpl; auto.
  - destruct (ld_version data) as [n|]; [destruct (number_truthy n)|];
      unfold Persisted.get_value; simpl; intros [= <- <-]; simpl; auto.
Qed.

(** C8, as the code has it: [clearCache] drops [asJSON] and the cached
    value, sets [cachedVersion] to -1 and resets [readyState] exactly when
    it was up-to-date or invalidated; it changes nothing but the instance
    it is called on; an instance that was up-to-date, invalidated or not
    yet loaded yields after [clearCache] what the store holds, and an
    instance that got its value from the store by [valueOf] yields the
    same value again. *)
Theorem clearCache_frame_and_reload (nv nv' : Z) (e : Instance) (w : Writer) :
  (id (clearCache e) = id e
   /\ asJSON (clearCache e) = None
   /\ _cachedValue (clearCache e) = None
   /\ cachedVersion (clearCache e) = -1
   /\ version (clearCache e) = version e
   /\ readyState (clearCache e)
      = match readyState e with
        | Some up_to_date | Some invalidated => None
        | r => r
        end)
  /\ (forall r C,
        writer (on_instance clearCache r C) = writer C
        /\ instancesById (on_instance clearCache r C) = instancesById C
        /\ forall r', r' <> r ->
             nth_error (instances (on_instance clearCache r C)) r'
             = nth_error (instances C) r')
  /\ (readyState e = None \/ readyState e = Some up_to_date
      \/ readyState e = Some invalidated ->
      option_map fst (valueOf nv (clearCache e) w)
      = option_map fst (valueOf nv' (new_Instance (id e)) w))
  /\ (forall i v e1,
        valueOf nv (new_Instance i) w = Some (v, e1) ->
        option_map fst (valueOf nv' (clearCache e1) w) = Some v).
Proof.
  split; [|split; [|split]].
  - repeat split; reflexivity.
  - intros r C. repeat split; auto.
    intros r' Hr. unfold on_instance. simpl.
    generalize (instances C) as l. revert r r' Hr.
    induction r as [|r IH]; intros [|r'] Hr l; destruct l; simpl; auto;
      congruence.
  - intros H. rewrite clearCache_reloads by assumption.
    symmetry. apply (valueOf_unloaded nv' (new_Instance (id e)) w);
      reflexivity.
  - intros i v e1 H.
    pose proof (valueOf_unloaded nv (new_Instance i) w eq_refl eq_refl eq_refl)
      as S0.
    rewrite H in S0. simpl in S0.
    destruct (valueOf_new_state _ _ _ _ _ H) as [Hid [Hs | [Hs ->]]].
    + rewrite clearCache_reloads by tauto. rewrite Hid. now rewrite <- S0.
    + unfold Persisted.valueOf, clearCache. simpl. rewrite Hs. reflexivity.
Qed.

End EntityFacts.

End PersistedSpec.

(* ================================================================== *)
(** * Properties of the permission proxy *)
(* ================================================================== *)

Module SecureAccessSpec.
Import SecureAccess.

Section Delegation.
Variable checkPermissions : target -> name -> nat -> bool.
Variable currentContext : bool.
Variable method_returns : target -> string -> nat -> retval.

Abbreviation invoke := (invoke checkPermissions currentContext method_returns).

(** C9, as the code has it: [stopNotifies] on a proxied object runs the
    override with [this] bound to the wrapped object, so the call inside
    it is the wrapped object's own [stopNotifies]; it runs once, without
    permission check, and returns. *)
Theorem stopNotifies_delegates (fuel : nat) (t : target) (listener : nat) :
  invoke (S (S fuel)) (Proxied t) n_stopNotifies listener
  = Returned [Ran t n_stopNotifies listener]
      (R_result t n_stopNotifies listener)
  /\ invoke (S (S fuel)) (Proxied t) n_stopNotifies listener
     = invoke (S fuel) (Plain t) n_stopNotifies listener.
Proof. split; destruct t; reflexivity. Qed.

End Delegation.

(** The call on the proxy of instance 1 comes back after one run of the
    instance's own method: it does not call itself again. *)
Lemma stopNotifies_does_not_recurse :
  invoke (fun _ _ _ => true) true (fun t s a => R_result t (n_method s) a) 2
    (Proxied (AnInstance 1)) n_stopNotifies 7
  = Returned [Ran (AnInstance 1) n_stopNotifies 7]
      (R_result (AnInstance 1) n_stopNotifies 7)
  /\ ~ (forall fuel,
         invoke (fun _ _ _ => true) true
           (fun t s a => R_result t (n_method s) a) fuel
           (Proxied (AnInstance 1)) n_stopNotifies 7 = Out_of_fuel).
Proof.
  split; [reflexivity|]. intros H. specialize (H 2%nat). discriminate.
Qed.

End SecureAccessSpec.

(* ================================================================== *)
(** * Properties of Index.ts *)
(* ================================================================== *)

Module IndexSpec.
Import Js JsFacts Index Scenarios.

Lemma key_eqb_eq (a b : key) : key_eqb a b = true <-> a = b.
Proof.
  unfold key_eqb. rewrite same_value_zero_eq.
  destruct a, b; simpl; split; congruence.
Qed.

Lemma key_eqb_sym (a b : key) : key_eqb a b = key_eqb b a.
Proof.
  destruct (key_eqb a b) eqn:E, (key_eqb b a) eqn:E'; auto.
  - apply key_eqb_eq in E. subst. now rewrite (proj2 (key_eqb_eq b b)) in E'.
  - apply key_eqb_eq in E'. subst. now rewrite (proj2 (key_eqb_eq a a)) in E.
Qed.

Section IndexingFacts.
Variable JSON_stringify : value -> string.
Variable toBufferKey : prim -> bytes.
Variable indexBy : value -> option indexed.
Variable Source_for : prim -> option entity_value.

Abbreviation indexEntry :=
  (indexEntry JSON_stringify toBufferKey indexBy Source_for).
Abbreviation index_one := (index_one toBufferKey).
Abbreviation index_entries := (index_entries JSON_stringify toBufferKey).
Abbreviation remove_one := (remove_one toBufferKey).
Abbreviation previous_map := (previous_map JSON_stringify indexBy).
Abbreviation current_elements := (current_elements indexBy).
Abbreviation current_entries :=
  (current_entries JSON_stringify indexBy Source_for).
Abbreviation completes := (completes JSON_stringify indexBy Source_for).
Abbreviation request_warnings :=
  (request_warnings JSON_stringify indexBy Source_for).
Abbreviation pairs_of := (pairs_of JSON_stringify).
Abbreviation entry_pair := (entry_pair JSON_stringify).
Abbreviation diff_operations := (diff_operations toBufferKey).
Abbreviation put_operation := (put_operation toBufferKey).
Abbreviation del_operation := (del_operation toBufferKey).
Abbreviation puts_against := (puts_against toBufferKey).

(** ** The operations of [indexEntry] *)

Lemma operations_addUpdatedIndexEntry k srcs s :
  operations (addUpdatedIndexEntry k srcs s) = operations s.
Proof. reflexivity. Qed.

Lemma puts_against_delete id k toRemove current :
  ~ In k (map fst current) ->
  puts_against id (map_delete key_eqb k toRemove) current
  = puts_against id toRemove current.
Proof.
  unfold puts_against. induction current as [|[k' v'] l IH]; simpl; auto.
  intros H. rewrite IH by tauto.
  rewrite (map_get_delete_other key_eqb key_eqb_eq); auto.
Qed.

Lemma second_loop id srcs current :
  NoDup (map fst current) ->
  forall s toRemove,
    let r := fold_left (index_one id srcs) current (s, toRemove) in
    operations (fst r) = operations s ++ puts_against id toRemove current
    /\ snd r = fold_left (fun m k => map_delete key_eqb k m)
                 (map fst current) toRemove.
Proof.
  induction current as [|[k v] l IH]; intros Hnd s toRemove; simpl.
  - now rewrite app_nil_r.
  - inversion Hnd as [|? ? Hn Hd]; subst.
    assert (forall m : list (key * string),
              match map_get key_eqb k m with
              | Some _ => map_delete key_eqb k m
              | None => m
              end = map_delete key_eqb k m) as D.
    { intros m. destruct (map_get key_eqb k m) eqn:G; auto.
      symmetry. now apply map_delete_absent. }
    rewrite D.
    destruct (map_get key_eqb k toRemove) as [old|] eqn:G.
    + destruct (String.eqb v old) eqn:E; simpl.
      * destruct (IH Hd s (map_delete key_eqb k toRemove)) as [H1 H2].
        rewrite H1, H2, puts_against_delete by assumption. auto.
      * match goal with
        | |- context [fold_left _ l (?s1, _)] =>
            destruct (IH Hd s1 (map_delete key_eqb k toRemove)) as [H1 H2]
        end.
        rewrite H1, H2, puts_against_delete by assumption.
        rewrite operations_addUpdatedIndexEntry. simpl.
        now rewrite <- app_assoc.
    + simpl.
      match goal with
      | |- context [fold_left _ l (?s1, _)] =>
          destruct (IH Hd s1 (map_delete key_eqb k toRemove)) as [H1 H2]
      end.
      rewrite H1, H2, puts_against_delete by assumption.
      rewrite operations_addUpdatedIndexEntry. simpl.
      now rewrite <- app_assoc.
Qed.

Lemma third_loop id srcs toRemove s :
  operations (fold_left (remove_one id srcs) toRemove s)
  = operations s ++ map (fun kv => del_operation (fst kv) id) toRemove.
Proof.
  revert s. induction toRemove as [|kv l IH]; intros s; simpl.
  - now rewrite app_nil_r.
  - rewrite IH. simpl. now rewrite <- app_assoc.
Qed.

Lemma delete_all_filter (keys : list key) (m : list (key * string)) :
  NoDup (map fst m) ->
  fold_left (fun m k => map_delete key_eqb k m) keys m
  = filter (fun kv => negb (existsb (key_eqb (fst kv)) keys)) m.
Proof.
  revert m. induction keys as [|k keys IH]; intros m H; simpl.
  - clear H. induction m as [|x m IHm]; simpl; [reflexivity | f_equal; exact IHm].
  - rewrite IH by (now apply map_delete_NoDup).
    rewrite (map_delete_filter key_eqb key_eqb_eq) by assumption.
    clear. induction m as [|[k' v'] m IHm]; simpl; auto.
    rewrite (key_eqb_sym k' k).
    destruct (key_eqb k k'); simpl; rewrite IHm; reflexivity.
Qed.

Lemma map_filter_flat_map {A B : Type} (p : A -> bool) (g : A -> B)
  (l : list A) :
  map g (filter p l) = flat_map (fun x => if p x then [g x] else []) l.
Proof.
  induction l as [|x l IH]; simpl; auto.
  destruct (p x); simpl; now rewrite IH.
Qed.

Lemma collect_previous_NoDup (l : list entry) :
  forall m previous,
    NoDup (map fst m) ->
    collect_previous JSON_stringify l m = Some previous ->
    NoDup (map fst previous).
Proof.
  induction l as [|e l IH]; intros m previous H; simpl.
  - now intros [= <-].
  - destruct (entry_pair e) as [kv|]; [|discriminate].
    apply IH. now apply (map_set_NoDup key_eqb key_eqb_eq).
Qed.

Lemma previous_map_NoDup req previous :
  previous_map req = Some previous -> NoDup (map fst previous).
Proof.
  unfold Index.previous_map.
  destruct (previousState req) as [v|];
    [|intros [= <-]; simpl; constructor].
  destruct (indexBy v) as [r|]; [|discriminate].
  apply collect_previous_NoDup. simpl. constructor.
Qed.

(** *** The second loop, with and without an element that cannot be
    read *)

Lemma index_entries_pairs id srcs (l : list entry) :
  forall current acc,
    pairs_of l = Some current ->
    index_entries id srcs l acc
    = (fst (fold_left (index_one id srcs) current acc),
       Some (snd (fold_left (index_one id srcs) current acc))).
Proof.
  induction l as [|e l IH]; intros current acc; simpl.
  - intros [= <-]. reflexivity.
  - destruct (entry_pair e) as [kv|]; [|discriminate].
    destruct (pairs_of l) as [r|] eqn:E; [|discriminate].
    intros [= <-]. simpl. now apply IH.
Qed.

Lemma index_entries_throws id srcs (l : list entry) :
  forall acc,
    pairs_of l = None -> snd (index_entries id srcs l acc) = None.
Proof.
  induction l as [|e l IH]; intros acc; simpl; [discriminate|].
  destruct (entry_pair e) as [kv|]; [|reflexivity].
  destruct (pairs_of l) as [r|] eqn:E; [discriminate|].
  intros _. now apply IH.
Qed.

Lemma index_entries_completes id srcs (l : list entry) acc toRemove :
  snd (index_entries id srcs l acc) = Some toRemove ->
  exists current, pairs_of l = Some current.
Proof.
  intros H. destruct (pairs_of l) as [current|] eqn:E; [now exists current|].
  rewrite (index_entries_throws id srcs l acc E) in H. discriminate.
Qed.

(** The operations the second loop adds are puts, however far it gets. *)
Lemma index_entries_puts id srcs (l : list entry) :
  forall acc,
    exists ops,
      operations (fst (index_entries id srcs l acc))
      = operations (fst acc) ++ ops
      /\ Forall (fun o => Persisted.op_type o = Persisted.op_put) ops.
Proof.
  induction l as [|e l IH]; intros [s toRemove]; simpl.
  - exists []. now rewrite app_nil_r.
  - destruct (entry_pair e) as [[k v]|];
      [|exists []; now rewrite app_nil_r].
    destruct (match map_get key_eqb k toRemove with
              | Some old => negb (String.eqb v old)
              | None => true
              end).
    + match goal with
      | |- context [index_entries id srcs l ?acc] =>
          destruct (IH acc) as (ops & Ho & Hp)
      end.
      exists (put_operation k id v :: ops). split.
      * rewrite Ho. simpl. now rewrite <- app_assoc.
      * now constructor.
    + match goal with
      | |- context [index_entries id srcs l ?acc] =>
          destruct (IH acc) as (ops & Ho & Hp)
      end.
      exists ops. split; [exact Ho|exact Hp].
Qed.

Lemma index_entries_version id srcs (l : list entry) :
  forall acc,
    lastIndexedVersion (fst (index_entries id srcs l acc))
    = lastIndexedVersion (fst acc).
Proof.
  induction l as [|e l IH]; intros [s toRemove]; simpl; [reflexivity|].
  destruct (entry_pair e) as [[k v]|]; [|reflexivity].
  rewrite IH. unfold Index.index_one.
  destruct (match map_get key_eqb k toRemove with
            | Some old => negb (String.eqb v old)
            | None => true
            end); reflexivity.
Qed.

(** The states [indexEntry] is made of *)
Lemma indexEntry_eq id req s previous current :
  previous_map req = Some previous ->
  current_entries id req = Some current ->
  exists s0,
    operations s0 = operations s
    /\ lastIndexedVersion s0 = lastIndexedVersion s
    /\ updatedIndexEntries s0 = updatedIndexEntries s
    /\ queue s0 = queue s
    /\ committing s0 = committing s /\ sending s0 = sending s
    /\ queuedIndexedProgress s0 = queuedIndexedProgress s
    /\ table s0 = table s
    /\ let r := fold_left (index_one id (sources req)) current
                  (s0, previous) in
       let s2 := fold_left (remove_one id (sources req)) (snd r) (fst r) in
       indexEntry id req s
       = if version req =? 0
         then with_console (console s2 ++ [warn_missing_version id]) s2
         else with_lastIndexedVersion
                (Z.max (version req) (lastIndexedVersion s2)) s2.
Proof.
  intros Hp Hc. unfold Index.indexEntry, Index.current_entries in *.
  rewrite Hp. destruct (Source_for id) as [entity|]; [|discriminate].
  destruct (current_elements entity req) as [l|]; [|discriminate].
  match goal with
  | |- context [index_entries id (sources req) l (?s0, previous)] =>
      exists s0
  end.
  rewrite (index_entries_pairs id (sources req) l current _ Hc).
  repeat split; destruct entity; try destruct (deleted req); reflexivity.
Qed.

(** C2, as the code has it.  When nothing throws, that is when
    [Source.for] and [indexBy] return and every element they yield can be
    read, and when the entries of the current value name no key twice, the
    operations [indexEntry] adds are the difference of the previous
    entries and the current ones: nothing for an entry whose key and
    serialised value are as before, a put of the serialised value (the
    empty string without value) at [ordered(key) ++ [0x1E] ++ ordered(id)]
    for a new or changed pair, and a del at that composite key for every
    previous key that is not among the current ones; a deleted entity
    counts as having no current entries.  When something throws, the
    request is abandoned with a warning: what it has added by then are
    puts, no del, and [lastIndexedVersion] stays. *)
Theorem indexEntry_emits_diff (id : prim) (req : IndexRequest) (s : State) :
  (forall previous current,
     previous_map req = Some previous ->
     current_entries id req = Some current ->
     NoDup (map fst current) ->
     operations (indexEntry id req s)
     = operations s ++ diff_operations id previous current)
  /\ (completes id req = false ->
      exists ops,
        operations (indexEntry id req s) = operations s ++ ops
        /\ Forall (fun o => Persisted.op_type o = Persisted.op_put) ops
        /\ lastIndexedVersion (indexEntry id req s) = lastIndexedVersion s
        /\ exists older,
             console (indexEntry id req s)
             = older ++ [warn_error_indexing id]).
Proof.
  split.
  - intros previous current Hp Hc Hnd.
    destruct (indexEntry_eq id req s previous current Hp Hc)
      as (s0 & E0 & _ & _ & _ & _ & _ & _ & _ & ->).
    pose proof (second_loop id (sources req) _ Hnd s0 previous) as [H1 H2].
    destruct (fold_left _ current (s0, previous)) as [s1 toRemove] eqn:F.
    simpl in H1, H2. simpl.
    assert (operations (fold_left (remove_one id (sources req)) toRemove s1)
            = operations s ++ diff_operations id previous current) as R.
    { rewrite third_loop, H1, H2, E0, <- app_assoc. f_equal.
      unfold Index.diff_operations. f_equal.
      rewrite delete_all_filter by (eapply previous_map_NoDup; eassumption).
      rewrite map_filter_flat_map. apply flat_map_ext. intros kv.
      destruct (existsb _ _); reflexivity. }
    destruct (version req =? 0); exact R.
  - unfold Index.completes, Index.current_entries, Index.indexEntry.
    assert (Hab : forall s1 ops,
               operations s1 = operations s ++ ops ->
               Forall (fun o => Persisted.op_type o = Persisted.op_put) ops ->
               lastIndexedVersion s1 = lastIndexedVersion s ->
               exists ops,
                 operations (abandoned id s1) = operations s ++ ops
                 /\ Forall (fun o => Persisted.op_type o = Persisted.op_put)
                      ops
                 /\ lastIndexedVersion (abandoned id s1)
                    = lastIndexedVersion s
                 /\ exists older,
                      console (abandoned id s1)
                      = older ++ [warn_error_indexing id]).
    { intros s1 ops Ho Hf Hl. exists ops. repeat split; auto.
      now exists (console s1). }
    destruct (Source_for id) as [entity|].
    + destruct (Index.previous_map JSON_stringify indexBy req)
        as [previous|].
      * set (s0 := match entity with
                   | Retrieval_fails =>
                       if deleted req then s
                       else with_console
                              (console s ++ [warn_error_retrieving id]) s
                   | _ => s
                   end).
        assert (E0 : operations s0 = operations s
                     /\ lastIndexedVersion s0 = lastIndexedVersion s).
        { unfold s0. destruct entity; try destruct (deleted req);
            split; reflexivity. }
        destruct E0 as [E0 E1].
        destruct (current_elements entity req) as [l|].
        -- destruct (pairs_of l) as [current|] eqn:Ep; [discriminate|].
           intros _.
           pose proof (index_entries_throws id (sources req) l
                         (s0, previous) Ep) as Ht.
           destruct (index_entries_puts id (sources req) l (s0, previous))
             as (ops & Ho & Hf).
           pose proof (index_entries_version id (sources req) l
                         (s0, previous)) as Hv.
           destruct (index_entries id (sources req) l (s0, previous))
             as [s1 r]. simpl in Ht, Ho, Hv. subst r.
           apply (Hab s1 ops); [now rewrite Ho, E0|exact Hf|].
           now rewrite Hv.
        -- intros _. apply (Hab s0 []); [now rewrite app_nil_r|constructor|].
           exact E1.
      * intros _. apply (Hab s []); [now rewrite app_nil_r|constructor|].
        reflexivity.
    + intros _. apply (Hab s []); [now rewrite app_nil_r|constructor|].
      reflexivity.
Qed.

(** ** The progress [commitOperations] records *)

Variable sourceId_of : bytes -> prim.
Variable INITIALIZATION_SOURCE : source.
Variable db_version_json : string.

Abbreviation step :=
  (step JSON_stringify toBufferKey indexBy Source_for sourceId_of
     INITIALIZATION_SOURCE db_version_json).
Abbreviation run :=
  (run JSON_stringify toBufferKey indexBy Source_for sourceId_of
     INITIALIZATION_SOURCE db_version_json).
Abbreviation resumeIndex :=
  (resumeIndex sourceId_of INITIALIZATION_SOURCE db_version_json).

Lemma queue_addUpdatedIndexEntry k srcs s :
  queue (addUpdatedIndexEntry k srcs s) = queue s.
Proof. reflexivity. Qed.

Lemma queue_index_entries id srcs (l : list entry) :
  forall acc, queue (fst (index_entries id srcs l acc)) = queue (fst acc).
Proof.
  induction l as [|e l IH]; intros [s toRemove]; simpl; [reflexivity|].
  destruct (entry_pair e) as [[k v]|]; [|reflexivity].
  rewrite IH. unfold Index.index_one.
  destruct (match map_get key_eqb k toRemove with
            | Some old => negb (String.eqb v old)
            | None => true
            end); reflexivity.
Qed.

Lemma queue_third_loop id srcs toRemove :
  forall s, queue (fold_left (remove_one id srcs) toRemove s) = queue s.
Proof.
  induction toRemove as [|kv l IH]; intros s; simpl; auto.
  rewrite IH. reflexivity.
Qed.

Lemma queue_indexEntry id req s : queue (indexEntry id req s) = queue s.
Proof.
  unfold Index.indexEntry.
  destruct (Source_for id) as [entity|]; [|reflexivity].
  destruct (previous_map req) as [previous|]; [|reflexivity].
  set (s0 := match entity with
             | Retrieval_fails =>
                 if deleted req then s
                 else with_console
                        (console s ++ [warn_error_retrieving id]) s
             | _ => s
             end).
  assert (E0 : queue s0 = queue s)
    by (unfold s0; destruct entity; try destruct (deleted req); reflexivity).
  destruct (current_elements entity req) as [l|]; [|exact E0].
  pose proof (queue_index_entries id (sources req) l (s0, previous)) as Q.
  destruct (index_entries id (sources req) l (s0, previous))
    as [s1 [toRemove|]]; simpl in Q.
  - destruct (version req =? 0); simpl; rewrite queue_third_loop;
      now rewrite Q.
  - simpl. now rewrite Q.
Qed.

Lemma own_properties_resume (L : list (prim * Z)) :
  forall (q : MapObject prim IndexRequest),
    own_properties
      (fold_left
         (fun q iv =>
            mo_set same_value_zero (fst iv)
              (resume_request INITIALIZATION_SOURCE (snd iv)) q) L q)
    = own_properties q.
Proof.
  induction L as [|iv L IH]; intros q; simpl; [reflexivity|].
  now rewrite IH.
Qed.

(** No step defines an ordinary property on the queue. *)
Lemma own_properties_step e s :
  own_properties (queue (step e s)) = own_properties (queue s).
Proof.
  destruct e as [id previous u| | | | | | |L]; simpl.
  - unfold updated. destruct (truthy id); auto.
    destruct (mo_get same_value_zero id (queue s)) as [r|]; simpl;
      destruct (u_version u =? 0); reflexivity.
  - unfold index_next. destruct (map_data (queue s)) as [|[id req] l]; auto.
    rewrite queue_indexEntry. reflexivity.
  - unfold commitOperations. destruct (operations s); auto.
    unfold progress_ready. simpl.
    destruct (queuedIndexedProgress s) as [p|]; [destruct (p =? 0)|];
      reflexivity.
  - unfold batch_resolved. destruct (committing s) as [|[ops p] l]; auto.
  - unfold updates_written. destruct (sending s); auto.
  - unfold store_progress, progress_ready.
    destruct (queuedIndexedProgress s) as [p|]; [destruct (p =? 0)|];
      reflexivity.
  - reflexivity.
  - unfold Index.resumeIndex.
    destruct (stored_version s) as [n|]; [|reflexivity].
    simpl. apply own_properties_resume.
Qed.

Lemma own_properties_run tr s :
  own_properties (queue (run tr s)) = own_properties (queue s).
Proof.
  revert s. induction tr as [|e tr IH]; intros s; auto.
  change (run (e :: tr) s) with (run tr (step e s)).
  now rewrite IH, own_properties_step.
Qed.

Lemma indexedProgress_run tr :
  nextIndexRequest (run tr new_State) = None
  /\ indexedProgress (run tr new_State)
     = lastIndexedVersion (run tr new_State).
Proof.
  assert (nextIndexRequest (run tr new_State) = None) as H.
  { unfold nextIndexRequest, get_property. now rewrite own_properties_run. }
  split; auto. unfold indexedProgress. now rewrite H.
Qed.

End IndexingFacts.

(** ** A run that records progress past a queued request *)

(** C1, on the code: [this.queue[0]] reads an ordinary property of the
    [Map], which no step defines, so whatever waits in the queue the
    progress [commitOperations] computes is [lastIndexedVersion] itself;
    in the run above it is 10 where the minimum with the first queued
    version minus one is 4, and the table ends up with the watermark 10
    while the request of version 5 is still queued. *)
Theorem progress_ignores_queue :
  (forall JSON_stringify toBufferKey indexBy Source_for sourceId_of
          INITIALIZATION_SOURCE db_version_json tr,
     let s :=
       Index.run JSON_stringify toBufferKey indexBy Source_for sourceId_of
         INITIALIZATION_SOURCE db_version_json tr new_State in
     nextIndexRequest s = None
     /\ indexedProgress s = lastIndexedVersion s)
  /\ (let s := s_index_run (firstn 3 overtaking_run) new_State in
      queued_versions s = [5]
      /\ indexedProgress s = 10
      /\ progress_by_specification s = 4)
  /\ (let s := s_index_run overtaking_run new_State in
      stored_progress s = Some (Persisted.OVNumber 10)
      /\ queued_versions s = [5]).
Proof.
  split; [|split].
  - intros. apply indexedProgress_run.
  - vm_compute. auto.
  - vm_compute. auto.
Qed.

End IndexSpec.

(* ================================================================== *)
(** * The write batcher of Persisted.ts as a state machine *)
(* ================================================================== *)

Module BatcherSpec.
Import Js JsFacts Persisted.

Section BatcherInvariant.
Variable toBufferKey : prim -> bytes.

Abbreviation batch_ok := (batch_ok toBufferKey).
Abbreviation batcher_ok := (batcher_ok toBufferKey).
Abbreviation operation_of := (operation_of toBufferKey).
Abbreviation record_operation := (record_operation toBufferKey).
Abbreviation dbPut := (dbPut toBufferKey).
Abbreviation step := (step toBufferKey).
Abbreviation run := (run toBufferKey).
Abbreviation dbGet := (dbGet toBufferKey).

(** *** One batch *)

Lemma get_batch_update_other b b' f w :
  b <> b' -> get_batch b' (update_batch b f w) = get_batch b' w.
Proof.
  intros H. unfold get_batch, update_batch. simpl.
  now apply PersistedSpec.nth_list_update_other.
Qed.

Lemma batch_ok_entries (B B' : WriteBatch) :
  entries B' = entries B -> batch_ok B -> batch_ok B'.
Proof. unfold Persisted.batch_ok. intros ->. auto. Qed.

Lemma batch_ok_set_operation key value B :
  batch_ok B -> batch_ok (set_operation key (operation_of key value) B).
Proof.
  intros [Hn Hf]. split; simpl.
  - now apply (map_set_NoDup same_value_zero same_value_zero_eq).
  - apply Forall_forall. intros x Hx.
    apply (map_set_In same_value_zero same_value_zero_eq) in Hx.
    destruct Hx as [-> | Hx].
    + exists value. reflexivity.
    + rewrite Forall_forall in Hf. now apply Hf.
Qed.

Lemma batch_ok_empty : batch_ok empty_batch.
Proof. split; simpl; constructor. Qed.

Lemma get_batch_ok b w : Forall batch_ok (batches w) -> batch_ok (get_batch b w).
Proof.
  intros H. unfold get_batch.
  destruct (Nat.lt_ge_cases b (length (batches w))) as [Hlt | Hge].
  - rewrite Forall_forall in H. apply H. now apply nth_In.
  - rewrite nth_overflow by assumption. apply batch_ok_empty.
Qed.

Lemma local_set_operation key o : batch_local (set_operation key o).
Proof. intros B. split; reflexivity. Qed.

Lemma local_set_writes n : batch_local (set_writes n).
Proof. intros B. split; reflexivity. Qed.

Lemma local_set_writeSize n : batch_local (set_writeSize n).
Proof. intros B. split; reflexivity. Qed.

(** *** The open batch and the batch with the engine *)

Lemma is_open_update b f w :
  batch_local f -> is_open b w -> is_open b (update_batch b f w).
Proof.
  intros Hf (Hc & Hwc & Hlen & Hnr & Hs).
  assert (Hg : get_batch b (update_batch b f w) = f (get_batch b w))
    by now apply PersistedSpec.get_batch_update_same.
  unfold is_open. rewrite Hg.
  destruct (Hf (get_batch b w)) as [-> ->].
  rewrite PersistedSpec.length_batches_update.
  repeat split; auto.
Qed.

Lemma is_written_update p ops b f w :
  p <> b -> is_written p ops w -> is_written p ops (update_batch b f w).
Proof.
  intros Hne (Hfl & Hlen & Hnr & v & Hv).
  unfold is_written, flushed_from.
  rewrite PersistedSpec.length_batches_update, get_batch_update_other by auto.
  repeat split; auto. now exists v.
Qed.

Lemma phase_update b f w :
  batch_local f -> currentWriteBatch w = Some b -> phase w ->
  phase (update_batch b f w).
Proof.
  intros Hf Hc Hp.
  destruct Hp as [Hc' _ _ _ _ _ | b' Ho Hpend Hfl Hres | p ops Hw Hc' _ _ _ _
                 | p ops b' Hw Ho Hne Hpend Hlwc].
  - congruence.
  - assert (b' = b) by (destruct Ho as [? _]; congruence). subst b'.
    apply phase_open with b; auto.
    + now apply is_open_update.
    + intros p. rewrite PersistedSpec.get_batch_update_same
        by (destruct Ho as (_ & _ & ? & _); assumption).
      destruct (Hf (get_batch b w)) as [_ ->]. apply Hres.
  - congruence.
  - assert (b' = b) by (destruct Ho as [? _]; congruence). subst b'.
    apply phase_writing_open with p ops b; auto.
    + now apply is_written_update.
    + now apply is_open_update.
    + rewrite PersistedSpec.get_batch_update_same
        by (destruct Ho as (_ & _ & ? & _); assumption).
      destruct (Hf (get_batch b w)) as [_ ->]. exact Hlwc.
Qed.

Lemma batcher_ok_update b f w :
  batch_local f -> (forall B, batch_ok B -> batch_ok (f B)) ->
  currentWriteBatch w = Some b -> batcher_ok w ->
  batcher_ok (update_batch b f w).
Proof.
  intros Hf Hok Hc (Hp & Hb & Hnd & Hr & Hall).
  split; [now apply phase_update|].
  split; [now apply PersistedSpec.Forall_list_update|].
  split; [exact Hnd|].
  split; intros x; rewrite PersistedSpec.length_batches_update; auto.
Qed.

Lemma current_update b f w :
  currentWriteBatch (update_batch b f w) = currentWriteBatch w.
Proof. reflexivity. Qed.

(** *** Handing a batch to the engine *)

Lemma batcher_ok_commitOperations b w :
  currentWriteBatch w = Some b -> batcher_ok w ->
  batcher_ok (commitOperations b w).
Proof.
  intros Hc (Hp & Hb & Hnd & Hr & Hall). unfold commitOperations.
  destruct (armed (get_batch b w)) eqn:Ha;
    [|repeat split; assumption].
  assert (Hopen : is_open b w).
  { destruct Hp as [Hc' _ _ _ _ _ | b' Ho _ _ _ | p ops _ Hc' _ _ _ _
                   | p ops b' _ Ho _ _ _]; try congruence;
      (assert (b' = b) by (destruct Ho as [? _]; congruence)); now subst b'. }
  destruct Hopen as (_ & Hwc & Hlen & Hnr & Hs).
  destruct Hs as [(_ & Htm & Haw) | (Hd & _)]; [|congruence].
  assert (Hg : nth b (list_update b disarm (batches w)) empty_batch
               = disarm (get_batch b w)).
  { unfold get_batch. rewrite PersistedSpec.nth_list_update_same.
    apply Nat.ltb_lt in Hlen. now rewrite Hlen. }
  assert (Hrm : remove_first b [b] = [])
    by (simpl; now rewrite Nat.eqb_refl).
  assert (Hbs : Forall batch_ok (list_update b disarm (batches w))).
  { apply PersistedSpec.Forall_list_update; [|exact Hb].
    intros B. now apply batch_ok_entries. }
  assert (Hoth : forall p, p <> b ->
            nth p (list_update b disarm (batches w)) empty_batch
            = get_batch p w).
  { intros p Hp'. unfold get_batch.
    apply PersistedSpec.nth_list_update_other. congruence. }
  destruct (lastWriteCompletion (get_batch b w)) as [q|] eqn:Hl; simpl.
  - (* the flush waits for the completion of the batch before *)
    assert (Ho' : is_open b
              (with_awaiting (awaiting w ++ [b])
                 (with_timers (remove_first b (timers w))
                    (update_batch b disarm w)))).
    { unfold is_open, get_batch. simpl.
      rewrite Hg, PersistedSpec.length_list_update, Htm, Haw, Hrm. simpl.
      repeat split; auto. right. rewrite Hl. repeat split; congruence. }
    split.
    + destruct Hp as [Hc' _ _ _ _ _ | b' Ho Hpend Hfl Hres
                     | p ops _ Hc' _ _ _ _ | p ops b' Hw Ho Hne Hpend Hlwc];
        try congruence;
        (assert (b' = b) by (destruct Ho as [? _]; congruence)); subst b'.
      * apply phase_open with b; auto. unfold get_batch. simpl.
        rewrite Hg. simpl. exact Hres.
      * apply phase_writing_open with p ops b; auto.
        -- destruct Hw as (Hfl & Hlp & Hnp & v & Hv).
           unfold is_written, flushed_from, get_batch. simpl.
           rewrite Hoth, PersistedSpec.length_list_update by auto.
           repeat split; auto. now exists v.
        -- unfold get_batch. simpl. rewrite Hg. simpl. congruence.
    + simpl. rewrite PersistedSpec.length_list_update.
      repeat split; auto.
  - (* the flush runs at once *)
    destruct Hp as [Hc' _ _ _ _ _ | b' Ho Hpend Hfl Hres
                   | p ops _ Hc' _ _ _ _ | p ops b' Hw Ho Hne Hpend Hlwc];
      try congruence;
      (assert (b' = b) by (destruct Ho as [? _]; congruence)); subst b';
      [|congruence].
    unfold flush, get_batch. simpl. rewrite Hg. simpl.
    split.
    + apply phase_writing with b
        (map_values (entries (get_batch b w))
           ++ [mkOperation op_put LAST_VERSION_IN_DB_KEY
                 (Some (OVNumber (lastVersion w)))]); simpl; auto.
      * unfold is_written, flushed_from, get_batch. simpl.
        rewrite Hg, PersistedSpec.length_list_update, Hfl. simpl.
        repeat split; auto. now exists (lastVersion w).
      * now rewrite Htm, Hrm.
    + simpl. rewrite PersistedSpec.length_list_update. repeat split; auto.
Qed.

Lemma current_commitOperations b w :
  currentWriteBatch (commitOperations b w) = None
  \/ currentWriteBatch (commitOperations b w) = currentWriteBatch w.
Proof. apply PersistedSpec.range_commitOperations. Qed.

(** *** Opening a batch *)

Lemma batcher_ok_lastVersion v w :
  batcher_ok w -> batcher_ok (with_lastVersion v w).
Proof.
  intros (Hp & Hrest). split; [|exact Hrest].
  destruct Hp as [? ? ? ? ? ? | b Ho ? ? ? | p ops Hw ? ? ? ? ?
                 | p ops b Hw Ho ? ? ?].
  - now apply phase_idle.
  - now apply phase_open with b.
  - now apply phase_writing with p ops.
  - now apply phase_writing_open with p ops b.
Qed.

Lemma nth_app_length {A : Type} (l : list A) (x d : A) :
  nth (length l) (l ++ [x]) d = x.
Proof. rewrite app_nth2, Nat.sub_diag by lia. reflexivity. Qed.

Lemma batcher_ok_current_or_open w :
  batcher_ok w ->
  let w1 := fst (current_or_open w) in
  let b := snd (current_or_open w) in
  batcher_ok w1 /\ currentWriteBatch w1 = Some b
  /\ exists older, pendingWrites w1 = older ++ [b].
Proof.
  intros Hok. unfold current_or_open.
  destruct (currentWriteBatch w) as [b|] eqn:Hc; simpl.
  - split; [exact Hok|]. split; [exact Hc|].
    destruct Hok as (Hp & _).
    destruct Hp as [Hc' _ _ _ _ _ | b' Ho Hpend _ _ | p ops _ Hc' _ _ _ _
                   | p ops b' _ Ho _ Hpend _]; try congruence;
      (assert (b' = b) by (destruct Ho as [? _]; congruence)); subst b'.
    + exists []. now rewrite Hpend.
    + exists [p]. now rewrite Hpend.
  - destruct Hok as (Hp & Hb & Hnd & Hr & Hall).
    assert (Hfresh : ~ In (length (batches w)) (resolved w)).
    { intros H. apply Hr in H. lia. }
    split; [|split; [reflexivity|exists (pendingWrites w); auto]].
    split.
    + destruct Hp as [_ Hwc Hpend Hfl Htm Haw | b' Ho _ _ _
                     | p ops Hw _ Hwc Hpend Htm Haw | p ops b' _ Ho _ _ _];
        try (destruct Ho as [? _]; congruence).
      * apply phase_open with (length (batches w)); simpl; auto.
        -- unfold is_open, get_batch. simpl.
           rewrite nth_app_length, length_app, Htm, Haw. simpl.
           repeat split; auto. lia.
        -- now rewrite Hpend.
        -- unfold get_batch. simpl. rewrite nth_app_length. simpl.
           rewrite Hwc. discriminate.
      * destruct Hw as (Hfl & Hlp & Hnp & v & Hv).
        apply phase_writing_open with p ops (length (batches w)); simpl.
        -- unfold is_written, flushed_from, get_batch. simpl.
           rewrite length_app, app_nth1 by assumption. simpl.
           repeat split; auto; [lia|]. now exists v.
        -- unfold is_open, get_batch. simpl.
           rewrite nth_app_length, length_app, Htm, Haw. simpl.
           repeat split; auto. lia.
        -- lia.
        -- now rewrite Hpend.
        -- unfold get_batch. simpl. rewrite nth_app_length. simpl.
           exact Hwc.
    + simpl. split.
      { apply Forall_app. split; [exact Hb|]. constructor; [|constructor].
        split; simpl; constructor. }
      split; [exact Hnd|].
      split; intros x; rewrite length_app; simpl.
      * intros H. apply Hr in H. lia.
      * intros H. destruct (Nat.eq_dec x (length (batches w))) as [-> | Hne].
        -- right. apply in_or_app. right. now left.
        -- destruct (Hall x) as [H1 | H1]; [lia|now left|].
           right. apply in_or_app. now left.
Qed.

(** *** One call of dbPut *)

Lemma batcher_ok_record_operation key value b w :
  currentWriteBatch w = Some b -> batcher_ok w ->
  batcher_ok (record_operation key value b w).
Proof.
  intros Hc Hok. unfold Persisted.record_operation.
  assert (H2 : batcher_ok
                 (update_batch b
                    (set_operation key (operation_of key value)) w)).
  { apply batcher_ok_update; auto using local_set_operation,
      batch_ok_set_operation. }
  set (w2 := update_batch b (set_operation key (operation_of key value)) w)
    in *.
  assert (H3 : batcher_ok
                 (update_batch b (set_writes (writes (get_batch b w2) + 1))
                    w2)).
  { apply batcher_ok_update; auto using local_set_writes. }
  set (w3 := update_batch b (set_writes (writes (get_batch b w2) + 1)) w2)
    in *.
  destruct (100 <? writes (get_batch b w2)).
  - now apply batcher_ok_commitOperations.
  - destruct value as [s|]; [|exact H3].
    destruct (string_truthy s); [|exact H3].
    assert (H4 : batcher_ok
                   (update_batch b
                      (set_writeSize
                         (writeSize (get_batch b w3) + value_length s)) w3)).
    { apply batcher_ok_update; auto using local_set_writeSize. }
    destruct (100000 <? writeSize (get_batch b w3) + value_length s);
      [now apply batcher_ok_commitOperations | exact H4].
Qed.

Lemma batcher_ok_dbPut key value version nextVersion w :
  batcher_ok w -> batcher_ok (fst (dbPut key value version nextVersion w)).
Proof.
  intros Hok. rewrite PersistedSpec.dbPut_eq. cbv zeta.
  destruct (batcher_ok_current_or_open
              (with_lastVersion
                 (Z.max (lastVersion w)
                    (effective_version version nextVersion)) w))
    as (H1 & H2 & _).
  { now apply batcher_ok_lastVersion. }
  now apply batcher_ok_record_operation.
Qed.

(** *** The other events *)

(** The invariant reads the fields of the batcher only. *)
Lemma batcher_ok_frame w w' :
  batches w' = batches w -> pendingWrites w' = pendingWrites w ->
  currentWriteBatch w' = currentWriteBatch w ->
  writeCompletion w' = writeCompletion w ->
  timers w' = timers w -> awaiting w' = awaiting w ->
  in_flight w' = in_flight w -> resolved w' = resolved w ->
  batcher_ok w -> batcher_ok w'.
Proof.
  intros E1 E2 E3 E4 E5 E6 E7 E8 (Hp & Hrest).
  unfold Persisted.batcher_ok. rewrite E1, E2, E8. split; [|exact Hrest].
  assert (Ho : forall b, is_open b w -> is_open b w').
  { intros b. unfold is_open, get_batch.
    now rewrite E1, E3, E4, E5, E6, E8. }
  assert (Hw : forall p ops, is_written p ops w -> is_written p ops w').
  { intros p ops. unfold is_written, flushed_from, get_batch.
    now rewrite E1, E7, E8. }
  destruct Hp as [? ? ? ? ? ? | b Hb ? ? Hres | p ops Hwr ? ? ? ? ?
                 | p ops b Hwr Hb ? ? Hl].
  - apply phase_idle; congruence.
  - apply phase_open with b; auto; try congruence.
    unfold get_batch in *. rewrite E1, E8. exact Hres.
  - apply phase_writing with p ops; auto; congruence.
  - apply phase_writing_open with p ops b; auto; try congruence.
    unfold get_batch in *. now rewrite E1.
Qed.

Lemma phase_timer b w :
  phase w -> mem b (timers w) = true -> currentWriteBatch w = Some b.
Proof.
  intros Hp Hm. apply PersistedSpec.mem_In in Hm.
  destruct Hp as [_ _ _ _ Ht _ | b' Ho _ _ _ | p ops _ _ _ _ Ht _
                 | p ops b' _ Ho _ _ _];
    try (rewrite Ht in Hm; contradiction);
    destruct Ho as (Hc & _ & _ & _ & [(_ & Ht & _) | (_ & Ht & _)]);
    rewrite Ht in Hm; simpl in Hm; try tauto;
    destruct Hm as [<- | []]; exact Hc.
Qed.

Lemma batcher_ok_deferred_flush b w :
  batcher_ok w ->
  mem b (awaiting w) && previous_resolved b w = true ->
  batcher_ok (flush b (with_awaiting (remove_first b (awaiting w)) w)).
Proof.
  intros (Hp & Hb & Hnd & Hr & Hall) Hm.
  apply andb_true_iff in Hm. destruct Hm as [Hm Hprev].
  apply PersistedSpec.mem_In in Hm.
  assert (Hrm : remove_first b [b] = [])
    by (simpl; now rewrite Nat.eqb_refl).
  destruct Hp as [_ _ _ _ _ Ha | b' Ho Hpend Hfl Hres | p ops _ _ _ _ _ Ha
                 | p ops b' Hw Ho Hne Hpend Hlwc];
    try (rewrite Ha in Hm; contradiction).
  - destruct Ho as (Hc & Hwc & Hlen & Hnr & [(_ & _ & Ha) | (Hd & Ht & Ha & _)]);
      rewrite Ha in Hm; simpl in Hm; [contradiction|].
    destruct Hm as [<- | []].
    split; [|repeat split; assumption].
    apply phase_writing with b'
      (map_values (entries (get_batch b' w))
         ++ [mkOperation op_put LAST_VERSION_IN_DB_KEY
               (Some (OVNumber (lastVersion w)))]); simpl; auto.
    + unfold is_written, flushed_from. simpl. rewrite Hfl.
      repeat split; auto. now exists (lastVersion w).
    + now rewrite Ha, Hrm.
  - destruct Ho as (Hc & Hwc & Hlen & Hnr & [(_ & _ & Ha) | (Hd & Ht & Ha & _)]);
      rewrite Ha in Hm; simpl in Hm; [contradiction|].
    destruct Hm as [<- | []].
    unfold previous_resolved in Hprev. rewrite Hlwc in Hprev.
    apply PersistedSpec.mem_In in Hprev.
    destruct Hw as (_ & _ & Hnp & _). contradiction.
Qed.

Lemma batcher_ok_finished b ops w :
  batcher_ok w -> find_in_flight b (in_flight w) = Some ops ->
  batcher_ok (finished b (with_in_flight (drop_in_flight b (in_flight w)) w)).
Proof.
  intros (Hp & Hb & Hnd & Hr & Hall) Hf.
  assert (Hnd' : forall p, ~ In p (resolved w) -> NoDup (resolved w ++ [p])).
  { intros p Hn. apply NoDup_app; [assumption | repeat constructor; tauto|].
    intros x Hx [<- | []]. contradiction. }
  destruct Hp as [_ _ _ Hfl _ _ | b' _ _ Hfl _
                 | p ops' Hw Hc Hwc Hpend Ht Ha
                 | p ops' b' Hw Ho Hne Hpend Hlwc];
    try (rewrite Hfl in Hf; discriminate).
  - destruct Hw as (Hfl & Hlp & Hnp & Hv).
    rewrite Hfl in Hf. simpl in Hf.
    destruct (Nat.eqb p b) eqn:E; [|discriminate].
    apply Nat.eqb_eq in E. subst p.
    unfold finished, splice_indexOf. simpl.
    rewrite Hpend, Hwc, Hfl. simpl. rewrite !Nat.eqb_refl. simpl.
    split; [apply phase_idle; auto|].
    split; [exact Hb|]. split; [now apply Hnd'|].
    split; intros x Hx.
    + apply in_app_or in Hx. destruct Hx as [Hx | [<- | []]]; auto.
    + destruct (Hall x Hx) as [H1 | H1]; [left; apply in_or_app; now left|].
      rewrite Hpend in H1. destruct H1 as [<- | []].
      left. apply in_or_app. right. now left.
  - destruct Hw as (Hfl & Hlp & Hnp & Hv).
    rewrite Hfl in Hf. simpl in Hf.
    destruct (Nat.eqb p b) eqn:E; [|discriminate].
    apply Nat.eqb_eq in E. subst p.
    destruct Ho as (Hc & Hwc & Hlen & Hnr & Hs).
    assert (Eb : Nat.eqb b' b = false) by (apply Nat.eqb_neq; congruence).
    unfold finished, splice_indexOf. simpl.
    rewrite Hpend, Hwc, Hfl. simpl. rewrite !Nat.eqb_refl, Eb. simpl.
    split.
    + apply phase_open with b'; simpl; auto.
      * unfold is_open, get_batch in *. simpl. repeat split; auto.
        intros Hx. apply in_app_or in Hx.
        destruct Hx as [Hx | [Hx | []]]; [contradiction | congruence].
      * unfold get_batch in *. simpl. intros q Hq.
        rewrite Hlwc in Hq. injection Hq as <-.
        apply in_or_app. right. now left.
    + split; [exact Hb|]. split; [now apply Hnd'|].
      split; intros x Hx.
      * apply in_app_or in Hx. destruct Hx as [Hx | [<- | []]]; auto.
      * destruct (Hall x Hx) as [H1 | H1]; [left; apply in_or_app; now left|].
        rewrite Hpend in H1. destruct H1 as [<- | [<- | []]].
        -- left. apply in_or_app. right. now left.
        -- right. now left.
Qed.

Lemma batcher_ok_step e w : batcher_ok w -> batcher_ok (step e w).
Proof.
  intros Hok. destruct e as [key value version nv | b | b | b | b]; simpl.
  - now apply batcher_ok_dbPut.
  - destruct (mem b (timers w)) eqn:Hm; [|exact Hok].
    apply batcher_ok_commitOperations; [|exact Hok].
    destruct Hok as [Hp _]. now apply phase_timer.
  - destruct (mem b (awaiting w) && previous_resolved b w) eqn:Hm;
      [|exact Hok].
    now apply batcher_ok_deferred_flush.
  - destruct (find_in_flight b (in_flight w)) as [ops|] eqn:Hf; [|exact Hok].
    eapply batcher_ok_frame;
      [..| exact (batcher_ok_finished b ops w Hok Hf)];
      unfold finished; simpl; destruct (writeCompletion w) as [p|];
      try destruct (Nat.eqb p b); reflexivity.
  - destruct (find_in_flight b (in_flight w)) as [ops|] eqn:Hf; [|exact Hok].
    eapply batcher_ok_frame;
      [..| exact (batcher_ok_finished b ops w Hok Hf)];
      unfold finished; simpl; destruct (writeCompletion w) as [p|];
      try destruct (Nat.eqb p b); reflexivity.
Qed.

Lemma batcher_ok_new l0 rows : batcher_ok (new_Writer l0 rows).
Proof.
  split; [now apply phase_idle|]. simpl.
  repeat split; try constructor; try contradiction.
  lia.
Qed.

Lemma batcher_ok_run tr w : batcher_ok w -> batcher_ok (run tr w).
Proof.
  revert w. induction tr as [|e tr IH]; intros w Hok; [exact Hok|].
  simpl. apply IH. now apply batcher_ok_step.
Qed.

(** *** What a read sees *)

Lemma same_reads_refl w : same_reads w w.
Proof. repeat split. Qed.

Lemma same_reads_trans w1 w2 w3 :
  same_reads w1 w2 -> same_reads w2 w3 -> same_reads w1 w3.
Proof.
  intros (A1 & A2 & A3) (B1 & B2 & B3).
  split; [congruence|]. split; [congruence|].
  intros b. now rewrite B3.
Qed.

Lemma pending_lookup_entries key l w w' :
  (forall b, entries (get_batch b w') = entries (get_batch b w)) ->
  pending_lookup key l w' = pending_lookup key l w.
Proof.
  intros H. induction l as [|b l IH]; simpl; [reflexivity|].
  now rewrite H, IH.
Qed.

Lemma dbGet_same_reads key w w' :
  same_reads w w' -> dbGet key w' = dbGet key w.
Proof.
  intros (H1 & H2 & H3). unfold Persisted.dbGet.
  now rewrite H1, H2, (pending_lookup_entries key _ w w' H3).
Qed.

Lemma entries_list_update (f : WriteBatch -> WriteBatch) (b b' : nat)
  (l : list WriteBatch) :
  (forall B, entries (f B) = entries B) ->
  entries (nth b' (list_update b f l) empty_batch)
  = entries (nth b' l empty_batch).
Proof.
  intros Hf. revert b b'.
  induction l as [|B l IH]; intros b b'; [now destruct b|].
  destruct b, b'; simpl; auto.
Qed.

Lemma same_reads_update b f w :
  (forall B, entries (f B) = entries B) -> same_reads w (update_batch b f w).
Proof.
  intros Hf. repeat split. intros b'. unfold get_batch. simpl.
  now apply entries_list_update.
Qed.

Lemma same_reads_flush b w : same_reads w (flush b w).
Proof. repeat split. Qed.

Lemma same_reads_commitOperations b w : same_reads w (commitOperations b w).
Proof.
  unfold commitOperations. destruct (armed (get_batch b w));
    [|apply same_reads_refl].
  assert (H : same_reads w (update_batch b disarm w))
    by now apply same_reads_update.
  destruct (when_defers (lastWriteCompletion (get_batch b w)));
    (eapply same_reads_trans; [exact H|]); repeat split.
Qed.

(** [record_operation] enters the operation under [key] in batch [b] and
    leaves everything else a read looks at alone. *)
Lemma record_operation_reads key value b w :
  (b < length (batches w))%nat ->
  let w' := record_operation key value b w in
  pendingWrites w' = pendingWrites w /\ table w' = table w
  /\ entries (get_batch b w')
     = map_set same_value_zero key (operation_of key value)
         (entries (get_batch b w))
  /\ forall b', b' <> b -> entries (get_batch b' w') = entries (get_batch b' w).
Proof.
  intros Hlen w'.
  set (w2 := update_batch b (set_operation key (operation_of key value)) w).
  assert (H : same_reads w2 w').
  { unfold w', Persisted.record_operation. fold w2.
    set (w3 := update_batch b (set_writes (writes (get_batch b w2) + 1)) w2).
    assert (H3 : same_reads w2 w3) by now apply same_reads_update.
    destruct (100 <? writes (get_batch b w2)).
    - eapply same_reads_trans; [exact H3|apply same_reads_commitOperations].
    - destruct value as [s|]; [|exact H3].
      destruct (string_truthy s); [|exact H3].
      set (w4 := update_batch b
                   (set_writeSize
                      (writeSize (get_batch b w3) + value_length s)) w3).
      assert (H4 : same_reads w3 w4) by now apply same_reads_update.
      destruct (100000 <? writeSize (get_batch b w3) + value_length s).
      + eapply same_reads_trans; [exact H3|].
        eapply same_reads_trans; [exact H4|apply same_reads_commitOperations].
      + eapply same_reads_trans; [exact H3|exact H4]. }
  destruct H as (H1 & H2 & H3).
  split; [exact H1|]. split; [exact H2|]. split.
  - rewrite H3. unfold w2.
    now rewrite PersistedSpec.get_batch_update_same.
  - intros b' Hne. rewrite H3. unfold w2.
    now rewrite get_batch_update_other by congruence.
Qed.

(** Opening a batch shows nothing new to a read. *)
Lemma current_or_open_reads key w :
  dbGet key (fst (current_or_open w)) = dbGet key w.
Proof.
  unfold current_or_open. destruct (currentWriteBatch w); [reflexivity|].
  unfold Persisted.dbGet. simpl. rewrite rev_app_distr. simpl.
  assert (He : forall b,
             entries (nth b (batches w ++ [mkWriteBatch [] 0 0 true
                                            (writeCompletion w)])
                        empty_batch)
             = entries (get_batch b w)).
  { intros b. unfold get_batch.
    destruct (Nat.lt_ge_cases b (length (batches w))) as [Hlt | Hge].
    - now rewrite app_nth1.
    - rewrite (nth_overflow (batches w)) by assumption.
      destruct (Nat.eq_dec b (length (batches w))) as [-> | Hne].
      + now rewrite nth_app_length.
      + rewrite nth_overflow; [reflexivity|]. rewrite length_app. simpl. lia. }
  unfold get_batch at 1. simpl. rewrite He.
  assert (Hnone : map_get same_value_zero key
                    (entries (get_batch (length (batches w)) w)) = None).
  { unfold get_batch. now rewrite nth_overflow by lia. }
  rewrite Hnone.
  rewrite (pending_lookup_entries key _ w); [reflexivity|].
  intros b. unfold get_batch at 1. simpl. apply He.
Qed.

Lemma is_open_in_range b w : is_open b w -> (b < length (batches w))%nat.
Proof. now intros (_ & _ & H & _). Qed.

Lemma current_in_range b w :
  batcher_ok w -> currentWriteBatch w = Some b ->
  (b < length (batches w))%nat.
Proof.
  intros (Hp & _) Hc.
  destruct Hp as [Hc' _ _ _ _ _ | b' Ho _ _ _ | p ops _ Hc' _ _ _ _
                 | p ops b' _ Ho _ _ _]; try congruence;
    (assert (b' = b) by (destruct Ho as [? _]; congruence)); subst b';
    now apply is_open_in_range.
Qed.

Lemma op_value_operation_of key value :
  op_value (operation_of key value) = stored value.
Proof. now destruct value. Qed.

Lemma dbGet_dbPut key value version nextVersion key' w :
  batcher_ok w ->
  dbGet key' (fst (dbPut key value version nextVersion w))
  = if same_value_zero key' key then stored value else dbGet key' w.
Proof.
  intros Hok. rewrite PersistedSpec.dbPut_eq. cbv zeta.
  set (w0 := with_lastVersion
               (Z.max (lastVersion w) (effective_version version nextVersion))
               w).
  assert (Hok0 : batcher_ok w0) by now apply batcher_ok_lastVersion.
  destruct (batcher_ok_current_or_open w0 Hok0) as (H1 & H2 & older & H3).
  set (w1 := fst (current_or_open w0)) in *.
  set (b := snd (current_or_open w0)) in *.
  assert (Hlen : (b < length (batches w1))%nat)
    by now apply current_in_range.
  destruct (record_operation_reads key value b w1 Hlen)
    as (R1 & R2 & R3 & R4).
  assert (Hw1 : dbGet key' w1 = dbGet key' w)
    by (unfold w1; rewrite current_or_open_reads;
        apply dbGet_same_reads; repeat split).
  rewrite <- Hw1. unfold Persisted.dbGet.
  rewrite R1, R2, H3, rev_app_distr. simpl. rewrite R3.
  destruct (same_value_zero key' key) eqn:E.
  - apply same_value_zero_eq in E. subst key'.
    rewrite (map_get_set_same same_value_zero same_value_zero_eq).
    apply op_value_operation_of.
  - apply same_value_zero_neq in E.
    rewrite (map_get_set_other same_value_zero same_value_zero_eq)
      by assumption.
    destruct (map_get same_value_zero key' (entries (get_batch b w1)));
      [reflexivity|].
    assert (Hl : forall l, ~ In b l ->
               pending_lookup key' l (record_operation key value b w1)
               = pending_lookup key' l w1).
    { induction l as [|x l IH]; simpl; [reflexivity|]. intros Hn.
      rewrite R4 by tauto. now rewrite IH by tauto. }
    rewrite Hl; [reflexivity|].
    (* the open batch is pending once *)
    intros Hin. apply in_rev in Hin.
    destruct H1 as (Hp & _ & _ & _ & _).
    destruct Hp as [Hc' _ _ _ _ _ | b' Ho Hpend _ _ | p ops _ Hc' _ _ _ _
                   | p ops b' _ Ho Hne Hpend _]; try congruence;
      (assert (b' = b) by (destruct Ho as [? _]; congruence)); subst b';
      rewrite Hpend in H3.
    + symmetry in H3. apply (app_inj_tail older [] b b) in H3.
      destruct H3 as [-> _]. contradiction.
    + symmetry in H3. apply (app_inj_tail older [p] b b) in H3.
      destruct H3 as [-> _]. destruct Hin as [-> | []]. congruence.
Qed.

(** *** The rows of the engine *)

Lemma map_get_notin {K V : Type} (eqb : K -> K -> bool)
  (eqb_eq : forall a b, eqb a b = true <-> a = b) (k : K)
  (m : list (K * V)) :
  ~ In k (map fst m) -> map_get eqb k m = None.
Proof.
  induction m as [|[k' v'] m IH]; simpl; [reflexivity|]. intros Hn.
  destruct (eqb k k') eqn:E.
  - apply eqb_eq in E. subst k'. tauto.
  - apply IH. tauto.
Qed.

Lemma map_get_delete_same {K V : Type} (eqb : K -> K -> bool)
  (eqb_eq : forall a b, eqb a b = true <-> a = b) (k : K)
  (m : list (K * V)) :
  NoDup (map fst m) -> map_get eqb k (map_delete eqb k m) = None.
Proof.
  induction m as [|[k' v'] m IH]; simpl; [reflexivity|]. intros Hn.
  inversion Hn as [|x l Hx Hl]; subst.
  destruct (eqb k k') eqn:E.
  - apply eqb_eq in E. subst k'. now apply map_get_notin.
  - simpl. rewrite E. now apply IH.
Qed.

Lemma NoDup_apply_operation t o :
  NoDup (map fst t) -> NoDup (map fst (apply_operation t o)).
Proof.
  intros H. unfold apply_operation.
  destruct (op_type o), (op_value o);
    try exact H;
    try (now apply (map_set_NoDup bytes_eqb PersistedSpec.bytes_eqb_eq));
    now apply map_delete_NoDup.
Qed.

Lemma NoDup_apply_batch ops t :
  NoDup (map fst t) -> NoDup (map fst (apply_batch ops t)).
Proof.
  revert t. unfold apply_batch.
  induction ops as [|o ops IH]; intros t H; simpl; [exact H|].
  apply IH. now apply NoDup_apply_operation.
Qed.

Lemma table_finished b w : table (finished b w) = table w.
Proof.
  unfold finished. simpl. destruct (writeCompletion w) as [p|];
    [destruct (Nat.eqb p b)|]; reflexivity.
Qed.

Lemma batches_finished b w : batches (finished b w) = batches w.
Proof.
  unfold finished. simpl. destruct (writeCompletion w) as [p|];
    [destruct (Nat.eqb p b)|]; reflexivity.
Qed.

Lemma pendingWrites_finished b w :
  pendingWrites (finished b w) = splice_indexOf b (pendingWrites w).
Proof.
  unfold finished. simpl. destruct (writeCompletion w) as [p|];
    [destruct (Nat.eqb p b)|]; reflexivity.
Qed.

Lemma record_operation_same_reads key value b w :
  same_reads
    (update_batch b (set_operation key (operation_of key value)) w)
    (record_operation key value b w).
Proof.
  set (w2 := update_batch b (set_operation key (operation_of key value)) w).
  unfold Persisted.record_operation. fold w2.
  set (w3 := update_batch b (set_writes (writes (get_batch b w2) + 1)) w2).
  assert (H3 : same_reads w2 w3) by now apply same_reads_update.
  destruct (100 <? writes (get_batch b w2)).
  - eapply same_reads_trans; [exact H3|apply same_reads_commitOperations].
  - destruct value as [s|]; [|exact H3].
    destruct (string_truthy s); [|exact H3].
    set (w4 := update_batch b
                 (set_writeSize
                    (writeSize (get_batch b w3) + value_length s)) w3).
    assert (H4 : same_reads w3 w4) by now apply same_reads_update.
    destruct (100000 <? writeSize (get_batch b w3) + value_length s).
    + eapply same_reads_trans; [exact H3|].
      eapply same_reads_trans; [exact H4|apply same_reads_commitOperations].
    + eapply same_reads_trans; [exact H3|exact H4].
Qed.

Lemma table_dbPut key value version nextVersion w :
  table (fst (dbPut key value version nextVersion w)) = table w.
Proof.
  rewrite PersistedSpec.dbPut_eq. cbv zeta.
  destruct (record_operation_same_reads key value
              (snd (current_or_open
                      (with_lastVersion
                         (Z.max (lastVersion w)
                            (effective_version version nextVersion)) w)))
              (fst (current_or_open
                      (with_lastVersion
                         (Z.max (lastVersion w)
                            (effective_version version nextVersion)) w))))
    as (_ & -> & _).
  simpl. unfold current_or_open. simpl.
  now destruct (currentWriteBatch w).
Qed.

Lemma NoDup_table_step e w :
  NoDup (map fst (table w)) -> NoDup (map fst (table (step e w))).
Proof.
  intros H. destruct e as [key value version nv | b | b | b | b]; simpl.
  - now rewrite table_dbPut.
  - destruct (mem b (timers w)); [|exact H].
    destruct (same_reads_commitOperations b w) as (_ & -> & _). exact H.
  - destruct (mem b (awaiting w) && previous_resolved b w); exact H.
  - destruct (find_in_flight b (in_flight w)); [|exact H].
    rewrite table_finished. simpl. now apply NoDup_apply_batch.
  - destruct (find_in_flight b (in_flight w)); [|exact H].
    rewrite table_finished. exact H.
Qed.

Lemma NoDup_table_run tr w :
  NoDup (map fst (table w)) -> NoDup (map fst (table (run tr w))).
Proof.
  revert w. induction tr as [|e tr IH]; intros w H; [exact H|].
  simpl. apply IH. now apply NoDup_table_step.
Qed.

(** The row of [key] after a batch has been written: what the batch said
    about [key], otherwise the row as it was. *)
Lemma table_after_batch key es v t :
  toBufferKey key <> LAST_VERSION_IN_DB_KEY ->
  NoDup (map fst es) ->
  Forall (fun ko => exists value, snd ko = operation_of (fst ko) value) es ->
  (forall k, In k (map fst es) -> toBufferKey k = toBufferKey key -> k = key) ->
  NoDup (map fst t) ->
  map_get bytes_eqb (toBufferKey key)
    (apply_batch (map_values es ++ [watermark v]) t)
  = match map_get same_value_zero key es with
    | Some o => op_value o
    | None => map_get bytes_eqb (toBufferKey key) t
    end.
Proof.
  intros Hres. revert t.
  induction es as [|[k o] es IH]; intros t Hnd Hf Hinj Ht.
  - simpl. unfold apply_batch. simpl. unfold apply_operation. simpl.
    apply (map_get_set_other bytes_eqb PersistedSpec.bytes_eqb_eq).
    exact Hres.
  - simpl in Hnd. inversion Hnd as [|x l Hx Hl]; subst.
    inversion Hf as [|x l [value Hv] Hf']; subst. simpl in Hv. subst o.
    unfold apply_batch, map_values in *. simpl.
    rewrite IH; auto.
    + destruct (same_value_zero key k) eqn:E.
      * apply same_value_zero_eq in E. subst k.
        rewrite (map_get_notin same_value_zero same_value_zero_eq)
          by assumption.
        unfold apply_operation, Persisted.operation_of.
        destruct value as [s|]; simpl.
        -- apply (map_get_set_same bytes_eqb PersistedSpec.bytes_eqb_eq).
        -- now apply (map_get_delete_same bytes_eqb
                        PersistedSpec.bytes_eqb_eq).
      * apply same_value_zero_neq in E.
        assert (Hk : toBufferKey key <> toBufferKey k).
        { intros Heq. apply E. symmetry. apply Hinj; [now left|].
          now symmetry. }
        destruct (map_get same_value_zero key es); [reflexivity|].
        unfold apply_operation, Persisted.operation_of.
        destruct value as [s|]; simpl.
        -- now apply (map_get_set_other bytes_eqb
                        PersistedSpec.bytes_eqb_eq).
        -- now apply (map_get_delete_other bytes_eqb
                        PersistedSpec.bytes_eqb_eq).
    + intros k' Hk'. apply Hinj. now right.
    + now apply NoDup_apply_operation.
Qed.

Lemma remove_first_head b l : remove_first b (b :: l) = l.
Proof. simpl. now rewrite Nat.eqb_refl. Qed.

Lemma splice_head b l : splice_indexOf b (b :: l) = l.
Proof.
  unfold splice_indexOf, mem. simpl. now rewrite Nat.eqb_refl.
Qed.

(** What a read looks at, in the two states with a batch at the engine *)
Lemma in_flight_cases b ops w :
  batcher_ok w -> find_in_flight b (in_flight w) = Some ops ->
  batch_ok (get_batch b w)
  /\ (exists v, ops = map_values (entries (get_batch b w)) ++ [watermark v])
  /\ ((pendingWrites w = [b] /\ currentWriteBatch w = None)
      \/ exists c, pendingWrites w = [b; c] /\ currentWriteBatch w = Some c).
Proof.
  intros (Hp & Hb & _) Hf.
  split; [now apply get_batch_ok|].
  destruct Hp as [_ _ _ Hfl _ _ | b' _ _ Hfl _
                 | p ops' (Hfl & _ & _ & Hv) Hc _ Hpend _ _
                 | p ops' c (Hfl & _ & _ & Hv) (Hc & _) _ Hpend _];
    try (rewrite Hfl in Hf; discriminate);
    rewrite Hfl in Hf; simpl in Hf;
    (destruct (Nat.eqb p b) eqn:E; [|discriminate]);
    apply Nat.eqb_eq in E; subst p; injection Hf as <-.
  - split; [exact Hv|]. now left.
  - split; [exact Hv|]. right. now exists c.
Qed.

Lemma dbGet_BatchWritten key b w :
  batcher_ok w -> NoDup (map fst (table w)) ->
  toBufferKey key <> LAST_VERSION_IN_DB_KEY ->
  (forall k, In k (map fst (entries (get_batch b w))) ->
             toBufferKey k = toBufferKey key -> k = key) ->
  dbGet key (step (BatchWritten b) w) = dbGet key w.
Proof.
  intros Hok Ht Hres Hinj. simpl.
  destruct (find_in_flight b (in_flight w)) as [ops|] eqn:Hf; [|reflexivity].
  destruct (in_flight_cases b ops w Hok Hf) as ((Hnd & Hfo) & (v & ->) & Hc).
  unfold Persisted.dbGet.
  rewrite pendingWrites_finished, table_finished. simpl.
  rewrite (pending_lookup_entries key _ w)
    by (intros x; unfold get_batch; now rewrite batches_finished).
  rewrite (table_after_batch key _ v (table w)) by assumption.
  destruct Hc as [(-> & _) | (c & -> & _)]; rewrite splice_head; simpl.
  - now destruct (map_get same_value_zero key (entries (get_batch b w))).
  - destruct (map_get same_value_zero key (entries (get_batch c w)));
      [reflexivity|].
    now destruct (map_get same_value_zero key (entries (get_batch b w))).
Qed.

Lemma dbGet_BatchFailed key b ops w :
  batcher_ok w -> find_in_flight b (in_flight w) = Some ops ->
  dbGet key (step (BatchFailed b) w)
  = match currentWriteBatch w with
    | Some c =>
        match map_get same_value_zero key (entries (get_batch c w)) with
        | Some o => op_value o
        | None => map_get bytes_eqb (toBufferKey key) (table w)
        end
    | None => map_get bytes_eqb (toBufferKey key) (table w)
    end.
Proof.
  intros Hok Hf. simpl. rewrite Hf.
  destruct (in_flight_cases b ops w Hok Hf) as (_ & _ & Hc).
  unfold Persisted.dbGet.
  rewrite pendingWrites_finished, table_finished. simpl.
  rewrite (pending_lookup_entries key _ w)
    by (intros x; unfold get_batch; now rewrite batches_finished).
  destruct Hc as [(-> & ->) | (c & -> & ->)]; rewrite splice_head; simpl;
    [reflexivity|].
  now destruct (map_get same_value_zero key (entries (get_batch c w))).
Qed.

(** *** The keys of the batches *)

Lemma entries_current_or_open b w :
  entries (get_batch b (fst (current_or_open w))) = entries (get_batch b w).
Proof.
  unfold current_or_open. destruct (currentWriteBatch w); [reflexivity|].
  unfold get_batch. simpl.
  destruct (Nat.lt_ge_cases b (length (batches w))) as [Hlt | Hge].
  - now rewrite app_nth1.
  - rewrite (nth_overflow (batches w)) by assumption.
    destruct (Nat.eq_dec b (length (batches w))) as [-> | Hne].
    + now rewrite nth_app_length.
    + rewrite nth_overflow; [reflexivity|]. rewrite length_app. simpl. lia.
Qed.

Lemma keys_within_step ks e w :
  keys_within ks w -> keys_within (ks ++ put_keys [e]) (step e w).
Proof.
  intros H b k Hk. apply in_or_app.
  assert (Hsame : (forall x, entries (get_batch x (step e w))
                             = entries (get_batch x w)) -> In k ks).
  { intros Hs. rewrite Hs in Hk. eapply H. exact Hk. }
  destruct e as [key value version nv | c | c | c | c]; simpl in *.
  - rewrite PersistedSpec.dbPut_eq in Hk. cbv zeta in Hk.
    set (w0 := with_lastVersion
                 (Z.max (lastVersion w) (effective_version version nv)) w)
      in *.
    destruct (record_operation_same_reads key value
                (snd (current_or_open w0)) (fst (current_or_open w0)))
      as (_ & _ & He).
    rewrite He in Hk.
    set (c := snd (current_or_open w0)) in *.
    set (w1 := fst (current_or_open w0)) in *.
    assert (Hw1 : forall x, entries (get_batch x w1) = entries (get_batch x w)).
    { intros x. unfold w1. now rewrite entries_current_or_open. }
    unfold get_batch, update_batch in Hk. simpl in Hk.
    destruct (Nat.eq_dec c b) as [-> | Hne].
    + rewrite PersistedSpec.nth_list_update_same in Hk.
      destruct (b <? length (batches w1))%nat.
      * simpl in Hk.
        destruct (map_set_keys same_value_zero same_value_zero_eq key
                    (operation_of key value)
                    (entries (nth b (batches w1) empty_batch)))
          as [E | [_ E]]; rewrite E in Hk.
        -- left. apply (H b). rewrite <- Hw1. exact Hk.
        -- apply in_app_or in Hk. destruct Hk as [Hk | [<- | []]].
           ++ left. apply (H b). rewrite <- Hw1. exact Hk.
           ++ right. now left.
      * simpl in Hk. contradiction.
    + rewrite PersistedSpec.nth_list_update_other in Hk by assumption.
      left. apply (H b). rewrite <- Hw1. exact Hk.
  - left. apply Hsame. intros x. destruct (mem c (timers w)); [|reflexivity].
    now destruct (same_reads_commitOperations c w) as (_ & _ & ->).
  - left. apply Hsame. intros x.
    now destruct (mem c (awaiting w) && previous_resolved c w).
  - left. apply Hsame. intros x.
    destruct (find_in_flight c (in_flight w)); [|reflexivity].
    unfold get_batch. now rewrite batches_finished.
  - left. apply Hsame. intros x.
    destruct (find_in_flight c (in_flight w)); [|reflexivity].
    unfold get_batch. now rewrite batches_finished.
Qed.

Lemma put_keys_app tr1 tr2 : put_keys (tr1 ++ tr2) = put_keys tr1 ++ put_keys tr2.
Proof. unfold put_keys. apply flat_map_app. Qed.

Lemma keys_within_run ks tr w :
  keys_within ks w -> keys_within (ks ++ put_keys tr) (run tr w).
Proof.
  intros H. induction tr as [|e tr IH] using rev_ind.
  - simpl. now rewrite app_nil_r.
  - rewrite PersistedSpec.run_app, put_keys_app, app_assoc. simpl.
    now apply keys_within_step.
Qed.

Lemma keys_within_batch_keys w : keys_within (batch_keys w) w.
Proof.
  intros b k Hk. unfold batch_keys. apply in_flat_map.
  unfold get_batch in Hk.
  destruct (Nat.lt_ge_cases b (length (batches w))) as [Hlt | Hge].
  - exists (nth b (batches w) empty_batch). split; [now apply nth_In|].
    exact Hk.
  - rewrite nth_overflow in Hk by assumption. contradiction.
Qed.

Lemma last_put_app key tr e :
  last_put key (tr ++ [e])
  = match e with
    | DbPut k value _ _ =>
        if same_value_zero key k then Some value else last_put key tr
    | _ => last_put key tr
    end.
Proof. unfold last_put. rewrite fold_left_app. reflexivity. Qed.

(** What a read returns after a run in which no batch write fails *)
Lemma dbGet_run_from key tr w :
  batcher_ok w -> NoDup (map fst (table w)) -> no_failure tr = true ->
  toBufferKey key <> LAST_VERSION_IN_DB_KEY ->
  (forall k, In k (batch_keys w ++ put_keys tr) ->
             toBufferKey k = toBufferKey key -> k = key) ->
  dbGet key (run tr w)
  = match last_put key tr with
    | Some value => stored value
    | None => dbGet key w
    end.
Proof.
  intros Hok0 Ht0 Hnf Hres Hinj.
  induction tr as [|e tr IH] using rev_ind; [reflexivity|].
  unfold no_failure in Hnf. rewrite forallb_app in Hnf.
  apply andb_true_iff in Hnf. destruct Hnf as [Hnf He]. simpl in He.
  assert (Hinj' : forall k, In k (batch_keys w ++ put_keys tr) ->
                    toBufferKey k = toBufferKey key -> k = key).
  { intros k Hk. apply Hinj. rewrite put_keys_app, app_assoc.
    apply in_or_app. now left. }
  specialize (IH Hnf Hinj').
  rewrite PersistedSpec.run_app, last_put_app. simpl.
  set (w1 := run tr w) in *.
  assert (Hok : batcher_ok w1) by now apply batcher_ok_run.
  destruct e as [k value version nv | b | b | b | b]; simpl.
  - rewrite dbGet_dbPut by assumption.
    destruct (same_value_zero key k); [reflexivity|exact IH].
  - rewrite <- IH. destruct (mem b (timers w1)); [|reflexivity].
    apply dbGet_same_reads, same_reads_commitOperations.
  - rewrite <- IH.
    destruct (mem b (awaiting w1) && previous_resolved b w1); [|reflexivity].
    apply dbGet_same_reads. repeat split.
  - rewrite <- IH.
    apply (dbGet_BatchWritten key b w1); auto.
    + now apply NoDup_table_run.
    + intros k Hk. apply Hinj'.
      eapply (keys_within_run (batch_keys w)); [|exact Hk].
      apply keys_within_batch_keys.
  - discriminate.
Qed.

(** *** Properties of every run *)

Lemma reachable_ok l0 rows tr : batcher_ok (run tr (new_Writer l0 rows)).
Proof. apply batcher_ok_run, batcher_ok_new. Qed.

(** X1.  Writes are serialized: in every state a class reaches by [dbPut]
    calls, timers and settled batch writes, at most one batch is with the
    KV engine and at most two are pending; the batch with the engine is
    the oldest pending one, it is no longer the open batch, and what the
    engine received is what the batch holds, followed by the watermark;
    the open batch is the newest pending one. *)
Theorem one_batch_at_the_engine (l0 : Z) (rows : list (bytes * opvalue))
  (tr : list Event) :
  let w := run tr (new_Writer l0 rows) in
  (length (in_flight w) <= 1)%nat
  /\ (length (pendingWrites w) <= 2)%nat
  /\ (forall b ops, In (b, ops) (in_flight w) ->
        (exists rest, pendingWrites w = b :: rest)
        /\ currentWriteBatch w <> Some b
        /\ exists v,
             ops = map_values (entries (get_batch b w)) ++ [watermark v])
  /\ (forall b, currentWriteBatch w = Some b ->
        exists older, pendingWrites w = older ++ [b]).
Proof.
  intros w. destruct (reachable_ok l0 rows tr) as (Hp & _). fold w in Hp.
  destruct Hp as [Hc _ Hpend Hfl _ _ | b' Ho Hpend Hfl _
                 | p ops' (Hfl & _ & _ & Hv) Hc _ Hpend _ _
                 | p ops' c (Hfl & _ & _ & Hv) (Hc & _) Hne Hpend _];
    rewrite Hfl, Hpend; simpl;
    (split; [lia|]); (split; [lia|]); split.
  - intros b ops [].
  - intros b Hb. congruence.
  - intros b ops [].
  - intros b Hb. exists []. destruct Ho as [Hc _]. simpl. congruence.
  - intros b ops [Hin | []]. injection Hin as <- <-.
    split; [now exists []|]. split; [congruence|exact Hv].
  - intros b Hb. congruence.
  - intros b ops [Hin | []]. injection Hin as <- <-.
    split; [now exists [c]|]. split; [congruence|exact Hv].
  - intros b Hb. exists [p]. simpl. congruence.
Qed.

(** X2.  Completion handles are accounted for: in every reachable state
    no handle has resolved twice, no batch is pending twice, and a batch
    that was created has its handle resolved exactly when it has left
    [pendingWrites]. *)
Theorem completion_accounting (l0 : Z) (rows : list (bytes * opvalue))
  (tr : list Event) :
  let w := run tr (new_Writer l0 rows) in
  NoDup (resolved w) /\ NoDup (pendingWrites w)
  /\ forall b, (b < length (batches w))%nat ->
       (In b (resolved w) <-> ~ In b (pendingWrites w)).
Proof.
  intros w. destruct (reachable_ok l0 rows tr) as (Hp & _ & Hnd & _ & Hall).
  fold w in Hp, Hnd, Hall.
  split; [exact Hnd|].
  assert (Hdis : NoDup (pendingWrites w)
                 /\ forall b, In b (pendingWrites w) -> ~ In b (resolved w)).
  { destruct Hp as [_ _ Hpend _ _ _ | b' (_ & _ & _ & Hnr & _) Hpend _ _
                   | p ops' (_ & _ & Hnr & _) _ _ Hpend _ _
                   | p ops' c (_ & _ & Hnp & _) (_ & _ & _ & Hnc & _) Hne
                       Hpend _];
      rewrite Hpend; split.
    - constructor.
    - intros b [].
    - repeat constructor. simpl. tauto.
    - intros b [<- | []]. exact Hnr.
    - repeat constructor. simpl. tauto.
    - intros b [<- | []]. exact Hnr.
    - constructor; [simpl; intros [E | []]; congruence|].
      constructor; [simpl; tauto|constructor].
    - intros b [<- | [<- | []]]; assumption. }
  destruct Hdis as [Hnp Hdis]. split; [exact Hnp|].
  intros b Hb. split.
  - intros Hr Hin. now apply (Hdis b).
  - intros Hn. destruct (Hall b Hb); tauto.
Qed.

(** X3.  Read your writes: in every reachable state, right after
    [dbPut(key, value)] a [dbGet] of the same key returns the value just
    put ([undefined] after a [dbPut] that removes), whether or not the call
    flushed the batch, and a [dbGet] of any other key returns what it
    returned before the call. *)
Theorem dbGet_reads_last_dbPut (l0 : Z) (rows : list (bytes * opvalue))
  (tr : list Event) (key : prim) (value : option string)
  (version : option Z) (nextVersion : Z) (key' : prim) :
  let w := run tr (new_Writer l0 rows) in
  dbGet key' (fst (dbPut key value version nextVersion w))
  = if same_value_zero key' key then stored value else dbGet key' w.
Proof. intros w. apply dbGet_dbPut, reachable_ok. Qed.

(** X4.  [dbPut] returns the completion handle of the batch that holds the
    operation: in every reachable state the returned handle is the
    class's [writeCompletion], its batch is the newest of [pendingWrites]
    and holds the operation under [key], and the handle has not resolved. *)
Theorem dbPut_returns_pending_completion (l0 : Z)
  (rows : list (bytes * opvalue)) (tr : list Event) (key : prim)
  (value : option string) (version : option Z) (nextVersion : Z) :
  let w := run tr (new_Writer l0 rows) in
  let w' := fst (dbPut key value version nextVersion w) in
  let p := snd (dbPut key value version nextVersion w) in
  writeCompletion w' = Some p
  /\ (exists older, pendingWrites w' = older ++ [p])
  /\ ~ In p (resolved w')
  /\ map_get same_value_zero key (entries (get_batch p w'))
     = Some (operation_of key value).
Proof.
  intros w w' p.
  assert (Hok' : batcher_ok w').
  { unfold w'. apply batcher_ok_dbPut, reachable_ok. }
  set (w0 := with_lastVersion
               (Z.max (lastVersion w) (effective_version version nextVersion))
               w).
  assert (Hok0 : batcher_ok w0) by apply batcher_ok_lastVersion, reachable_ok.
  destruct (batcher_ok_current_or_open w0 Hok0) as (H1 & H2 & older & H3).
  assert (Ep : p = snd (current_or_open w0)).
  { unfold p, Persisted.dbPut. fold w0. now destruct (current_or_open w0). }
  assert (Ew : w' = record_operation key value p (fst (current_or_open w0))).
  { unfold w'. rewrite PersistedSpec.dbPut_eq. cbv zeta. fold w0.
    now rewrite Ep. }
  rewrite <- Ep in H2, H3.
  set (w1 := fst (current_or_open w0)) in *.
  assert (Hlen : (p < length (batches w1))%nat) by now apply current_in_range.
  destruct (record_operation_reads key value p w1 Hlen) as (R1 & _ & R3 & _).
  rewrite <- Ew in R1, R3.
  assert (Hpend : exists older, pendingWrites w' = older ++ [p]).
  { exists older. now rewrite R1. }
  split; [|split; [exact Hpend|split]].
  - (* writeCompletion *)
    destruct Hpend as [older' Hpend].
    destruct Hok' as (Hp & _).
    destruct Hp as [_ _ Hpe _ _ _ | b' (_ & Hwc & _) Hpe _ _
                   | q ops' _ _ Hwc Hpe _ _
                   | q ops' c _ (_ & Hwc & _) _ Hpe _];
      rewrite Hpe in Hpend.
    + destruct older'; discriminate.
    + apply (app_inj_tail [] older' b' p) in Hpend.
      destruct Hpend as [_ E]. rewrite <- E. exact Hwc.
    + apply (app_inj_tail [] older' q p) in Hpend.
      destruct Hpend as [_ E]. rewrite <- E. exact Hwc.
    + apply (app_inj_tail [q] older' c p) in Hpend.
      destruct Hpend as [_ E]. rewrite <- E. exact Hwc.
  - destruct Hpend as [older' Hpend].
    destruct Hok' as (Hp & _).
    destruct Hp as [_ _ Hpe _ _ _ | b' (_ & _ & _ & Hnr & _) Hpe _ _
                   | q ops' (_ & _ & Hnr & _) _ _ Hpe _ _
                   | q ops' c _ (_ & _ & _ & Hnr & _) _ Hpe _];
      rewrite Hpe in Hpend.
    + destruct older'; discriminate.
    + apply (app_inj_tail [] older' b' p) in Hpend.
      destruct Hpend as [_ E]. rewrite <- E. exact Hnr.
    + apply (app_inj_tail [] older' q p) in Hpend.
      destruct Hpend as [_ E]. rewrite <- E. exact Hnr.
    + apply (app_inj_tail [q] older' c p) in Hpend.
      destruct Hpend as [_ E]. rewrite <- E. exact Hnr.
  - rewrite R3. apply (map_get_set_same same_value_zero same_value_zero_eq).
Qed.

(** X5.  A commit is invisible to readers: when the timer of a batch
    fires, when a deferred flush runs or when the KV engine reports a batch
    as written, [dbGet] of an entity key returns what it returned before,
    provided the table holds one row per key and no other key written so
    far has the same binary form as the key read. *)
Theorem commit_is_invisible (l0 : Z) (rows : list (bytes * opvalue))
  (tr : list Event) (key : prim) (e : Event) :
  NoDup (map fst rows) ->
  toBufferKey key <> LAST_VERSION_IN_DB_KEY ->
  (forall k, In k (put_keys tr) ->
             toBufferKey k = toBufferKey key -> k = key) ->
  match e with
  | TimerFires _ | PreviousCompleted _ | BatchWritten _ => True
  | _ => False
  end ->
  let w := run tr (new_Writer l0 rows) in
  dbGet key (step e w) = dbGet key w.
Proof.
  intros Hrows Hres Hinj He w.
  destruct e as [? ? ? ? | b | b | b | b]; try contradiction; simpl.
  - destruct (mem b (timers w)); [|reflexivity].
    apply dbGet_same_reads, same_reads_commitOperations.
  - destruct (mem b (awaiting w) && previous_resolved b w); [|reflexivity].
    apply dbGet_same_reads. repeat split.
  - apply dbGet_BatchWritten; auto.
    + apply reachable_ok.
    + now apply NoDup_table_run.
    + intros k Hk. apply Hinj.
      apply (keys_within_run [] tr (new_Writer l0 rows)) with b; [|exact Hk].
      intros b' k' Hk'. unfold get_batch in Hk'. simpl in Hk'.
      now destruct b'.
Qed.

(** X6.  A failed batch write drops the operations of the batch: before
    the failure [dbGet] reads the open batch, then the batch with the
    engine, then the table; after it, it reads the open batch and then the
    table as it was before the batch, so the value a caller put is gone
    although its completion handle resolves. *)
Theorem failed_batch_drops_writes (l0 : Z) (rows : list (bytes * opvalue))
  (tr : list Event) (b : nat) (ops : list Operation) (key : prim) :
  let w := run tr (new_Writer l0 rows) in
  find_in_flight b (in_flight w) = Some ops ->
  let row := map_get bytes_eqb (toBufferKey key) (table w) in
  let written :=
    match map_get same_value_zero key (entries (get_batch b w)) with
    | Some o => op_value o
    | None => row
    end in
  let through_open (below : option opvalue) :=
    match currentWriteBatch w with
    | Some c =>
        match map_get same_value_zero key (entries (get_batch c w)) with
        | Some o => op_value o
        | None => below
        end
    | None => below
    end in
  dbGet key w = through_open written
  /\ dbGet key (step (BatchFailed b) w) = through_open row.
Proof.
  intros w Hf row written through_open.
  assert (Hok : batcher_ok w) by apply reachable_ok.
  split; [|now apply dbGet_BatchFailed with ops].
  destruct (in_flight_cases b ops w Hok Hf) as (_ & _ & Hc).
  unfold Persisted.dbGet, through_open, written, row.
  destruct Hc as [(-> & ->) | (c & -> & ->)]; simpl.
  - now destruct (map_get same_value_zero key (entries (get_batch b w))).
  - destruct (map_get same_value_zero key (entries (get_batch c w)));
      [reflexivity|].
    now destruct (map_get same_value_zero key (entries (get_batch b w))).
Qed.

(** X7.  The last write wins: as long as no batch write fails, the table
    holds one row per key and no two keys written have the same binary
    form, [dbGet(key)] returns in every reachable state the value of the
    last [dbPut] to [key] ([undefined] if that call removed the entity),
    and the row the table started with if [key] was never put, whatever
    batches were formed, flushed and committed in between. *)
Theorem dbGet_last_write_wins (l0 : Z) (rows : list (bytes * opvalue))
  (tr : list Event) (key : prim) :
  NoDup (map fst rows) ->
  no_failure tr = true ->
  toBufferKey key <> LAST_VERSION_IN_DB_KEY ->
  (forall k, In k (put_keys tr) ->
             toBufferKey k = toBufferKey key -> k = key) ->
  dbGet key (run tr (new_Writer l0 rows))
  = match last_put key tr with
    | Some value => stored value
    | None => map_get bytes_eqb (toBufferKey key) rows
    end.
Proof.
  intros Hrows Hnf Hres Hinj.
  rewrite (dbGet_run_from key tr (new_Writer l0 rows)); auto.
  apply batcher_ok_new.
Qed.

(** *** Draining the batcher *)

Lemma settle_head p ops rest w :
  in_flight w = [(p, ops)] -> pendingWrites w = p :: rest ->
  pendingWrites (step (BatchWritten p) w) = rest
  /\ length (batches (step (BatchWritten p) w)) = length (batches w)
  /\ currentWriteBatch (step (BatchWritten p) w) = currentWriteBatch w.
Proof.
  intros Hfl Hpend. simpl. rewrite Hfl. simpl. rewrite Nat.eqb_refl.
  rewrite pendingWrites_finished, batches_finished. simpl.
  rewrite Hpend, splice_head. repeat split.
  unfold finished. simpl.
  destruct (writeCompletion w) as [q|]; [destruct (Nat.eqb q p)|];
    reflexivity.
Qed.

(** An open batch whose predecessor has completed reaches the engine once
    its timer has fired and the deferred flush has run. *)
Lemma flush_open b w :
  is_open b w -> pendingWrites w = [b] -> in_flight w = [] ->
  (forall p, lastWriteCompletion (get_batch b w) = Some p ->
             In p (resolved w)) ->
  let w2 := step (PreviousCompleted b) (step (TimerFires b) w) in
  (exists ops, in_flight w2 = [(b, ops)])
  /\ pendingWrites w2 = [b]
  /\ length (batches w2) = length (batches w).
Proof.
  intros (Hc & Hwc & Hlen & Hnr & Hs) Hpend Hfl Hres.
  assert (Hg : nth b (list_update b disarm (batches w)) empty_batch
               = disarm (get_batch b w)).
  { unfold get_batch. rewrite PersistedSpec.nth_list_update_same.
    apply Nat.ltb_lt in Hlen. now rewrite Hlen. }
  destruct Hs as [(Ha & Htm & Haw) | (Ha & Htm & Haw & Hl)].
  - (* the timer is set *)
    simpl. rewrite Htm. simpl. rewrite Nat.eqb_refl. simpl.
    unfold commitOperations. rewrite Ha.
    destruct (lastWriteCompletion (get_batch b w)) as [q|] eqn:El; simpl.
    + rewrite Haw. simpl. rewrite Nat.eqb_refl. simpl.
      unfold previous_resolved, get_batch. simpl. rewrite Hg. simpl.
      rewrite El.
      assert (Hq : mem q (resolved w) = true)
        by (apply PersistedSpec.mem_In; now apply Hres).
      rewrite Hq. simpl. rewrite Hfl, PersistedSpec.length_list_update.
      simpl. repeat split; eauto.
    + rewrite Haw. simpl. rewrite Hfl, PersistedSpec.length_list_update.
      simpl. repeat split; eauto.
  - (* the flush is waiting *)
    simpl. rewrite Htm. simpl. rewrite Haw. simpl. rewrite Nat.eqb_refl.
    simpl. unfold previous_resolved.
    destruct (lastWriteCompletion (get_batch b w)) as [q|] eqn:El;
      [|congruence].
    assert (Hq : mem q (resolved w) = true)
      by (apply PersistedSpec.mem_In; now apply Hres).
    rewrite Hq. simpl. rewrite Hfl. simpl. repeat split; eauto.
Qed.

Lemma drain_open b w :
  batcher_ok w ->
  is_open b w -> pendingWrites w = [b] -> in_flight w = [] ->
  (forall p, lastWriteCompletion (get_batch b w) = Some p ->
             In p (resolved w)) ->
  let w3 := run [TimerFires b; PreviousCompleted b; BatchWritten b] w in
  pendingWrites w3 = [] /\ length (batches w3) = length (batches w).
Proof.
  intros Hok Ho Hpend Hfl Hres.
  change (run [TimerFires b; PreviousCompleted b; BatchWritten b] w)
    with (step (BatchWritten b)
            (step (PreviousCompleted b) (step (TimerFires b) w))).
  destruct (flush_open b w Ho Hpend Hfl Hres) as ((ops & F1) & F2 & F3).
  destruct (settle_head b ops [] _ F1 F2) as (S1 & S2 & _).
  split; [exact S1|]. now rewrite S2.
Qed.

(** X8.  The batcher cannot get stuck: from every reachable state at most
    four further events, none of them a call or a failure (the batch
    written that is with the engine, then the timer, the deferred flush and
    the batch written of the open batch), leave nothing pending, and then
    the completion handle of every batch created so far has resolved. *)
Theorem every_completion_can_resolve (l0 : Z)
  (rows : list (bytes * opvalue)) (tr : list Event) :
  let w := run tr (new_Writer l0 rows) in
  exists rest,
    (length rest <= 4)%nat
    /\ put_keys rest = [] /\ no_failure rest = true
    /\ pendingWrites (run rest w) = []
    /\ forall b, (b < length (batches w))%nat -> In b (resolved (run rest w)).
Proof.
  intros w.
  assert (Hok : batcher_ok w) by apply reachable_ok.
  assert (Hend : forall rest,
             pendingWrites (run rest w) = [] ->
             length (batches (run rest w)) = length (batches w) ->
             forall b, (b < length (batches w))%nat ->
                       In b (resolved (run rest w))).
  { intros rest Hp Hl b Hb.
    destruct (batcher_ok_run rest w Hok) as (_ & _ & _ & _ & Hall).
    rewrite <- Hl in Hb. destruct (Hall b Hb) as [H | H]; [exact H|].
    rewrite Hp in H. contradiction. }
  pose proof Hok as (Hp & _).
  destruct Hp as [_ _ Hpend _ _ _ | b Ho Hpend Hfl Hres
                 | p ops (Hfl & _) _ _ Hpend _ _
                 | p ops b (Hfl & _) Ho Hne Hpend Hlwc].
  - exists []. simpl. repeat split; auto. now apply (Hend []).
  - exists [TimerFires b; PreviousCompleted b; BatchWritten b].
    destruct (drain_open b w Hok Ho Hpend Hfl Hres) as (D1 & D2).
    split; [simpl; lia|]. repeat split; auto.
  - exists [BatchWritten p].
    destruct (settle_head p ops [] w Hfl Hpend) as (S1 & S2 & _).
    split; [simpl; lia|]. repeat split; auto.
  - exists [BatchWritten p; TimerFires b; PreviousCompleted b; BatchWritten b].
    destruct (settle_head p ops [b] w Hfl Hpend) as (S1 & S2 & S3).
    set (w1 := step (BatchWritten p) w) in *.
    assert (Hok1 : batcher_ok w1) by now apply batcher_ok_step.
    assert (Hc1 : currentWriteBatch w1 = Some b).
    { rewrite S3. now destruct Ho. }
    assert (Hopen : is_open b w1 /\ in_flight w1 = []
                    /\ forall q, lastWriteCompletion (get_batch b w1) = Some q
                                 -> In q (resolved w1)).
    { destruct Hok1 as (Hp1 & _).
      destruct Hp1 as [Hc' _ _ _ _ _ | b' Ho' Hpend' Hfl' Hres'
                      | q ops' _ Hc' _ _ _ _
                      | q ops' b' _ _ _ Hpend' _]; try congruence.
      assert (b' = b) by (destruct Ho' as [? _]; congruence). subst b'.
      auto. }
    destruct Hopen as (Ho1 & Hfl1 & Hres1).
    destruct (drain_open b w1 Hok1 Ho1 S1 Hfl1 Hres1) as (D1 & D2).
    split; [simpl; lia|]. repeat split; auto.
    apply (Hend [BatchWritten p; TimerFires b; PreviousCompleted b;
                 BatchWritten b]); [exact D1|].
    simpl in *. fold w1. congruence.
Qed.

End BatcherInvariant.

End BatcherSpec.

(* ================================================================== *)
(** * Entities of Persisted.ts over the write batcher *)
(* ================================================================== *)

Module EntitySpec.
Import Js JsFacts Persisted.

Section StoreAndLoad.
Variable StringToNumber : string -> number.
Variable JSON_parse : string -> value.
Variable JSON_stringify : value -> string.
Variable NumberToString : number -> string.
Variable toBufferKey : prim -> bytes.
Variable inherited : number.

Abbreviation batcher_ok := (batcher_ok toBufferKey).
Abbreviation run := (run toBufferKey).
Abbreviation dbGet := (dbGet toBufferKey).
Abbreviation dbPut := (dbPut toBufferKey).
Abbreviation valueOf :=
  (valueOf StringToNumber JSON_parse toBufferKey inherited).
Abbreviation loadLocalData := (loadLocalData StringToNumber toBufferKey).
Abbreviation withValue := (withValue StringToNumber).
Abbreviation set_value := (set_value JSON_stringify NumberToString toBufferKey).
Abbreviation for_ := (for_ StringToNumber).
Abbreviation remove := (remove StringToNumber toBufferKey).
Abbreviation reachable := (reachable StringToNumber toBufferKey).

(** *** Rows *)

Lemma split_comma_app (a b : string) :
  split_comma a = None ->
  split_comma (a ++ "," ++ b)%string = Some (a, b).
Proof.
  induction a as [|c a IH]; simpl; [reflexivity|].
  destruct (Ascii.eqb c ","%char); [discriminate|].
  destruct (split_comma a) as [[x y]|] eqn:E; [discriminate|].
  intros _. simpl in IH. now rewrite IH.
Qed.

Lemma string_truthy_row (a b : string) :
  string_truthy (a ++ "," ++ b)%string = true.
Proof. now destruct a. Qed.

(** A row written by the setter, as [loadLocalData] takes it apart *)
Lemma withValue_row (a json : string) :
  split_comma a = None ->
  withValue (Some (OVString (a ++ "," ++ json)%string))
  = Some (mkLocalData (Some (StringToNumber a)) (Some json)).
Proof.
  intros H. unfold Persisted.withValue.
  now rewrite string_truthy_row, split_comma_app.
Qed.

Lemma last_put_cons key value version nv tr :
  last_put key (DbPut key value version nv :: tr)
  = match last_put key tr with
    | Some x => Some x
    | None => Some value
    end.
Proof.
  unfold last_put. simpl. rewrite same_value_zero_refl.
  generalize (Some value) as acc.
  induction tr as [|e tr IH] using rev_ind; intros acc; [reflexivity|].
  rewrite !fold_left_app. simpl.
  destruct e as [k v ? ? | | | |]; try apply IH.
  destruct (same_value_zero key k); [reflexivity|apply IH].
Qed.

(** What a read returns once [dbPut(key, value)] has been called and the
    batcher has run on without a failure and without another write to
    [key] *)
Lemma dbGet_after_dbPut key value version nv tr w :
  batcher_ok w -> NoDup (map fst (table w)) ->
  no_failure tr = true -> last_put key tr = None ->
  toBufferKey key <> LAST_VERSION_IN_DB_KEY ->
  (forall k, In k (batch_keys w ++ put_keys tr) ->
             toBufferKey k = toBufferKey key -> k = key) ->
  dbGet key (run tr (fst (dbPut key value version nv w))) = stored value.
Proof.
  intros Hok Ht Hnf Hlast Hres Hinj.
  change (run tr (fst (dbPut key value version nv w)))
    with (run (DbPut key value version nv :: tr) w).
  rewrite (BatcherSpec.dbGet_run_from toBufferKey key); auto.
  - now rewrite last_put_cons, Hlast.
  - intros k Hk. apply in_app_or in Hk. simpl in Hk.
    destruct Hk as [Hk | [<- | Hk]]; [| reflexivity |];
      apply Hinj; apply in_or_app; auto.
Qed.

(** *** The setter *)

(** X9.  A value that was set is read back from the store: when the
    canonical instance of an id, whose version (its own, or the one it
    inherits) is a whole number or [NaN], is given a truthy value whose
    JSON is not empty, the setter succeeds, and after any further run
    of the batcher in which no batch write fails and the id is not written
    again (whether the row is still pending, with the engine or committed)
    a fresh instance of the id loads the row: it is up to date, its JSON is
    the JSON written, its version is the version written and read back, and
    [valueOf] yields the parsed JSON. *)
Theorem set_value_is_read_back (C : Class) (r : ref) (e : Instance)
  (v : value) (n : number) (va : option Z) (nv nv' : Z) (tr : list Event) :
  batcher_ok (writer C) ->
  NoDup (map fst (table (writer C))) ->
  nth_error (instances C) r = Some e ->
  identity_get (id e) (instancesById C) = Some r ->
  this_version (inherited_version C) e = n ->
  version_argument n = Some va ->
  value_truthy v = true ->
  string_truthy (JSON_stringify v) = true ->
  split_comma (NumberToString n) = None ->
  no_failure tr = true ->
  last_put (id e) tr = None ->
  toBufferKey (id e) <> LAST_VERSION_IN_DB_KEY ->
  (forall k, In k (batch_keys (writer C) ++ put_keys tr) ->
             toBufferKey k = toBufferKey (id e) -> k = id e) ->
  exists C',
    set_value (Some v) nv r C = Some C'
    /\ instancesById C' = instancesById C
    /\ valueOf nv' (new_Instance (id e)) (run tr (writer C'))
       = Some (Some (JSON_parse (JSON_stringify v)),
               mkInstance (id e) (Some up_to_date) (Some (JSON_stringify v))
                 (Some (JSON_parse (JSON_stringify v))) (-1)
                 (Some (StringToNumber (NumberToString n)))).
Proof.
  intros Hok Ht He Hid Hver Hva Hv Hj Hcomma Hnf Hlast Hres Hinj.
  unfold Persisted.set_value. rewrite He, Hv. simpl.
  rewrite Hid, Nat.eqb_refl.
  change (this_version (inherited_version (on_instance _ r C)) e)
    with (this_version (inherited_version C) e).
  rewrite Hver, Hva, Hj.
  eexists. split; [reflexivity|]. split; [reflexivity|]. simpl.
  unfold Persisted.valueOf, loadLatestLocalData, Persisted.loadLocalData.
  simpl.
  rewrite dbGet_after_dbPut by assumption.
  change (stored (Some (NumberToString n
                        ++ String.String "," (JSON_stringify v))%string))
    with (Some (OVString (NumberToString n ++ "," ++ JSON_stringify v)%string)).
  rewrite withValue_row by assumption. simpl. rewrite Hj.
  unfold get_value. simpl. now rewrite Hj.
Qed.

(** *** Removing *)

Lemma identity_get_delete i m :
  NoDup (map fst m) -> identity_get i (identity_delete i m) = None.
Proof.
  apply (BatcherSpec.map_get_delete_same same_value_zero same_value_zero_eq).
Qed.

(** X10.  A removed entity is gone: after [remove(id)] on a class reached
    by [for] and [remove] calls, the identity map has no entry for the id,
    so the next [for(id)] constructs a new object, an object that carried
    the id can no longer write to the store, and after any further run of
    the batcher in which no batch write fails and the id is not written
    again [dbGet] finds nothing and a fresh instance loads as
    [no-local-data] without a value. *)
Theorem removed_entity_is_gone (C C' : Class) (i : prim) (nv nv' : Z)
  (tr : list Event) :
  reachable C ->
  batcher_ok (writer C) ->
  NoDup (map fst (table (writer C))) ->
  remove i nv C = Return C' ->
  no_failure tr = true ->
  last_put i tr = None ->
  toBufferKey i <> LAST_VERSION_IN_DB_KEY ->
  (forall k, In k (batch_keys (writer C) ++ put_keys tr) ->
             toBufferKey k = toBufferKey i -> k = i) ->
  identity_get i (instancesById C') = None
  /\ (forall r C'', for_ i C' = Return (r, C'') ->
        r = length (instances C')
        /\ nth_error (instances C'') r = Some (new_Instance i))
  /\ (forall r e v nv'' C'',
        nth_error (instances C') r = Some e -> id e = i ->
        set_value v nv'' r C' = Some C'' -> writer C'' = writer C')
  /\ dbGet i (run tr (writer C')) = None
  /\ valueOf nv' (new_Instance i) (run tr (writer C'))
     = Some (None,
             mkInstance i (Some no_local_data) None None (-1)
               (Some (num nv'))).
Proof.
  intros Hr Hok Ht Hrm Hnf Hlast Hres Hinj.
  unfold Persisted.remove in Hrm.
  destruct (remove_rejects StringToNumber i); [discriminate|].
  destruct (for_ i C) as [[r0 C1]|] eqn:Hfor; [|discriminate].
  injection Hrm as <-.
  assert (Hc1 : canonical C1).
  { eapply PersistedSpec.canonical_for; [|exact Hfor].
    now apply (PersistedSpec.reachable_canonical StringToNumber toBufferKey). }
  assert (Hw1 : writer C1 = writer C).
  { destruct (PersistedSpec.for_cases StringToNumber i C C1 r0 Hfor)
      as [(_ & ->) | (_ & _ & _ & _)]; [reflexivity|].
    unfold Persisted.for_ in Hfor.
    destruct (for_rejects StringToNumber i); [discriminate|].
    destruct (identity_get i (instancesById C)); [now injection Hfor as _ <-|].
    unfold construct in Hfor.
    destruct (loose_eq_null i); [discriminate|].
    destruct (abstract C); [discriminate|].
    injection Hfor as _ <-. simpl.
    now destruct (negb (transform_hasVersion C) && negb (transformVersion C =? 0)). }
  assert (Hgone : identity_get i
                    (identity_delete i (instancesById C1)) = None).
  { apply identity_get_delete. now destruct Hc1. }
  assert (Hget : dbGet i
                   (run tr (fst (dbPut i None None nv (writer C1)))) = None).
  { rewrite Hw1. now rewrite dbGet_after_dbPut. }
  simpl. split; [exact Hgone|]. split; [|split; [|split; [exact Hget|]]].
  - intros r C'' Hf. unfold Persisted.for_ in Hf. simpl in Hf.
    destruct (for_rejects StringToNumber i); [discriminate|].
    rewrite Hgone in Hf. unfold construct in Hf. simpl in Hf.
    destruct (loose_eq_null i); [discriminate|].
    destruct (abstract C1); [discriminate|].
    injection Hf as <- <-. split; [reflexivity|].
    destruct (negb (transform_hasVersion C1) && negb (transformVersion C1 =? 0));
      simpl; rewrite nth_error_app2, Nat.sub_diag by lia; reflexivity.
  - intros r e v nv'' C'' He Hid Hset.
    unfold Persisted.set_value in Hset. simpl in Hset. rewrite He in Hset.
    destruct (negb match v with
                   | Some v0 => value_truthy v0
                   | None => false
                   end &&
              match readyState e with
              | None | Some no_local_data => true
              | _ => false
              end); [now injection Hset as <-|].
    rewrite Hid in Hset. unfold on_instance in Hset. simpl in Hset.
    rewrite Hgone in Hset. now injection Hset as <-.
  - unfold Persisted.valueOf, loadLatestLocalData, Persisted.loadLocalData.
    simpl. now rewrite Hget.
Qed.

(** *** Reading *)

(** X11.  Once [valueOf] has returned, the instance is loaded for good: a
    further [valueOf] on the instance it leaves behind returns the same
    value and leaves the same instance, whatever the state of the batcher
    and of the table then is; it does not read the store again. *)
Theorem valueOf_is_stable (nv : Z) (e : Instance) (w : Writer)
  (v : option value) (e1 : Instance) :
  valueOf nv e w = Some (v, e1) ->
  forall nv' w', valueOf nv' e1 w' = Some (v, e1).
Proof.
  intros H nv' w'.
  assert (Hg : forall x, readyState x <> None ->
             get_value JSON_parse x = (v, e1) ->
             valueOf nv' e1 w' = Some (v, e1)).
  { intros x Hx Hgv. unfold Persisted.valueOf.
    assert (Hr : readyState e1 = readyState x).
    { unfold get_value in Hgv.
      destruct (_cachedValue x) as [c|];
        [destruct (value_truthy c)|]; now injection Hgv as _ <-. }
    rewrite Hr. destruct (readyState x) as [st|]; [|congruence].
    f_equal. unfold get_value in *.
    destruct (_cachedValue x) as [c|] eqn:Ec.
    - destruct (value_truthy c) eqn:Et.
      + injection Hgv as <- <-. now rewrite Ec, Et.
      + injection Hgv as <- <-. simpl.
        destruct (asJSON x) as [j|]; [|reflexivity].
        destruct (string_truthy j); [|reflexivity].
        now destruct (value_truthy (JSON_parse j)).
    - injection Hgv as <- <-. simpl.
      destruct (asJSON x) as [j|]; [|reflexivity].
      destruct (string_truthy j); [|reflexivity].
      now destruct (value_truthy (JSON_parse j)). }
  unfold Persisted.valueOf in H.
  destruct (readyState e) as [st|] eqn:Er.
  - injection H as H. apply (Hg e); [congruence|exact H].
  - destruct (loadLatestLocalData StringToNumber toBufferKey inherited nv e w)
      as [x|] eqn:El; [|discriminate].
    injection H as H. apply (Hg x); [|exact H].
    unfold loadLatestLocalData in El.
    destruct (Persisted.loadLocalData StringToNumber toBufferKey e w) as [d|];
      [|discriminate].
    destruct (match ld_asJSON d with
              | Some json => string_truthy json
              | None => false
              end); [injection El as <-; discriminate|].
    destruct (ld_version d) as [vv|];
      [destruct (number_truthy vv)|]; injection El as <-; discriminate.
Qed.

(** *** The previous value *)

Abbreviation assignPreviousValue :=
  (assignPreviousValue StringToNumber JSON_parse toBufferKey).
Abbreviation resetCache := (resetCache NumberToString toBufferKey).

(** X20.  The previous value of an entity that was set is the value that
    was set: under the conditions of X9, after the setter and any further
    run of the batcher without a failed write and without another write to
    the id, [assignPreviousValue] on the instance enters the value itself
    when the instance was up to date before the setter, and otherwise the
    JSON written, read back from the store and parsed. *)
Theorem previous_value_is_the_value_set (C : Class) (r : ref) (e : Instance)
  (v : value) (n : number) (va : option Z) (nv : Z) (tr : list Event) :
  batcher_ok (writer C) ->
  NoDup (map fst (table (writer C))) ->
  nth_error (instances C) r = Some e ->
  identity_get (id e) (instancesById C) = Some r ->
  this_version (inherited_version C) e = n ->
  version_argument n = Some va ->
  value_truthy v = true ->
  string_truthy (JSON_stringify v) = true ->
  split_comma (NumberToString n) = None ->
  no_failure tr = true ->
  last_put (id e) tr = None ->
  toBufferKey (id e) <> LAST_VERSION_IN_DB_KEY ->
  (forall k, In k (batch_keys (writer C) ++ put_keys tr) ->
             toBufferKey k = toBufferKey (id e) -> k = id e) ->
  exists C' e',
    set_value (Some v) nv r C = Some C'
    /\ nth_error (instances C') r = Some e'
    /\ assignPreviousValue e' (run tr (writer C'))
       = Some (Some match readyState e with
                    | Some up_to_date => v
                    | _ => JSON_parse (JSON_stringify v)
                    end).
Proof.
  intros Hok Ht He Hid Hver Hva Hv Hj Hcomma Hnf Hlast Hres Hinj.
  unfold Persisted.set_value. rewrite He, Hv. simpl.
  rewrite Hid, Nat.eqb_refl.
  change (this_version (inherited_version (on_instance _ r C)) e)
    with (this_version (inherited_version C) e).
  rewrite Hver, Hva, Hj.
  assert (Hlen : (r < length (instances C))%nat).
  { apply nth_error_Some. congruence. }
  assert (Hnth : forall f, nth_error (list_update r f (instances C)) r
                           = Some (f e)).
  { intros f. clear - He. revert r He.
    induction (instances C) as [|x l IH]; intros [|r] He; simpl in *;
      try discriminate.
    - now injection He as ->.
    - now apply IH. }
  eexists. eexists. split; [reflexivity|]. simpl.
  split; [apply Hnth|].
  unfold Persisted.assignPreviousValue, Persisted.loadLocalData. simpl.
  rewrite dbGet_after_dbPut by assumption.
  change (stored (Some (NumberToString n
                        ++ String.String "," (JSON_stringify v))%string))
    with (Some (OVString (NumberToString n ++ "," ++ JSON_stringify v)%string)).
  rewrite withValue_row by assumption. simpl. rewrite Hj, Hv.
  destruct (readyState e) as [[]|]; reflexivity.
Qed.

(** *** Invalidation *)

(** X21.  An invalidated cached entity is stored as its version alone:
    [resetCache] of [Cached] drops the cached value and the JSON of the
    instance and hands the new version, written as a string, to [dbPut];
    after any further run of the batcher without a failed write and
    without another write to the id, [dbGet] returns that string and
    [loadLocalData] on any instance of the id yields the version read
    back from it and no JSON.  The version must be written as a non-empty
    string without a comma and read back as a finite number. *)
Theorem reset_entity_is_stored_as_version (C : Class) (r : ref)
  (e e0 : Instance) (nv : Z) (tr : list Event) :
  batcher_ok (writer C) ->
  NoDup (map fst (table (writer C))) ->
  nth_error (instances C) r = Some e ->
  id e0 = id e ->
  string_truthy (NumberToString (num nv)) = true ->
  split_comma (NumberToString (num nv)) = None ->
  isFinite (StringToNumber (NumberToString (num nv))) = true ->
  no_failure tr = true ->
  last_put (id e) tr = None ->
  toBufferKey (id e) <> LAST_VERSION_IN_DB_KEY ->
  (forall k, In k (batch_keys (writer C) ++ put_keys tr) ->
             toBufferKey k = toBufferKey (id e) -> k = id e) ->
  exists C',
    resetCache nv r C = Some C'
    /\ instancesById C' = instancesById C
    /\ nth_error (instances C') r
       = Some (mkInstance (id e) (readyState e) None None (cachedVersion e)
                 (Some (num nv)))
    /\ dbGet (id e) (run tr (writer C'))
       = Some (OVString (NumberToString (num nv)))
    /\ loadLocalData e0 (run tr (writer C'))
       = Some (mkLocalData
                 (Some (StringToNumber (NumberToString (num nv)))) None).
Proof.
  intros Hok Ht He H0 Hs Hcomma Hfin Hnf Hlast Hres Hinj.
  unfold Persisted.resetCache. rewrite He.
  assert (Hnth : forall f, nth_error (list_update r f (instances C)) r
                           = Some (f e)).
  { intros f. clear - He. revert r He.
    induction (instances C) as [|x l IH]; intros [|r] He; simpl in *;
      try discriminate.
    - now injection He as ->.
    - now apply IH. }
  eexists. split; [reflexivity|]. split; [reflexivity|]. simpl.
  split; [apply Hnth|].
  assert (Hget : dbGet (id e)
                   (run tr
                      (fst (dbPut (id e) (Some (NumberToString (num nv)))
                              (Some nv) nv (writer C))))
                 = Some (OVString (NumberToString (num nv)))).
  { now rewrite dbGet_after_dbPut. }
  split; [exact Hget|].
  unfold Persisted.loadLocalData. rewrite H0, Hget.
  unfold Persisted.withValue. now rewrite Hs, Hcomma, Hfin.
Qed.

End StoreAndLoad.

End EntitySpec.

(* ================================================================== *)
(** * The rows an index request leaves in the table *)
(* ================================================================== *)

Module IndexRowsSpec.
Import Js JsFacts Index.

Section RowFacts.
Variable JSON_stringify : value -> string.
Variable toBufferKey : prim -> bytes.
Variable indexBy : value -> option indexed.
Variable Source_for : prim -> option entity_value.

Abbreviation indexEntry :=
  (indexEntry JSON_stringify toBufferKey indexBy Source_for).
Abbreviation index_one := (index_one toBufferKey).
Abbreviation remove_one := (remove_one toBufferKey).
Abbreviation previous_map := (previous_map JSON_stringify indexBy).
Abbreviation current_entries :=
  (current_entries JSON_stringify indexBy Source_for).
Abbreviation put_operation := (put_operation toBufferKey).
Abbreviation del_operation := (del_operation toBufferKey).
Abbreviation fullKey := (fullKey toBufferKey).
Abbreviation rows_agree := (rows_agree toBufferKey).
Abbreviation expected_row := (expected_row toBufferKey).
Abbreviation distinct_rows := (distinct_rows toBufferKey).
Abbreviation row := (map_get Persisted.bytes_eqb).
Abbreviation apply_batch := Persisted.apply_batch.
Abbreviation apply_operation := Persisted.apply_operation.

Lemma apply_batch_app ops1 ops2 t :
  apply_batch (ops1 ++ ops2) t = apply_batch ops2 (apply_batch ops1 t).
Proof. unfold Persisted.apply_batch. apply fold_left_app. Qed.

Lemma last_value_None k l : last_value k l = None <-> ~ In k (map fst l).
Proof.
  induction l as [|[k' v] l IH]; simpl; [tauto|].
  destruct (last_value k l) as [x|].
  - split; [discriminate|]. intros H. exfalso. apply H. right.
    destruct IH as [_ IH]. destruct (in_dec (fun a b =>
      match Bool.bool_dec (key_eqb a b) true with
      | left e => left (proj1 (IndexSpec.key_eqb_eq a b) e)
      | right n => right (fun e => n (proj2 (IndexSpec.key_eqb_eq a b) e))
      end) k (map fst l)) as [Hin | Hn]; [exact Hin|].
    specialize (IH Hn). discriminate.
  - destruct (key_eqb k k') eqn:E.
    + apply IndexSpec.key_eqb_eq in E. subst k'.
      split; [discriminate|]. intros H. exfalso. apply H. now left.
    + split; [|reflexivity]. intros _ [H | H].
      * subst k'. rewrite (proj2 (IndexSpec.key_eqb_eq k k) eq_refl) in E.
        discriminate.
      * now apply IH.
Qed.

Lemma existsb_key k l : existsb (key_eqb k) l = true <-> In k l.
Proof.
  rewrite existsb_exists. split.
  - intros (x & Hx & E). apply IndexSpec.key_eqb_eq in E. now subst x.
  - intros H. exists k. split; [exact H|]. now apply IndexSpec.key_eqb_eq.
Qed.

(** *** One operation *)

Section OneSource.
Variable id : prim.
Variable K : list key.
Hypothesis Hinj : distinct_rows id K.

Lemma row_put k0 v0 t k :
  In k0 K -> In k K ->
  row (fullKey k id) (apply_operation t (put_operation k0 id v0))
  = if key_eqb k k0 then Some (Persisted.OVString v0)
    else row (fullKey k id) t.
Proof.
  intros H0 Hk. unfold Persisted.apply_operation. simpl.
  destruct (key_eqb k k0) eqn:E.
  - apply IndexSpec.key_eqb_eq in E. subst k0.
    apply (map_get_set_same Persisted.bytes_eqb PersistedSpec.bytes_eqb_eq).
  - apply (map_get_set_other Persisted.bytes_eqb PersistedSpec.bytes_eqb_eq).
    intros Heq. apply Hinj in Heq; auto. subst k0.
    rewrite (proj2 (IndexSpec.key_eqb_eq k k) eq_refl) in E. discriminate.
Qed.

Lemma row_del k0 t k :
  NoDup (map fst t) -> In k0 K -> In k K ->
  row (fullKey k id) (apply_operation t (del_operation k0 id))
  = if key_eqb k k0 then None else row (fullKey k id) t.
Proof.
  intros Ht H0 Hk. unfold Persisted.apply_operation. simpl.
  destruct (key_eqb k k0) eqn:E.
  - apply IndexSpec.key_eqb_eq in E. subst k0.
    now apply (BatcherSpec.map_get_delete_same Persisted.bytes_eqb
                 PersistedSpec.bytes_eqb_eq).
  - apply (map_get_delete_other Persisted.bytes_eqb
             PersistedSpec.bytes_eqb_eq).
    intros Heq. apply Hinj in Heq; auto. subst k0.
    rewrite (proj2 (IndexSpec.key_eqb_eq k k) eq_refl) in E. discriminate.
Qed.

(** *** The loops *)

Lemma In_map_delete k0 (R : list (key * string)) k old :
  NoDup (map fst R) ->
  (In (k, old) (map_delete key_eqb k0 R) <-> In (k, old) R /\ k <> k0).
Proof.
  intros Hn. rewrite (map_delete_filter key_eqb IndexSpec.key_eqb_eq) by assumption.
  rewrite filter_In. simpl. split; intros [H1 H2]; split; auto.
  - intros ->. rewrite (proj2 (IndexSpec.key_eqb_eq k0 k0) eq_refl) in H2.
    discriminate.
  - destruct (key_eqb k0 k) eqn:E; [|reflexivity].
    apply IndexSpec.key_eqb_eq in E. congruence.
Qed.

Lemma second_loop_rows srcs :
  forall cur s R T,
    incl (map fst cur) K -> incl (map fst R) K ->
    NoDup (map fst R) -> NoDup (map fst T) ->
    rows_agree id R T ->
    let r := fold_left (index_one id srcs) cur (s, R) in
    exists ops,
      operations (fst r) = operations s ++ ops
      /\ NoDup (map fst (apply_batch ops T))
      /\ (forall k, In k K ->
            row (fullKey k id) (apply_batch ops T)
            = match last_value k cur with
              | Some v => Some (Persisted.OVString v)
              | None => row (fullKey k id) T
              end)
      /\ NoDup (map fst (snd r))
      /\ (forall k old,
            In (k, old) (snd r) <-> In (k, old) R /\ ~ In k (map fst cur)).
Proof.
  induction cur as [|[k0 v0] cur IH]; intros s R T Hc HR HnR HnT Hag.
  - simpl. exists []. rewrite app_nil_r. repeat split; auto; tauto.
  - simpl in Hc.
    assert (Hk0 : In k0 K) by (apply Hc; now left).
    assert (Hc' : incl (map fst cur) K)
      by (intros x Hx; apply Hc; now right).
    cbn [fold_left].
    set (ops1 := match map_get key_eqb k0 R with
                 | Some old =>
                     if String.eqb v0 old then []
                     else [put_operation k0 id v0]
                 | None => [put_operation k0 id v0]
                 end).
    set (R1 := match map_get key_eqb k0 R with
               | Some _ => map_delete key_eqb k0 R
               | None => R
               end).
    assert (Hstep : exists s1,
               index_one id srcs (s, R) (k0, v0) = (s1, R1)
               /\ operations s1 = operations s ++ ops1).
    { unfold Index.index_one, ops1, R1.
      destruct (map_get key_eqb k0 R) as [old|].
      - destruct (String.eqb v0 old); simpl.
        + eexists. split; [reflexivity|]. now rewrite app_nil_r.
        + eexists. split; [reflexivity|].
          now rewrite IndexSpec.operations_addUpdatedIndexEntry.
      - simpl. eexists. split; [reflexivity|].
        now rewrite IndexSpec.operations_addUpdatedIndexEntry. }
    destruct Hstep as (s1 & -> & Hops1).
    set (T1 := apply_batch ops1 T).
    assert (HnT1 : NoDup (map fst T1))
      by now apply BatcherSpec.NoDup_apply_batch.
    assert (HR1in : forall k old, In (k, old) R1 <->
                      In (k, old) R /\ k <> k0).
    { intros k old. unfold R1.
      destruct (map_get key_eqb k0 R) as [o|] eqn:E.
      - now apply In_map_delete.
      - split; [|tauto]. intros H. split; [exact H|]. intros ->.
        apply (map_get_None_notin key_eqb IndexSpec.key_eqb_eq) in E.
        apply E. apply in_map_iff. now exists (k0, old). }
    assert (HnR1 : NoDup (map fst R1)).
    { unfold R1. destruct (map_get key_eqb k0 R); [|exact HnR].
      now apply map_delete_NoDup. }
    assert (HR1 : incl (map fst R1) K).
    { intros x Hx. apply in_map_iff in Hx. destruct Hx as ([k old] & <- & Hx).
      apply HR1in in Hx. apply HR. apply in_map_iff.
      exists (k, old). tauto. }
    assert (Hrow1 : forall k, In k K ->
              row (fullKey k id) T1
              = if key_eqb k k0 then Some (Persisted.OVString v0)
                else row (fullKey k id) T).
    { intros k Hk. unfold T1, ops1.
      destruct (map_get key_eqb k0 R) as [old|] eqn:E.
      - destruct (String.eqb v0 old) eqn:Ev.
        + unfold Persisted.apply_batch. simpl.
          destruct (key_eqb k k0) eqn:Ek; [|reflexivity].
          apply IndexSpec.key_eqb_eq in Ek. subst k0.
          apply String.eqb_eq in Ev. subst old.
          apply Hag. now apply (map_get_In key_eqb IndexSpec.key_eqb_eq).
        + unfold Persisted.apply_batch. simpl. now apply row_put.
      - unfold Persisted.apply_batch. simpl. now apply row_put. }
    assert (Hag1 : rows_agree id R1 T1).
    { intros k old Hin. apply HR1in in Hin. destruct Hin as [Hin Hne].
      rewrite Hrow1.
      - destruct (key_eqb k k0) eqn:Ek; [|now apply Hag].
        apply IndexSpec.key_eqb_eq in Ek. contradiction.
      - apply HR. apply in_map_iff. now exists (k, old). }
    destruct (IH s1 R1 T1 Hc' HR1 HnR1 HnT1 Hag1)
      as (ops & Ho & Hn & Hrow & HnR' & Hin').
    exists (ops1 ++ ops). rewrite apply_batch_app. fold T1.
    split; [rewrite Ho, Hops1; now rewrite app_assoc|].
    split; [exact Hn|]. split; [|split; [exact HnR'|]].
    + intros k Hk. rewrite Hrow by assumption. simpl.
      destruct (last_value k cur); [reflexivity|].
      rewrite Hrow1 by assumption. now destruct (key_eqb k k0).
    + intros k old. rewrite Hin', HR1in. simpl. intuition congruence.
Qed.

Lemma third_loop_rows :
  forall (R : list (key * string)) T,
    incl (map fst R) K -> NoDup (map fst T) ->
    forall k, In k K ->
      row (fullKey k id)
        (apply_batch (map (fun kv => del_operation (fst kv) id) R) T)
      = if existsb (key_eqb k) (map fst R) then None
        else row (fullKey k id) T.
Proof.
  induction R as [|[k0 v0] R IH]; intros T HR HnT k Hk; [reflexivity|].
  simpl. unfold Persisted.apply_batch. simpl.
  change (fold_left apply_operation
            (map (fun kv => del_operation (fst kv) id) R)
            (apply_operation T (del_operation k0 id)))
    with (apply_batch (map (fun kv => del_operation (fst kv) id) R)
            (apply_operation T (del_operation k0 id))).
  assert (Hk0 : In k0 K) by (apply HR; now left).
  rewrite IH; auto.
  - rewrite row_del by assumption.
    destruct (key_eqb k k0); simpl; [|reflexivity].
    now destruct (existsb (key_eqb k) (map fst R)).
  - intros x Hx. apply HR. now right.
  - now apply BatcherSpec.NoDup_apply_operation.
Qed.

End OneSource.

Lemma rows_after_indexEntry (id : prim) (req : IndexRequest) (s : State)
  (previous current : list (key * string))
  (t : list (bytes * Persisted.opvalue)) (k : key) :
  previous_map req = Some previous ->
  current_entries id req = Some current ->
  NoDup (map fst t) ->
  rows_agree id previous t ->
  distinct_rows id (k :: map fst previous ++ map fst current) ->
  exists ops,
    operations (indexEntry id req s) = operations s ++ ops
    /\ row (fullKey k id) (apply_batch ops t)
       = expected_row id previous current t k.
Proof.
  intros Hp Hc Ht Hag Hinj.
  set (K := k :: map fst previous ++ map fst current) in *.
  assert (Hk : In k K) by now left.
  assert (Hprev : incl (map fst previous) K).
  { intros x Hx. right. apply in_or_app. now left. }
  assert (Hcur : incl (map fst current) K).
  { intros x Hx. right. apply in_or_app. now right. }
  destruct (IndexSpec.indexEntry_eq JSON_stringify toBufferKey indexBy
              Source_for id req s previous current Hp Hc)
    as (s0 & E0 & _ & _ & _ & _ & _ & _ & _ & Heq).
  destruct (second_loop_rows id K Hinj (sources req) current s0 previous t
              Hcur Hprev
              (IndexSpec.previous_map_NoDup JSON_stringify indexBy req
                 previous Hp)
              Ht Hag)
    as (ops & Ho & Hn & Hrow & HnR & Hin).
  set (r := fold_left (index_one id (sources req)) current (s0, previous))
    in *.
  exists (ops ++ map (fun kv => del_operation (fst kv) id) (snd r)).
  assert (HR : incl (map fst (snd r)) K).
  { intros x Hx. apply in_map_iff in Hx. destruct Hx as ([k1 old] & <- & Hx).
    apply Hin in Hx. apply Hprev. apply in_map_iff. exists (k1, old). tauto. }
  split.
  - rewrite Heq.
    assert (E : operations
                  (fold_left (remove_one id (sources req)) (snd r) (fst r))
                = operations s
                  ++ ops ++ map (fun kv => del_operation (fst kv) id) (snd r)).
    { rewrite IndexSpec.third_loop, Ho, E0. now rewrite app_assoc. }
    destruct (version req =? 0); simpl; exact E.
  - rewrite apply_batch_app.
    rewrite (third_loop_rows id K Hinj) by assumption.
    rewrite Hrow by assumption. unfold Index.expected_row.
    destruct (last_value k current) as [v|] eqn:El.
    + destruct (existsb (key_eqb k) (map fst (snd r))) eqn:Ex;
        [|reflexivity].
      apply existsb_key in Ex. apply in_map_iff in Ex.
      destruct Ex as ([k1 old] & E1 & Ex). simpl in E1. subst k1.
      apply Hin in Ex. destruct Ex as [_ Ex].
      apply last_value_None in Ex. congruence.
    + apply last_value_None in El.
      destruct (existsb (key_eqb k) (map fst previous)) eqn:Ep.
      * apply existsb_key in Ep. apply in_map_iff in Ep.
        destruct Ep as ([k1 old] & E1 & Ep). simpl in E1. subst k1.
        assert (Ex : existsb (key_eqb k) (map fst (snd r)) = true).
        { apply existsb_key. apply in_map_iff. exists (k, old).
          split; [reflexivity|]. apply Hin. tauto. }
        now rewrite Ex.
      * destruct (existsb (key_eqb k) (map fst (snd r))) eqn:Ex;
          [|reflexivity].
        apply existsb_key in Ex. apply in_map_iff in Ex.
        destruct Ex as ([k1 old] & E1 & Ex). simpl in E1. subst k1.
        apply Hin in Ex. destruct Ex as [Ex _].
        assert (Ep' : existsb (key_eqb k) (map fst previous) = true).
        { apply existsb_key. apply in_map_iff. now exists (k, old). }
        congruence.
Qed.

(** X12.  Indexing brings the rows of a source up to date: if nothing
    throws while the request is indexed, the table holds one row per key
    and, for the source, the rows of the previous state, then writing the
    operations [indexEntry] emits leaves under every index key the row the
    current entries ask for, the value of the last entry under the key, no
    row for a key that has gone, and any other row as it was; keys that
    occur twice among the current entries are covered.  The index keys
    involved must have distinct composite keys. *)
Theorem indexEntry_updates_rows (id : prim) (req : IndexRequest) (s : State)
  (previous current : list (key * string))
  (t : list (bytes * Persisted.opvalue)) (k : key) :
  previous_map req = Some previous ->
  current_entries id req = Some current ->
  NoDup (map fst t) ->
  rows_agree id previous t ->
  distinct_rows id (k :: map fst previous ++ map fst current) ->
  exists ops,
    operations (indexEntry id req s) = operations s ++ ops
    /\ row (fullKey k id) (apply_batch ops t)
       = expected_row id previous current t k.
Proof. apply rows_after_indexEntry. Qed.

End RowFacts.

End IndexRowsSpec.
(* ================================================================== *)
(** * The queue and the progress of an index *)
(* ================================================================== *)

Module IndexQueueSpec.
Import Js JsFacts Index.

Section QueueFacts.
Variable JSON_stringify : value -> string.
Variable toBufferKey : prim -> bytes.
Variable indexBy : value -> option indexed.
Variable Source_for : prim -> option entity_value.
Variable sourceId_of : bytes -> prim.
Variable INITIALIZATION_SOURCE : source.
Variable db_version_json : string.

Abbreviation indexEntry :=
  (indexEntry JSON_stringify toBufferKey indexBy Source_for).
Abbreviation index_next :=
  (index_next JSON_stringify toBufferKey indexBy Source_for).
Abbreviation step :=
  (step JSON_stringify toBufferKey indexBy Source_for sourceId_of
     INITIALIZATION_SOURCE db_version_json).
Abbreviation run :=
  (run JSON_stringify toBufferKey indexBy Source_for sourceId_of
     INITIALIZATION_SOURCE db_version_json).
Abbreviation resumeIndex :=
  (resumeIndex sourceId_of INITIALIZATION_SOURCE db_version_json).
Abbreviation resume_request := (resume_request INITIALIZATION_SOURCE).
Abbreviation remove_rows_of := (remove_rows_of sourceId_of).
Abbreviation processQueue_for :=
  (processQueue_for JSON_stringify toBufferKey indexBy Source_for).
Abbreviation index_one := (index_one toBufferKey).
Abbreviation index_entries := (index_entries JSON_stringify toBufferKey).
Abbreviation remove_one := (remove_one toBufferKey).
Abbreviation fullKey := (fullKey toBufferKey).
Abbreviation indexed_from := (indexed_from toBufferKey).
Abbreviation previous_map := (previous_map JSON_stringify indexBy).
Abbreviation current_elements := (current_elements indexBy).
Abbreviation current_entries :=
  (current_entries JSON_stringify indexBy Source_for).
Abbreviation completes := (completes JSON_stringify indexBy Source_for).
Abbreviation request_warnings :=
  (request_warnings JSON_stringify indexBy Source_for).
Abbreviation pairs_of := (pairs_of JSON_stringify).
Abbreviation entry_pair := (entry_pair JSON_stringify).

(** *** The queue holds one request per id *)






Lemma filter_not_In {V : Type} (k : prim) (m : list (prim * V)) :
  ~ In k (map fst (filter (fun kv => negb (same_value_zero k (fst kv))) m)).
Proof.
  intros H. apply in_map_iff in H. destruct H as ([k0 v0] & E & H).
  simpl in E. subst k0. apply filter_In in H. destruct H as [_ H].
  simpl in H. now rewrite same_value_zero_refl in H.
Qed.



(** *** What indexing one request touches *)

Lemma In_set_add x y l : In x l -> In x (set_add y l).
Proof.
  intros H. unfold set_add. destruct (existsb (Nat.eqb y) l); [exact H|].
  apply in_or_app. now left.
Qed.

Lemma In_set_add_same x l : In x (set_add x l).
Proof.
  unfold set_add. destruct (existsb (Nat.eqb x) l) eqn:E.
  - apply existsb_exists in E. destruct E as (y & Hy & E).
    apply Nat.eqb_eq in E. now subst y.
  - apply in_or_app. right. now left.
Qed.

Lemma In_fold_set_add_old l : forall old x,
  In x old -> In x (fold_left (fun acc y => set_add y acc) l old).
Proof.
  induction l as [|y l IH]; intros old x H; simpl; [exact H|].
  apply IH. now apply In_set_add.
Qed.

Lemma In_fold_set_add_new l : forall old x,
  In x l -> In x (fold_left (fun acc y => set_add y acc) l old).
Proof.
  induction l as [|y l IH]; intros old x H; simpl; [contradiction|].
  destruct H as [-> | H].
  - apply In_fold_set_add_old, In_set_add_same.
  - now apply IH.
Qed.

Lemma grown_refl m : grown m m.
Proof. intros k e H. exists e. split; [exact H|apply incl_refl]. Qed.

Lemma grown_trans m1 m2 m3 : grown m1 m2 -> grown m2 m3 -> grown m1 m3.
Proof.
  intros H1 H2 k e H. destruct (H1 k e H) as (e' & H' & I1).
  destruct (H2 k e' H') as (e'' & H'' & I2).
  exists e''. split; [exact H''|]. eapply incl_tran; eassumption.
Qed.

Lemma announced_grown k srcs m m' :
  grown m m' -> announced k srcs m -> announced k srcs m'.
Proof.
  intros Hg (e & He & Hs). destruct (Hg k e He) as (e' & He' & Hi).
  exists e'. split; [exact He'|]. intros l x Hl Hx. apply Hi. eauto.
Qed.

Lemma addUpdatedIndexEntry_grown k srcs s :
  grown (updatedIndexEntries s)
    (updatedIndexEntries (addUpdatedIndexEntry k srcs s)).
Proof.
  intros k0 e He. unfold addUpdatedIndexEntry. simpl.
  destruct (key_eqb k0 k) eqn:E.
  - apply IndexSpec.key_eqb_eq in E. subst k0. rewrite He.
    rewrite (map_get_set_same key_eqb IndexSpec.key_eqb_eq).
    eexists. split; [reflexivity|].
    destruct srcs as [l|]; [|apply incl_refl].
    intros x Hx. now apply In_fold_set_add_old.
  - rewrite (map_get_set_other key_eqb IndexSpec.key_eqb_eq).
    + exists e. split; [exact He|apply incl_refl].
    + intros ->. rewrite (proj2 (IndexSpec.key_eqb_eq k k) eq_refl) in E.
      discriminate.
Qed.

Lemma addUpdatedIndexEntry_announced k srcs s :
  announced k srcs (updatedIndexEntries (addUpdatedIndexEntry k srcs s)).
Proof.
  unfold announced, addUpdatedIndexEntry. simpl.
  rewrite (map_get_set_same key_eqb IndexSpec.key_eqb_eq).
  eexists. split; [reflexivity|]. intros l x -> Hx.
  now apply In_fold_set_add_new.
Qed.

Lemma indexed_from_refl id srcs s : indexed_from id srcs s s.
Proof.
  repeat split; try apply grown_refl. exists []. now rewrite app_nil_r.
Qed.

Lemma indexed_from_trans id srcs s1 s2 s3 :
  indexed_from id srcs s1 s2 -> indexed_from id srcs s2 s3 ->
  indexed_from id srcs s1 s3.
Proof.
  intros (A1 & A2 & A3 & A4 & A5 & A7 & A8 & ops1 & A9 & A10)
         (B1 & B2 & B3 & B4 & B5 & B7 & B8 & ops2 & B9 & B10).
  repeat split; try congruence.
  - eapply grown_trans; eassumption.
  - exists (ops1 ++ ops2). split; [rewrite B9, A9; now rewrite app_assoc|].
    apply Forall_app. split; [|exact B10].
    eapply Forall_impl; [|exact A10]. intros o (k & Hk & Ha).
    exists k. split; [exact Hk|]. eapply announced_grown; eassumption.
Qed.

Lemma indexed_from_console id srcs s c :
  indexed_from id srcs s (with_console c s).
Proof.
  repeat split; try apply grown_refl. exists []. simpl.
  now rewrite app_nil_r.
Qed.

Lemma indexed_from_emit id srcs s k o :
  Persisted.op_key o = fullKey k id ->
  forall n,
    indexed_from id srcs s
      (addUpdatedIndexEntry k srcs (with_operations (operations s ++ [o]) n s)).
Proof.
  intros Hk n. repeat split.
  - apply (addUpdatedIndexEntry_grown k srcs
             (with_operations (operations s ++ [o]) n s)).
  - exists [o]. split; [reflexivity|]. constructor; [|constructor].
    exists k. split; [exact Hk|]. apply addUpdatedIndexEntry_announced.
Qed.

Lemma indexed_from_index_one id srcs s toRemove kv :
  indexed_from id srcs s (fst (index_one id srcs (s, toRemove) kv)).
Proof.
  destruct kv as [k v]. unfold Index.index_one.
  destruct (match map_get key_eqb k toRemove with
            | Some old => negb (String.eqb v old)
            | None => true
            end); simpl; [|apply indexed_from_refl].
  now apply indexed_from_emit.
Qed.

Lemma indexed_from_index_entries id srcs (l : list entry) :
  forall acc,
    indexed_from id srcs (fst acc) (fst (index_entries id srcs l acc)).
Proof.
  induction l as [|e l IH]; intros [s toRemove];
    [apply indexed_from_refl|].
  cbn [Index.index_entries].
  destruct (entry_pair e) as [kv|]; [|apply indexed_from_refl].
  eapply indexed_from_trans; [|apply IH].
  apply indexed_from_index_one.
Qed.

Lemma indexed_from_third_loop id srcs toRemove :
  forall s, indexed_from id srcs s (fold_left (remove_one id srcs) toRemove s).
Proof.
  induction toRemove as [|kv l IH]; intros s; [apply indexed_from_refl|].
  cbn [fold_left]. eapply indexed_from_trans; [|apply IH].
  unfold Index.remove_one. now apply indexed_from_emit.
Qed.

(** What [indexEntry] comes to: operations and entries for the rows of
    the source and lines on the console, and, for a request with a version
    that nothing has stopped, the version. *)
Lemma indexEntry_shape id req s :
  exists s1,
    indexed_from id (sources req) s s1
    /\ ((completes id req = false /\ indexEntry id req s = s1)
        \/ (completes id req = true
            /\ indexEntry id req s
               = if version req =? 0 then s1
                 else with_lastIndexedVersion
                        (Z.max (version req) (lastIndexedVersion s1)) s1)).
Proof.
  unfold Index.indexEntry, Index.completes, Index.current_entries.
  destruct (Source_for id) as [entity|].
  2:{ exists (abandoned id s). split; [apply indexed_from_console|].
      left. split; [|reflexivity]. now destruct (previous_map req). }
  destruct (previous_map req) as [previous|].
  2:{ exists (abandoned id s). split; [apply indexed_from_console|].
      left. split; reflexivity. }
  set (s0 := match entity with
             | Retrieval_fails =>
                 if deleted req then s
                 else with_console
                        (console s ++ [warn_error_retrieving id]) s
             | _ => s
             end).
  assert (H0 : indexed_from id (sources req) s s0).
  { unfold s0. destruct entity; try destruct (deleted req);
      try apply indexed_from_refl. apply indexed_from_console. }
  destruct (current_elements entity req) as [l|].
  2:{ exists (abandoned id s0). split.
      - eapply indexed_from_trans; [exact H0|apply indexed_from_console].
      - left. split; reflexivity. }
  pose proof (indexed_from_index_entries id (sources req) l (s0, previous))
    as H1.
  destruct (index_entries id (sources req) l (s0, previous))
    as [s1 [toRemove|]] eqn:E; simpl in H1.
  - assert (Hp : exists current, pairs_of l = Some current).
    { apply (IndexSpec.index_entries_completes JSON_stringify toBufferKey id
               (sources req) l (s0, previous) toRemove). now rewrite E. }
    destruct Hp as (current & ->).
    set (s2 := fold_left (remove_one id (sources req)) toRemove s1).
    assert (H2 : indexed_from id (sources req) s s2).
    { eapply indexed_from_trans; [exact H0|].
      eapply indexed_from_trans; [exact H1|].
      apply indexed_from_third_loop. }
    destruct (version req =? 0) eqn:Ev.
    + exists (with_console (console s2 ++ [warn_missing_version id]) s2).
      split.
      * eapply indexed_from_trans; [exact H2|apply indexed_from_console].
      * right. split; reflexivity.
    + exists s2. split; [exact H2|]. right. split; reflexivity.
  - exists (abandoned id s1). split.
    + eapply indexed_from_trans; [exact H0|].
      eapply indexed_from_trans; [exact H1|apply indexed_from_console].
    + left. split; [|reflexivity].
      destruct (pairs_of l) as [current|] eqn:Ep; [|reflexivity].
      rewrite (IndexSpec.index_entries_pairs JSON_stringify toBufferKey id
                 (sources req) l current (s0, previous) Ep) in E.
      discriminate E.
Qed.

(** The fields [indexEntry] leaves alone, and what it does to the
    version *)
Lemma indexEntry_frame id req s :
  committing (indexEntry id req s) = committing s
  /\ sending (indexEntry id req s) = sending s
  /\ queuedIndexedProgress (indexEntry id req s) = queuedIndexedProgress s
  /\ table (indexEntry id req s) = table s
  /\ queue (indexEntry id req s) = queue s
  /\ lastIndexedVersion (indexEntry id req s)
     = if completes id req && negb (version req =? 0)
       then Z.max (version req) (lastIndexedVersion s)
       else lastIndexedVersion s.
Proof.
  destruct (indexEntry_shape id req s)
    as (s1 & (E1 & E2 & E3 & E4 & E5 & E6 & _) & [[-> ->] | [-> ->]]).
  - repeat split; assumption.
  - destruct (version req =? 0); simpl; rewrite ?E1;
      repeat split; assumption.
Qed.

(** *** The console *)

Lemma console_index_entries id srcs (l : list entry) :
  forall acc, console (fst (index_entries id srcs l acc)) = console (fst acc).
Proof.
  induction l as [|e l IH]; intros [s toRemove]; simpl; [reflexivity|].
  destruct (entry_pair e) as [[k v]|]; [|reflexivity].
  rewrite IH. unfold Index.index_one.
  destruct (match map_get key_eqb k toRemove with
            | Some old => negb (String.eqb v old)
            | None => true
            end); reflexivity.
Qed.

Lemma console_third_loop id srcs toRemove :
  forall s, console (fold_left (remove_one id srcs) toRemove s) = console s.
Proof.
  induction toRemove as [|kv l IH]; intros s; simpl; auto.
  rewrite IH. reflexivity.
Qed.

Lemma console_indexEntry id req s :
  console (indexEntry id req s) = console s ++ request_warnings id req.
Proof.
  unfold Index.indexEntry, Index.request_warnings, Index.completes,
    Index.current_entries.
  destruct (Source_for id) as [entity|]; [|reflexivity].
  destruct (previous_map req) as [previous|]; [|reflexivity].
  set (s0 := match entity with
             | Retrieval_fails =>
                 if deleted req then s
                 else with_console
                        (console s ++ [warn_error_retrieving id]) s
             | _ => s
             end).
  set (w := match entity with
            | Retrieval_fails =>
                if deleted req then [] else [warn_error_retrieving id]
            | _ => []
            end).
  assert (H0 : console s0 = console s ++ w).
  { unfold s0, w. destruct entity; try destruct (deleted req); simpl;
      now rewrite ?app_nil_r. }
  destruct (current_elements entity req) as [l|].
  2:{ simpl. now rewrite H0, <- app_assoc. }
  pose proof (console_index_entries id (sources req) l (s0, previous))
    as H1.
  destruct (index_entries id (sources req) l (s0, previous))
    as [s1 [toRemove|]] eqn:E; simpl in H1.
  - assert (Hp : exists current, pairs_of l = Some current).
    { apply (IndexSpec.index_entries_completes JSON_stringify toBufferKey id
               (sources req) l (s0, previous) toRemove). now rewrite E. }
    destruct Hp as (current & ->).
    destruct (version req =? 0); simpl;
      rewrite console_third_loop, H1, H0, <- ?app_assoc;
      [reflexivity|now rewrite !app_nil_r].
  - assert (Ep : pairs_of l = None).
    { destruct (pairs_of l) as [current|] eqn:Ep; [|reflexivity].
      rewrite (IndexSpec.index_entries_pairs JSON_stringify toBufferKey id
                 (sources req) l current (s0, previous) Ep) in E.
      discriminate E. }
    rewrite Ep. simpl. now rewrite H1, H0, <- app_assoc.
Qed.

(** X14.  Every row written is announced: the operations [indexEntry]
    adds for a source are operations on composite keys of that source, and
    for each of them the index key is recorded in [updatedIndexEntries]
    with all sources of the request; entries recorded before stay, with at
    least the sources they had. *)
Theorem indexEntry_announces_its_keys (id : prim) (req : IndexRequest)
  (s : State) :
  let s' := indexEntry id req s in
  (exists ops,
     operations s' = operations s ++ ops
     /\ Forall (fun o =>
                  exists k e,
                    Persisted.op_key o = fullKey k id
                    /\ map_get key_eqb k (updatedIndexEntries s') = Some e
                    /\ forall l x, sources req = Some l -> In x l -> In x e)
          ops)
  /\ forall k e,
       map_get key_eqb k (updatedIndexEntries s) = Some e ->
       exists e',
         map_get key_eqb k (updatedIndexEntries s') = Some e' /\ incl e e'.
Proof.
  intros s'. unfold s'.
  destruct (indexEntry_shape id req s)
    as (s1 & (_ & _ & _ & _ & _ & _ & Hg & ops & Ho & Hf) & Hs).
  assert (E : updatedIndexEntries (indexEntry id req s)
              = updatedIndexEntries s1
              /\ operations (indexEntry id req s) = operations s1).
  { destruct Hs as [[_ ->] | [_ ->]]; [split; reflexivity|].
    destruct (version req =? 0); split; reflexivity. }
  destruct E as [-> ->]. split; [|exact Hg].
  exists ops. split; [exact Ho|].
  eapply Forall_impl; [|exact Hf].
  intros o (k & Hk & e & He & Hsrc). now exists k, e.
Qed.

(** *** The progress that is recorded *)

Lemma fullKey_not_reserved k id : fullKey k id <> LAST_INDEXED_VERSION_KEY.
Proof.
  unfold Index.fullKey, SEPARATOR_BYTE, LAST_INDEXED_VERSION_KEY. intros H.
  assert (Hin : In Byte.x1e [Byte.x01; Byte.x02]).
  { rewrite <- H. apply in_or_app. right. now left. }
  destruct Hin as [E | [E | []]]; discriminate.
Qed.

Lemma bounded_le n m o : n <= m -> bounded n o -> bounded m o.
Proof.
  intros Hle H Hk. destruct (H Hk) as (p & Hp & Hb). exists p. split; auto.
  lia.
Qed.

Lemma row_bounded_apply n ops :
  forall t, Forall (bounded n) ops -> row_bounded n t ->
            row_bounded n (Persisted.apply_batch ops t).
Proof.
  unfold Persisted.apply_batch.
  induction ops as [|o ops IH]; intros t Hf Ht; [exact Ht|].
  inversion Hf as [|x l Ho Hf']; subst. simpl. apply IH; [exact Hf'|].
  intros v Hv.
  destruct (Persisted.bytes_eqb LAST_INDEXED_VERSION_KEY (Persisted.op_key o))
    eqn:E.
  - apply PersistedSpec.bytes_eqb_eq in E. symmetry in E.
    destruct (Ho E) as (p & -> & Hp).
    unfold Persisted.apply_operation in Hv. simpl in Hv.
    rewrite (map_get_set_same Persisted.bytes_eqb PersistedSpec.bytes_eqb_eq)
      in Hv.
    injection Hv as <-. now exists p.
  - assert (Hne : LAST_INDEXED_VERSION_KEY <> Persisted.op_key o).
    { intros H. apply PersistedSpec.bytes_eqb_eq in H. congruence. }
    apply Ht. rewrite <- Hv. symmetry.
    unfold Persisted.apply_operation.
    destruct (Persisted.op_type o), (Persisted.op_value o);
      try reflexivity;
      try (now apply (map_get_set_other Persisted.bytes_eqb
                        PersistedSpec.bytes_eqb_eq));
      now apply (map_get_delete_other Persisted.bytes_eqb
                   PersistedSpec.bytes_eqb_eq).
Qed.

Lemma indexedProgress_le s : indexedProgress s <= lastIndexedVersion s.
Proof. unfold indexedProgress. destruct (nextIndexRequest s); lia. Qed.

Lemma progress_ready_le n s p :
  progress_below n s -> progress_ready s = Some p -> p <= n.
Proof.
  intros (_ & _ & _ & _ & _ & Hq & _). unfold progress_ready.
  destruct (queuedIndexedProgress s) as [q|]; [|discriminate].
  destruct (q =? 0); [discriminate|]. intros H. injection H as <-.
  now apply Hq.
Qed.

Lemma progress_below_le n m s :
  n <= m -> progress_below n s -> progress_below m s.
Proof.
  intros Hle (H0 & H1 & H2 & H3 & H4 & H5 & H6). unfold progress_below.
  split; [lia|]. split; [lia|]. split; [|split; [|split; [|split]]].
  - eapply Forall_impl; [|exact H2]. intros o. now apply bounded_le.
  - eapply Forall_impl; [|exact H3]. intros c [Hc Hp]. split; [|lia].
    eapply Forall_impl; [|exact Hc]. intros o. now apply bounded_le.
  - eapply Forall_impl; [|exact H4]. intros p. simpl. lia.
  - intros p Hp. specialize (H5 p Hp). lia.
  - intros v Hv. destruct (H6 v Hv) as (p & -> & Hp). exists p. split; auto.
    lia.
Qed.

(** The rows under the progress key are out of the range that
    [resumeIndex] scans. *)
Lemma progress_row_kept ids t :
  map_get Persisted.bytes_eqb LAST_INDEXED_VERSION_KEY (remove_rows_of ids t)
  = map_get Persisted.bytes_eqb LAST_INDEXED_VERSION_KEY t.
Proof.
  unfold Index.remove_rows_of.
  induction t as [|[k v] t IH]; [reflexivity|]. simpl.
  destruct (Persisted.bytes_eqb LAST_INDEXED_VERSION_KEY k) eqn:E.
  - apply PersistedSpec.bytes_eqb_eq in E. subst k. reflexivity.
  - destruct (negb _); simpl; rewrite ?E; exact IH.
Qed.

Lemma progress_below_indexed id srcs n s s1 :
  indexed_from id srcs s s1 -> progress_below n s -> progress_below n s1.
Proof.
  intros (E1 & E2 & E3 & E4 & E5 & _ & _ & ops & Ho & Hf)
         (H0 & H1 & H2 & H3 & H4 & H5 & H6).
  unfold progress_below. rewrite E1, E2, E3, E4, E5, Ho.
  repeat (split; [assumption|]). split; [|auto].
  apply Forall_app. split; [exact H2|].
  eapply Forall_impl; [|exact Hf]. intros o (k & Hk & _) Hr.
  rewrite Hk in Hr. now apply fullKey_not_reserved in Hr.
Qed.

Lemma progress_below_version n m s :
  m <= n -> progress_below n s ->
  progress_below n (with_lastIndexedVersion m s).
Proof.
  intros Hm (H0 & H1 & H2). unfold progress_below. simpl. auto.
Qed.

(** Whatever the step, what is on its way to the table stays below a
    bound that [lastIndexedVersion] stays below. *)
Lemma progress_below_step e s n :
  progress_below n s -> lastIndexedVersion (step e s) <= n ->
  progress_below n (step e s).
Proof.
  intros Hok Hn.
  destruct e as [id previous u| | | | | | |L]; simpl in Hn |- *.
  - unfold updated in Hn |- *. destruct (truthy id); [|exact Hok].
    destruct (mo_get same_value_zero id (queue s)) as [r|]; simpl;
      destruct (u_version u =? 0); exact Hok.
  - unfold Index.index_next in Hn |- *.
    destruct (map_data (queue s)) as [|[id req] l]; [exact Hok|].
    set (s0 := with_queue (mo_delete same_value_zero id (queue s)) s)
      in Hn |- *.
    assert (H0 : progress_below n s0) by exact Hok.
    destruct (indexEntry_shape id req s0) as (s1 & Hi & [[_ E] | [_ E]]);
      rewrite E in Hn |- *.
    + eapply progress_below_indexed; eassumption.
    + destruct (version req =? 0);
        [eapply progress_below_indexed; eassumption|].
      apply progress_below_version; [exact Hn|].
      eapply progress_below_indexed; eassumption.
  - pose proof (indexedProgress_le s) as Hle.
    pose proof (progress_ready_le n s) as Hrd.
    destruct Hok as (H0 & H1 & H2 & H3 & H4 & H5 & H6).
    assert (Hp : indexedProgress s <= n) by lia.
    unfold commitOperations.
    destruct (operations s) as [|o ops] eqn:Eo.
    + unfold progress_below. simpl. rewrite Eo.
      repeat split; auto. intros p Hq. now injection Hq as <-.
    + assert (Hrd' : forall p, progress_ready (with_operations [] 0 s)
                                = Some p -> p <= n).
      { intros p Hq. apply Hrd; [|exact Hq].
        unfold progress_below. rewrite Eo. auto 10. }
      destruct (progress_ready (with_operations [] 0 s)) as [p|];
        unfold progress_below; simpl.
      * repeat split; auto; try discriminate.
        apply Forall_app. split; [exact H3|]. constructor; [|constructor].
        simpl. split; [|exact Hp]. rewrite app_comm_cons.
        apply Forall_app. split; [exact H2|]. constructor; [|constructor].
        intros _. exists p. split; [reflexivity|]. now apply Hrd'.
      * repeat split; auto.
        apply Forall_app. split; [exact H3|]. constructor; [|constructor].
        simpl. split; [exact H2|exact Hp].
  - destruct Hok as (H0 & H1 & H2 & H3 & H4 & H5 & H6).
    unfold batch_resolved.
    destruct (committing s) as [|[ops p] l] eqn:Ec;
      [unfold progress_below; rewrite Ec; auto 10|].
    inversion H3 as [|x l' [Hops Hp] Hl]; subst.
    unfold progress_below. simpl. repeat split; auto.
    + apply Forall_app. split; [exact H4|]. constructor; [exact Hp|constructor].
    + now apply row_bounded_apply.
  - destruct Hok as (H0 & H1 & H2 & H3 & H4 & H5 & H6).
    unfold updates_written.
    destruct (sending s) as [|p l] eqn:Es;
      [unfold progress_below; rewrite Es; auto 10|].
    inversion H4 as [|x l' Hp Hl]; subst.
    unfold progress_below. simpl. repeat split; auto.
    intros q Hq. injection Hq as <-. exact Hp.
  - pose proof (progress_ready_le n s) as Hrd.
    unfold store_progress.
    destruct (progress_ready s) as [p|]; [|exact Hok].
    specialize (Hrd p Hok eq_refl).
    destruct Hok as (H0 & H1 & H2 & H3 & H4 & H5 & H6).
    unfold progress_below. simpl. repeat split; auto; try discriminate.
    intros v Hv.
    rewrite (map_get_set_same Persisted.bytes_eqb PersistedSpec.bytes_eqb_eq)
      in Hv.
    injection Hv as <-. now exists p.
  - destruct Hok as (H0 & H1 & H2 & H3 & H4 & H5 & H6).
    unfold rebuildIndex, progress_below. simpl. repeat split; auto.
    intros v Hv. unfold LAST_INDEXED_VERSION_KEY in Hv. simpl in Hv.
    injection Hv as <-. now exists 0.
  - unfold Index.resumeIndex in Hn |- *.
    destruct (stored_version s) as [p|]; [|exact Hok].
    simpl in Hn.
    destruct Hok as (H0 & H1 & H2 & H3 & H4 & H5 & H6).
    unfold progress_below. simpl. repeat split; auto.
    destruct (p =? 0).
    + intros v Hv. discriminate Hv.
    + intros v Hv. rewrite progress_row_kept in Hv. now apply H6.
Qed.

Lemma lastIndexedVersion_step e s :
  (forall L, e <> Resume L) ->
  lastIndexedVersion s <= lastIndexedVersion (step e s).
Proof.
  intros He. destruct e as [id previous u| | | | | | |L]; simpl.
  - unfold updated. destruct (truthy id); [|lia].
    destruct (mo_get same_value_zero id (queue s)) as [r|]; simpl;
      destruct (u_version u =? 0); simpl; lia.
  - unfold Index.index_next.
    destruct (map_data (queue s)) as [|[id req] l]; [lia|].
    destruct (indexEntry_frame id req
                (with_queue (mo_delete same_value_zero id (queue s)) s))
      as (_ & _ & _ & _ & _ & ->).
    destruct (completes id req && negb (version req =? 0)); simpl; lia.
  - unfold commitOperations. destruct (operations s); [simpl; lia|].
    destruct (progress_ready (with_operations [] 0 s)); simpl; lia.
  - unfold batch_resolved. destruct (committing s) as [|[ops p] l];
      simpl; lia.
  - unfold updates_written. destruct (sending s); simpl; lia.
  - unfold store_progress. destruct (progress_ready s); simpl; lia.
  - simpl. lia.
  - now destruct (He L).
Qed.

Lemma progress_ok_step e s :
  (forall L, e <> Resume L) -> progress_ok s -> progress_ok (step e s).
Proof.
  unfold progress_ok. intros He Hok.
  apply progress_below_step; [|lia].
  eapply progress_below_le; [|exact Hok].
  now apply lastIndexedVersion_step.
Qed.

Lemma progress_ok_run tr :
  no_resume tr = true ->
  forall s, progress_ok s -> progress_ok (run tr s).
Proof.
  unfold no_resume, Index.run.
  induction tr as [|e tr IH]; intros Hn s Hs; [exact Hs|].
  simpl in Hn. apply andb_prop in Hn. destruct Hn as [He Hn].
  simpl. apply IH; [exact Hn|].
  apply progress_ok_step; [|exact Hs].
  intros L ->. discriminate He.
Qed.

Lemma progress_ok_new : progress_ok new_State.
Proof.
  unfold progress_ok, progress_below. simpl.
  repeat split; try constructor; try discriminate; lia.
Qed.

(** The version a resume starts from *)
Lemma stored_version_resumable t :
  resumable t ->
  exists n,
    stored_version (started t) = Some n /\ 0 <= n /\ row_bounded n t.
Proof.
  intros Ht. unfold stored_version, stored_progress, started. simpl.
  destruct (map_get Persisted.bytes_eqb LAST_INDEXED_VERSION_KEY t)
    as [v|] eqn:E.
  - destruct (Ht v E) as (p & -> & Hp). exists p.
    split; [reflexivity|]. split; [exact Hp|].
    intros v Hv. rewrite E in Hv. injection Hv as <-. exists p. split; auto.
    lia.
  - exists 0. split; [reflexivity|]. split; [lia|].
    intros v Hv. rewrite E in Hv. discriminate Hv.
Qed.

Lemma progress_ok_resumed t L :
  resumable t -> progress_ok (step (Resume L) (started t)).
Proof.
  intros Ht. destruct (stored_version_resumable t Ht) as (n & En & Hn & Hr).
  assert (El : lastIndexedVersion (step (Resume L) (started t)) = n).
  { simpl. unfold Index.resumeIndex. now rewrite En. }
  unfold progress_ok. rewrite El.
  apply progress_below_step; [|lia].
  unfold progress_below, started. simpl.
  repeat split; try constructor; try discriminate; try lia. exact Hr.
Qed.

(** In every state an index reaches, with or without resumes, something
    bounds what is on its way to the table. *)
Lemma progress_below_run tr :
  forall s n, progress_below n s -> exists m, progress_below m (run tr s).
Proof.
  unfold Index.run.
  induction tr as [|e tr IH]; intros s n Hs; [now exists n|].
  simpl. apply (IH _ (Z.max n (lastIndexedVersion (step e s)))).
  apply progress_below_step; [|lia].
  eapply progress_below_le; [|exact Hs]. lia.
Qed.

Lemma stored_version_below n s :
  progress_below n s -> exists p, stored_version s = Some p /\ p <= n.
Proof.
  intros (H0 & _ & _ & _ & _ & _ & H6).
  unfold stored_version, stored_progress.
  destruct (map_get Persisted.bytes_eqb LAST_INDEXED_VERSION_KEY (table s))
    as [v|] eqn:E.
  - destruct (H6 v E) as (p & -> & Hp). now exists p.
  - now exists 0.
Qed.

(** X15.  The recorded progress never runs ahead of the indexing, as long
    as no [resumeIndex] comes in between: no step other than a resume
    lowers [lastIndexedVersion]; in every state an index reaches without a
    resume, from nothing or from a resume at the start of the process on a
    table whose progress, if it has one, is a number that is not negative,
    the progress waiting in [queuedIndexedProgress] and the progress
    stored under [[0x01,0x02]] are numbers of at most [lastIndexedVersion];
    no operation of [indexEntry] writes to that key.  A resume sets
    [lastIndexedVersion] to the progress that is stored, whatever it was:
    in every state an index reaches the stored progress is a number, and
    after a run without resumes it is at most the [lastIndexedVersion]
    that the resume overwrites. *)
Theorem progress_never_ahead :
  (forall e s,
     (forall L, e <> Resume L) ->
     lastIndexedVersion s <= lastIndexedVersion (step e s))
  /\ (forall t L tr s,
        resumable t -> no_resume tr = true ->
        s = run tr new_State \/ s = run tr (step (Resume L) (started t)) ->
        0 <= lastIndexedVersion s
        /\ (forall p, queuedIndexedProgress s = Some p ->
                      p <= lastIndexedVersion s)
        /\ (forall v, stored_progress s = Some v ->
              exists p, v = Persisted.OVNumber p /\ p <= lastIndexedVersion s))
  /\ (forall s id req o,
        In o (operations (indexEntry id req s)) ->
        Persisted.op_key o = LAST_INDEXED_VERSION_KEY -> In o (operations s))
  /\ (forall tr L,
        let s := run tr new_State in
        exists n,
          stored_version s = Some n
          /\ lastIndexedVersion (step (Resume L) s) = n
          /\ (no_resume tr = true -> n <= lastIndexedVersion s)).
Proof.
  split; [exact lastIndexedVersion_step|]. split; [|split].
  - intros t L tr s Ht Hn Hs.
    assert (Hok : progress_ok s).
    { destruct Hs as [-> | ->]; apply progress_ok_run; auto.
      - apply progress_ok_new.
      - now apply progress_ok_resumed. }
    destruct Hok as (H0 & _ & _ & _ & _ & H5 & H6). auto.
  - intros s id req o Hin Hk.
    destruct (indexEntry_shape id req s)
      as (s1 & (_ & _ & _ & _ & _ & _ & _ & ops & Ho & Hf) & Hs).
    assert (E : operations (indexEntry id req s) = operations s1).
    { destruct Hs as [[_ ->] | [_ ->]]; [reflexivity|].
      now destruct (version req =? 0). }
    rewrite E, Ho in Hin. apply in_app_or in Hin.
    destruct Hin as [H | H]; [exact H|].
    rewrite Forall_forall in Hf. destruct (Hf o H) as (k & Hk' & _).
    rewrite Hk' in Hk. now apply fullKey_not_reserved in Hk.
  - intros tr L s.
    destruct (progress_below_run tr new_State 0 progress_ok_new) as (m & Hm).
    fold s in Hm. destruct (stored_version_below m s Hm) as (p & Ep & _).
    exists p. split; [exact Ep|]. split.
    + simpl. unfold Index.resumeIndex. now rewrite Ep.
    + intros Hn.
      pose proof (progress_ok_run tr Hn new_State progress_ok_new) as Hok.
      fold s in Hok.
      destruct (stored_version_below _ s Hok) as (p' & Ep' & Hp').
      rewrite Ep in Ep'. injection Ep' as <-. exact Hp'.
Qed.

(** *** Updates without a version *)

Lemma updated_queue_unversioned (s : State) (id : prim)
  (previous : option value) (u : Update) :
  queue_ok s -> truthy id = true -> u_version u = 0 ->
  map_data (queue (updated id previous u s))
  = filter (fun kv => negb (same_value_zero id (fst kv)))
      (map_data (queue s))
    ++ [(id,
         match mo_get same_value_zero id (queue s) with
         | Some old =>
             mkIndexRequest (previousState old) (deleted old) (sources old) 0
         | None => mkIndexRequest previous false None 0
         end)].
Proof.
  intros Hq Hid Hv. unfold queue_ok in Hq.
  unfold updated, mo_get. rewrite Hid, Hv.
  destruct (map_get same_value_zero id (map_data (queue s))) as [r|] eqn:E;
    simpl.
  - rewrite (map_delete_filter same_value_zero same_value_zero_eq)
      by assumption.
    apply map_set_fresh.
    apply (BatcherSpec.map_get_notin same_value_zero same_value_zero_eq).
    apply filter_not_In.
  - rewrite (map_set_fresh same_value_zero) by assumption.
    apply (map_get_None_notin same_value_zero same_value_zero_eq) in E.
    now rewrite (filter_keys_id same_value_zero same_value_zero_eq)
      by assumption.
Qed.

(** The version of a request has no part in the operations. *)
Lemma operations_whatever_the_version id req v s :
  operations (indexEntry id req s)
  = operations
      (indexEntry id
         (mkIndexRequest (previousState req) (deleted req) (sources req) v)
         s).
Proof.
  unfold Index.indexEntry, Index.previous_map, Index.current_elements.
  cbn [previousState deleted sources version].
  destruct (Source_for id) as [entity|]; [|reflexivity].
  destruct (match previousState req with
            | Some p =>
                match indexBy p with
                | Some r => collect_previous JSON_stringify (entries_of r) []
                | None => None
                end
            | None => Some []
            end) as [previous|]; [|reflexivity].
  match goal with
  | |- context [match ?c with Some _ => _ | None => abandoned id ?s0 end] =>
      destruct c as [l|]; [|reflexivity];
      destruct (index_entries id (sources req) l (s0, previous))
        as [s1 [toRemove|]]; [|reflexivity]
  end.
  destruct (version req =? 0), (v =? 0); reflexivity.
Qed.

(** X16.  An update without a version is queued all the same: [updated]
    moves the request of the id to the end of a queue that holds one
    request per id (or enters a new one there) with the missing version
    before it raises the error, so the deleted mark and the sources of the
    event are not taken over; when a request without version is indexed,
    [lastIndexedVersion] stays as it is, the console ends with the warning
    on the missing version when nothing has thrown and with the warning
    of the [catch] otherwise, and the operations are those of the request
    with any other version. *)
Theorem update_without_version (s : State) (id : prim)
  (previous : option value) (u : Update) :
  queue_ok s -> truthy id = true -> u_version u = 0 ->
  let s' := updated id previous u s in
  let req0 :=
    match mo_get same_value_zero id (queue s) with
    | Some old =>
        mkIndexRequest (previousState old) (deleted old) (sources old) 0
    | None => mkIndexRequest previous false None 0
    end in
  console s' = console s ++ [error_missing_version id]
  /\ map_data (queue s')
     = filter (fun kv => negb (same_value_zero id (fst kv)))
         (map_data (queue s))
       ++ [(id, req0)]
  /\ mo_get same_value_zero id (queue s') = Some req0
  /\ forall req s0,
       version req = 0 ->
       lastIndexedVersion (indexEntry id req s0) = lastIndexedVersion s0
       /\ console (indexEntry id req s0)
          = console s0 ++ request_warnings id req
       /\ (exists w,
             request_warnings id req
             = w ++ [if completes id req then warn_missing_version id
                     else warn_error_indexing id])
       /\ forall v,
            operations (indexEntry id req s0)
            = operations
                (indexEntry id
                   (mkIndexRequest (previousState req) (deleted req)
                      (sources req) v) s0).
Proof.
  intros Hq Hid Hv s' req0. split; [|split; [|split]].
  - unfold s', updated. rewrite Hid, Hv.
    destruct (mo_get same_value_zero id (queue s)); reflexivity.
  - now apply updated_queue_unversioned.
  - unfold s', req0, updated. rewrite Hid, Hv.
    destruct (mo_get same_value_zero id (queue s)); simpl; unfold mo_get;
      simpl; apply (map_get_set_same same_value_zero same_value_zero_eq).
  - intros req s0 Hr. split; [|split; [|split]].
    + destruct (indexEntry_frame id req s0) as (_ & _ & _ & _ & _ & ->).
      rewrite Hr. simpl. now rewrite andb_false_r.
    + apply console_indexEntry.
    + unfold Index.request_warnings. rewrite Hr. simpl.
      destruct (Source_for id) as [entity|] eqn:Es.
      * destruct (previous_map req) as [previous'|] eqn:Ep.
        -- eexists. destruct (completes id req); reflexivity.
        -- exists []. unfold Index.completes. now rewrite Ep.
      * exists []. unfold Index.completes, Index.current_entries.
        rewrite Es. now destruct (previous_map req).
    + intros v. apply operations_whatever_the_version.
Qed.

(** *** A pass over the queue *)

Abbreviation completed_versions :=
  (completed_versions JSON_stringify indexBy Source_for).
Abbreviation pass_warnings :=
  (pass_warnings JSON_stringify indexBy Source_for).
Abbreviation indexed_all :=
  (indexed_all JSON_stringify toBufferKey indexBy Source_for).

Lemma advanced_le l : forall n, n <= advanced l n.
Proof.
  unfold advanced. induction l as [|y l IH]; intros n; simpl; [lia|].
  destruct (y =? 0); [apply IH|]. etransitivity; [|apply IH]. lia.
Qed.

Lemma advanced_ge l :
  forall n v, In v l -> v <> 0 -> v <= advanced l n.
Proof.
  induction l as [|x l IH]; intros n v Hin Hv; [contradiction|].
  change (advanced (x :: l) n)
    with (advanced l (if x =? 0 then n else Z.max x n)).
  destruct Hin as [-> | Hin]; [|now apply IH].
  apply Z.eqb_neq in Hv. rewrite Hv.
  etransitivity; [|apply advanced_le]. lia.
Qed.

(** What a commit that is waited for leaves *)
Lemma commit_and_wait_frame s :
  queue (commit_and_wait s) = queue s
  /\ lastIndexedVersion (commit_and_wait s) = lastIndexedVersion s
  /\ console (commit_and_wait s) = console s
  /\ operations (commit_and_wait s) = [].
Proof.
  unfold commit_and_wait, commitOperations.
  destruct (operations s) as [|o ops] eqn:Eo; simpl; [now rewrite Eo|].
  destruct (progress_ready (with_operations [] 0 s)); simpl;
    unfold batch_resolved; simpl;
    destruct (committing s) as [|[ops' p'] l]; simpl; repeat split.
Qed.

Lemma commit_and_wait_table s :
  committing s = [] ->
  committing (commit_and_wait s) = []
  /\ table (commit_and_wait s)
     = match operations s with
       | [] => table s
       | _ :: _ => Persisted.apply_batch (batch_of s) (table s)
       end.
Proof.
  intros Hc. unfold commit_and_wait, commitOperations, batch_of.
  destruct (operations s) as [|o ops] eqn:Eo; simpl; [now split|].
  change (progress_ready (with_operations [] 0 s)) with (progress_ready s).
  destruct (progress_ready s); simpl; unfold batch_resolved; simpl;
    rewrite Hc; simpl; rewrite ?app_nil_r; split; reflexivity.
Qed.

(** One request of the pass *)
Lemma pass_request id req l s :
  map_data (queue s) = (id, req) :: l ->
  let s1 :=
    indexEntry id req
      (with_queue (mo_delete same_value_zero id (queue s)) s) in
  map_data (queue s1) = l
  /\ lastIndexedVersion s1
     = (if completes id req && negb (version req =? 0)
        then Z.max (version req) (lastIndexedVersion s)
        else lastIndexedVersion s)
  /\ console s1 = console s ++ request_warnings id req.
Proof.
  intros Hq s1. unfold s1.
  destruct (indexEntry_frame id req
              (with_queue (mo_delete same_value_zero id (queue s)) s))
    as (_ & _ & _ & _ & E5 & E6).
  rewrite E5, E6, console_indexEntry. simpl. rewrite Hq. simpl.
  now rewrite same_value_zero_refl.
Qed.

Lemma advanced_request id req l n :
  advanced (completed_versions ((id, req) :: l)) n
  = advanced (completed_versions l)
      (if completes id req && negb (version req =? 0)
       then Z.max (version req) n else n).
Proof.
  unfold Index.completed_versions. simpl.
  destruct (completes id req); simpl; [|reflexivity].
  unfold advanced. simpl. now destruct (version req =? 0).
Qed.

Lemma pass_from (threshold : Z) :
  forall l since s,
    map_data (queue s) = l ->
    let r := processQueue_for false threshold l since s in
    snd r = false
    /\ map_data (queue (fst r)) = []
    /\ lastIndexedVersion (fst r)
       = advanced (completed_versions l) (lastIndexedVersion s)
    /\ console (fst r) = console s ++ pass_warnings l.
Proof.
  induction l as [|[id req] l IH]; intros since s Hq.
  - simpl. rewrite app_nil_r. repeat split; auto.
  - cbn [Index.processQueue_for].
    destruct (pass_request id req l s Hq) as (H1 & H2 & H3).
    set (s1 := indexEntry id req
                 (with_queue (mo_delete same_value_zero id (queue s)) s))
      in *.
    destruct (commit_and_wait_frame s1) as (F1 & F2 & F3 & _).
    rewrite advanced_request, <- H2.
    unfold Index.pass_warnings. cbn [flat_map fst snd].
    rewrite app_assoc, <- H3.
    destruct (threshold <? since).
    + rewrite <- F2, <- F3. apply IH. now rewrite F1.
    + now apply IH.
Qed.

Lemma pass_without_commit (threshold : Z) :
  forall l since s,
    Z.of_nat (length l) + since <= threshold + 1 ->
    processQueue_for false threshold l since s = (indexed_all l s, false).
Proof.
  induction l as [|[id req] l IH]; intros since s Hl; [reflexivity|].
  cbn [Index.processQueue_for Index.indexed_all fold_left fst snd].
  cbn [length] in Hl.
  assert (E : (threshold <? since) = false) by (apply Z.ltb_ge; lia).
  rewrite E. apply IH. lia.
Qed.

Lemma pass_first_commit (threshold : Z) :
  forall l1 l2 since s,
    l1 <> [] ->
    Z.of_nat (length l1) = Z.max 1 (threshold + 2 - since) ->
    processQueue_for false threshold (l1 ++ l2) since s
    = processQueue_for false threshold l2 0
        (commit_and_wait (indexed_all l1 s)).
Proof.
  induction l1 as [|[id req] l1 IH]; intros l2 since s Hne Hl;
    [contradiction|].
  cbn [app Index.processQueue_for Index.indexed_all fold_left fst snd].
  cbn [length] in Hl.
  destruct l1 as [|kv l1].
  - assert (E : (threshold <? since) = true)
      by (apply Z.ltb_lt; simpl in Hl; lia).
    rewrite E. reflexivity.
  - assert (E : (threshold <? since) = false)
      by (apply Z.ltb_ge; cbn [length] in Hl; lia).
    rewrite E. apply IH; [discriminate|]. cbn [length] in Hl |- *. lia.
Qed.

Lemma operations_indexed_all :
  forall l s, exists ops, operations (indexed_all l s) = operations s ++ ops.
Proof.
  induction l as [|[id req] l IH]; intros s.
  - exists []. simpl. now rewrite app_nil_r.
  - cbn [Index.indexed_all fold_left fst snd].
    set (s0 := with_queue (mo_delete same_value_zero id (queue s)) s).
    destruct (IH (indexEntry id req s0)) as (ops & Ho).
    destruct (indexEntry_shape id req s0)
      as (s1 & (_ & _ & _ & _ & _ & _ & _ & ops1 & Ho1 & _) & Hs).
    assert (E : operations (indexEntry id req s0) = operations s1).
    { destruct Hs as [[_ ->] | [_ ->]]; [reflexivity|].
      now destruct (version req =? 0). }
    exists (ops1 ++ ops). unfold Index.indexed_all in Ho.
    rewrite Ho, E, Ho1. simpl. now rewrite app_assoc.
Qed.

(** X19.  A pass over the queue indexes every queued request: the loop
    of [processQueue] over the requests of the queue, when it is not
    cancelled, comes to its end with the queue empty, with
    [lastIndexedVersion] at the largest of its old value and the versions
    of the requests that were indexed to the end, so at no less than each
    of those, and with the warnings of each request on the console.  As
    long as the count of requests since the last commit has not passed the
    threshold there is no commit and the operations that were waiting are
    still in front of the ones added; the request at which the count has
    passed it is followed by a commit, after which the count starts again
    from 0, no operation waits and, when no batch was in flight, the batch
    is in the table.  A pass that is cancelled returns after the first
    request and leaves the others in the queue. *)
Theorem pass_empties_the_queue (threshold since : Z) (s : State) :
  let l := map_data (queue s) in
  let r := processQueue_for false threshold l since s in
  snd r = false
  /\ map_data (queue (fst r)) = []
  /\ lastIndexedVersion (fst r)
     = advanced (completed_versions l) (lastIndexedVersion s)
  /\ (forall id req,
        In (id, req) l -> completes id req = true -> version req <> 0 ->
        version req <= lastIndexedVersion (fst r))
  /\ console (fst r) = console s ++ pass_warnings l
  /\ (Z.of_nat (length l) + since <= threshold + 1 ->
      r = (indexed_all l s, false)
      /\ exists ops, operations (fst r) = operations s ++ ops)
  /\ (forall l1 l2,
        l = l1 ++ l2 -> l1 <> [] ->
        Z.of_nat (length l1) = Z.max 1 (threshold + 2 - since) ->
        r = processQueue_for false threshold l2 0
              (commit_and_wait (indexed_all l1 s)))
  /\ (forall s1,
        operations (commit_and_wait s1) = []
        /\ (committing s1 = [] ->
            committing (commit_and_wait s1) = []
            /\ table (commit_and_wait s1)
               = match operations s1 with
                 | [] => table s1
                 | _ :: _ => Persisted.apply_batch (batch_of s1) (table s1)
                 end))
  /\ (forall id req l',
        l = (id, req) :: l' ->
        let c := processQueue_for true threshold l since s in
        snd c = true
        /\ map_data (queue (fst c)) = l'
        /\ console (fst c) = console s ++ request_warnings id req).
Proof.
  intros l r.
  destruct (pass_from threshold l since s eq_refl) as (H1 & H2 & H3 & H4).
  fold r in H1, H2, H3, H4.
  split; [exact H1|]. split; [exact H2|]. split; [exact H3|].
  split; [|split; [exact H4|split; [|split; [|split]]]].
  - intros id req Hin Hc Hv. rewrite H3. apply advanced_ge; [|exact Hv].
    unfold Index.completed_versions.
    apply (in_map (fun kv => version (snd kv)) _ (id, req)).
    apply filter_In. split; [exact Hin|exact Hc].
  - intros Hl. unfold r. rewrite pass_without_commit by exact Hl.
    split; [reflexivity|]. apply operations_indexed_all.
  - intros l1 l2 El Hne Hl. unfold r. rewrite El.
    now apply pass_first_commit.
  - intros s1. split; [apply commit_and_wait_frame|].
    apply commit_and_wait_table.
  - intros id req l' El c. unfold c. rewrite El.
    cbn [Index.processQueue_for].
    destruct (pass_request id req l' s El) as (P1 & _ & P3).
    set (s1 := indexEntry id req
                 (with_queue (mo_delete same_value_zero id (queue s)) s))
      in *.
    destruct (commit_and_wait_frame s1) as (F1 & _ & F3 & _).
    destruct (threshold <? since); simpl; rewrite ?F1, ?F3; auto.
Qed.

End QueueFacts.

End IndexQueueSpec.

(* ================================================================== *)
(** * Range scans: reading an index and listing entities *)
(* ================================================================== *)

Module ScanSpec.
Import Js JsFacts Persisted.

(** *** The order of keys *)

Lemma to_N_inj (x y : Byte.byte) :
  Strings.Byte.to_N x = Strings.Byte.to_N y -> x = y.
Proof.
  intros H. pose proof (Strings.Byte.of_to_N x) as Hx.
  rewrite H, Strings.Byte.of_to_N in Hx. now injection Hx.
Qed.

Lemma compare_bytes_refl a : compare_bytes a a = Eq.
Proof.
  induction a as [|x a IH]; simpl; [reflexivity|].
  now rewrite N.compare_refl.
Qed.

Lemma compare_bytes_eq a : forall b, compare_bytes a b = Eq -> a = b.
Proof.
  induction a as [|x a IH]; intros [|y b]; simpl; try discriminate;
    [reflexivity|].
  destruct (N.compare_spec (Strings.Byte.to_N x) (Strings.Byte.to_N y))
    as [E | E | E]; try discriminate.
  intros H. apply to_N_inj in E. subst y. f_equal. now apply IH.
Qed.

Lemma compare_bytes_antisym a :
  forall b, compare_bytes b a = CompOpp (compare_bytes a b).
Proof.
  induction a as [|x a IH]; intros [|y b]; simpl; try reflexivity.
  rewrite (N.compare_antisym (Strings.Byte.to_N x) (Strings.Byte.to_N y)).
  destruct (N.compare (Strings.Byte.to_N x) (Strings.Byte.to_N y)); simpl;
    auto.
Qed.

Lemma compare_bytes_trans a :
  forall b c,
    compare_bytes a b <> Gt -> compare_bytes b c <> Gt ->
    compare_bytes a c <> Gt.
Proof.
  induction a as [|x a IH]; intros [|y b] [|z c]; simpl; try congruence.
  destruct (N.compare_spec (Strings.Byte.to_N x) (Strings.Byte.to_N y))
    as [E1 | E1 | E1];
    destruct (N.compare_spec (Strings.Byte.to_N y) (Strings.Byte.to_N z))
      as [E2 | E2 | E2];
    destruct (N.compare_spec (Strings.Byte.to_N x) (Strings.Byte.to_N z))
      as [E3 | E3 | E3];
    try congruence; try lia.
  apply IH.
Qed.

(** *** The scan *)

Lemma In_insert_row r l x : In x (insert_row r l) <-> x = r \/ In x l.
Proof.
  induction l as [|y l IH]; simpl; [intuition|].
  destruct (compare_bytes (fst r) (fst y)); simpl; rewrite ?IH; intuition.
Qed.

Lemma In_sorted l x : In x (fold_right insert_row [] l) <-> In x l.
Proof.
  induction l as [|y l IH]; simpl; [tauto|].
  rewrite In_insert_row, IH. intuition.
Qed.

Lemma in_key_order_insert r l :
  in_key_order l -> in_key_order (insert_row r l).
Proof.
  induction l as [|y l IH]; simpl; intros H.
  - split; [contradiction|exact I].
  - destruct H as [Hy Hl].
    destruct (compare_bytes (fst r) (fst y)) eqn:E; simpl.
    + split; [|split; assumption].
      intros z [<- | Hz]; [congruence|].
      apply compare_bytes_trans with (fst y); [congruence|now apply Hy].
    + split; [|split; assumption].
      intros z [<- | Hz]; [congruence|].
      apply compare_bytes_trans with (fst y); [congruence|now apply Hy].
    + split; [|now apply IH].
      intros z Hz. apply In_insert_row in Hz. destruct Hz as [-> | Hz].
      * rewrite compare_bytes_antisym, E. discriminate.
      * now apply Hy.
Qed.

Lemma in_key_order_sorted l : in_key_order (fold_right insert_row [] l).
Proof.
  induction l as [|y l IH]; simpl; [exact I|].
  now apply in_key_order_insert.
Qed.

Lemma In_iterable o t r :
  In r (iterable o t) <-> In r t /\ in_range o (fst r) = true.
Proof.
  unfold iterable. rewrite In_sorted, filter_In. reflexivity.
Qed.

(** *** The range of one index key *)

(** What lies strictly between [prefix; 30] and [prefix; 31] is what
    starts with [prefix; 30] and goes on. *)
Lemma between_separators (prefix : bytes) :
  forall key,
    (compare_bytes key (prefix ++ [Byte.x1e]) = Gt
     /\ compare_bytes key (prefix ++ [Byte.x1f]) = Lt)
    <-> exists rest, rest <> [] /\ key = prefix ++ [Byte.x1e] ++ rest.
Proof.
  induction prefix as [|x p IH]; intros [|y k]; simpl.
  - split; [intros [H _]; discriminate|].
    intros (rest & _ & H). discriminate.
  - destruct (N.compare_spec (Strings.Byte.to_N y) 30) as [E | E | E];
      destruct (N.compare_spec (Strings.Byte.to_N y) 31) as [E' | E' | E'];
      try lia.
    + change 30%N with (Strings.Byte.to_N Byte.x1e) in E.
      apply to_N_inj in E. subst y. split.
      * intros [H _]. exists k. split; [|reflexivity].
        intros ->. discriminate H.
      * intros (rest & Hr & H). injection H as H. subst k.
        split; [|reflexivity]. destruct rest; [contradiction|reflexivity].
    + split; [intros [H _]; discriminate|].
      intros (rest & _ & H). injection H as -> _. simpl in E. lia.
    + split; [intros [_ H]; destruct k; discriminate|].
      intros (rest & _ & H). injection H as -> _. simpl in E. lia.
    + split; [intros [_ H]; discriminate|].
      intros (rest & _ & H). injection H as -> _. simpl in E. lia.
  - split; [intros [H _]; discriminate|].
    intros (rest & _ & H). discriminate.
  - destruct (N.compare_spec (Strings.Byte.to_N y) (Strings.Byte.to_N x))
      as [E | E | E].
    + apply to_N_inj in E. subst y. rewrite IH. split.
      * intros (rest & Hr & ->). now exists rest.
      * intros (rest & Hr & H). injection H as ->. now exists rest.
    + split; [intros [H _]; discriminate|].
      intros (rest & _ & H). injection H as -> _. lia.
    + split; [intros [_ H]; discriminate|].
      intros (rest & _ & H). injection H as -> _. lia.
Qed.

Section Range.
Variable toBufferKey : prim -> bytes.

Lemma in_transform_range id key :
  in_range (Index.transform_options toBufferKey id) key = true
  <-> exists rest,
        rest <> [] /\ key = toBufferKey id ++ Index.SEPARATOR_BYTE ++ rest.
Proof.
  unfold in_range, Index.transform_options, bound_holds. simpl.
  rewrite !andb_true_r, andb_true_iff.
  rewrite <- (between_separators (toBufferKey id) key).
  unfold Index.SEPARATOR_BYTE, Index.SEPARATOR_NEXT_BYTE.
  destruct (compare_bytes key (toBufferKey id ++ [Byte.x1e]));
    destruct (compare_bytes key (toBufferKey id ++ [Byte.x1f]));
    intuition congruence.
Qed.

End Range.

Section ReadingAnIndex.
Variable toBufferKey : prim -> bytes.
Variable JSON_parse : string -> option value.
Variable NumberToString : number -> string.
Variable sourceId_of : bytes -> prim.

Abbreviation transform_options := (Index.transform_options toBufferKey).
Abbreviation transform :=
  (Index.transform toBufferKey JSON_parse NumberToString sourceId_of).
Abbreviation found_of :=
  (Index.found_of JSON_parse NumberToString sourceId_of).
Abbreviation map_found :=
  (Index.map_found JSON_parse NumberToString sourceId_of).
Abbreviation fullKey := (Index.fullKey toBufferKey).

Lemma map_found_results flag rows :
  forall l,
    map_found flag rows = Some l
    <-> Forall2 (fun r f => found_of flag r = Some f) rows l.
Proof.
  induction rows as [|r rows IH]; intros l; simpl.
  - split; [intros H; injection H as <-; constructor|].
    intros H. now inversion H.
  - destruct (found_of flag r) as [f|] eqn:Ef.
    + destruct (map_found flag rows) as [l'|] eqn:El.
      * split.
        -- intros H. injection H as <-. constructor; [exact Ef|].
           now apply IH.
        -- intros H. inversion H as [|r0 f0 rows0 l0 H1 H2]; subst.
           apply IH in H2. congruence.
      * split; [discriminate|].
        intros H. inversion H as [|r0 f0 rows0 l0 H1 H2]; subst.
        apply IH in H2. discriminate.
    + split; [discriminate|].
      intros H. inversion H as [|r0 f0 rows0 l0 H1 H2]; subst. congruence.
Qed.

Lemma map_found_throws flag rows :
  map_found flag rows = None
  <-> exists r, In r rows /\ found_of flag r = None.
Proof.
  induction rows as [|r rows IH]; simpl.
  - split; [discriminate|]. intros (r & [] & _).
  - destruct (found_of flag r) as [f|] eqn:Ef.
    + destruct (map_found flag rows) as [l'|] eqn:El.
      * split; [discriminate|]. intros (r' & [<- | Hin] & Hr); [congruence|].
        destruct IH as [_ IH]. discriminate IH. now exists r'.
      * split; [|reflexivity]. intros _.
        destruct IH as [IH _]. destruct (IH eq_refl) as (r' & Hin & Hr).
        exists r'. split; [now right|exact Hr].
    + split; [|reflexivity]. intros _. exists r. split; [now left|exact Ef].
Qed.

Lemma map_found_In flag rows r :
  In r rows ->
  forall l,
    map_found flag rows = Some l ->
    exists f, found_of flag r = Some f /\ In f l.
Proof.
  intros Hin l Hl. apply map_found_results in Hl.
  induction Hl as [|r0 f0 rows l H0 Hl IH]; [contradiction|].
  destruct Hin as [-> | Hin].
  - exists f0. split; [exact H0|now left].
  - destruct (IH Hin) as (f & Hf & Hfl). exists f. split; [exact Hf|now right].
Qed.

Lemma in_range_of_key (k : Index.key) (source : prim) :
  toBufferKey source <> [] ->
  in_range (transform_options (Index.key_prim k)) (fullKey k source) = true.
Proof.
  intros Hs.
  apply (proj2 (in_transform_range toBufferKey (Index.key_prim k) _)).
  exists (toBufferKey source). now split.
Qed.

(** X17.  [transform] reads the rows of its index key and nothing else:
    the rows it maps are the rows of the table whose key is the binary
    key of the instance, the separator byte [0x1E] and a non-empty rest,
    in the order of their keys, and the reserved row [[0x01,0x02]] is
    never among them when the binary key of the instance is not empty; it
    returns what the callback makes of these rows, in their order, and is
    rejected exactly when the callback throws on one of them.  So the row
    [indexEntry] writes under this index key for a source whose binary
    key is not empty is among the rows read; its element is in the result
    when there is one; and where [JSON.parse] throws on the empty string,
    a row with the empty value is given as the id of its source without
    [returnFullKeyValue] and makes the whole scan fail with it. *)
Theorem transform_reads_the_rows_of_its_key (returnFullKeyValue : bool)
  (id : prim) (t : list (bytes * opvalue)) :
  (forall l,
     transform returnFullKeyValue id t = Some l
     <-> Forall2 (fun r f => found_of returnFullKeyValue r = Some f)
           (iterable (transform_options id) t) l)
  /\ (transform returnFullKeyValue id t = None
      <-> exists r,
            In r (iterable (transform_options id) t)
            /\ found_of returnFullKeyValue r = None)
  /\ (forall r,
        In r (iterable (transform_options id) t)
        <-> In r t
            /\ exists rest,
                 rest <> []
                 /\ fst r = toBufferKey id ++ Index.SEPARATOR_BYTE ++ rest)
  /\ in_key_order (iterable (transform_options id) t)
  /\ (forall (k : Index.key) (source : prim) (v : opvalue),
        Index.key_prim k = id -> toBufferKey source <> [] ->
        In (fullKey k source, v) t ->
        In (fullKey k source, v) (iterable (transform_options id) t)
        /\ forall l,
             transform returnFullKeyValue id t = Some l ->
             exists f,
               found_of returnFullKeyValue (fullKey k source, v) = Some f
               /\ In f l)
  /\ (JSON_parse EmptyString = None ->
      forall (k : Index.key) (source : prim),
        Index.key_prim k = id -> toBufferKey source <> [] ->
        In (fullKey k source, OVString EmptyString) t ->
        transform true id t = None
        /\ found_of false (fullKey k source, OVString EmptyString)
           = Some (Index.SourceId (sourceId_of (fullKey k source))))
  /\ (toBufferKey id <> [] ->
      forall v, ~ In (Index.LAST_INDEXED_VERSION_KEY, v)
                  (iterable (transform_options id) t)).
Proof.
  assert (Hrow : forall (k : Index.key) (source : prim) (v : opvalue),
            Index.key_prim k = id -> toBufferKey source <> [] ->
            In (fullKey k source, v) t ->
            In (fullKey k source, v) (iterable (transform_options id) t)).
  { intros k source v Hk Hs Hin. apply In_iterable. split; [exact Hin|].
    rewrite <- Hk. now apply in_range_of_key. }
  split; [|split; [|split; [|split; [|split; [|split]]]]].
  - intros l. apply map_found_results.
  - apply map_found_throws.
  - intros r. rewrite In_iterable, (in_transform_range toBufferKey).
    reflexivity.
  - apply in_key_order_sorted.
  - intros k source v Hk Hs Hin. split; [now apply Hrow|].
    intros l Hl. eapply map_found_In; [|exact Hl]. now apply Hrow.
  - intros Hp k source Hk Hs Hin. split.
    + apply map_found_throws. exists (fullKey k source, OVString EmptyString).
      split; [now apply Hrow|].
      unfold Index.found_of. simpl. now rewrite Hp.
    + reflexivity.
  - intros Hid v Hin. apply In_iterable in Hin. destruct Hin as [_ Hin].
    apply (proj1 (in_transform_range toBufferKey id _)) in Hin.
    destruct Hin as (rest & Hr & H).
    simpl in H. unfold Index.LAST_INDEXED_VERSION_KEY, Index.SEPARATOR_BYTE in H.
    destruct (toBufferKey id) as [|b1 [|b2 [|b3 l]]]; try contradiction;
      simpl in H.
    + injection H as _ H. discriminate.
    + injection H as _ _ H. discriminate.
    + discriminate.
Qed.

End ReadingAnIndex.

Section IndexingAndReading.
Variable JSON_stringify : value -> string.
Variable toBufferKey : prim -> bytes.
Variable indexBy : value -> option Index.indexed.
Variable Source_for : prim -> option Index.entity_value.
Variable JSON_parse : string -> option value.
Variable NumberToString : number -> string.
Variable sourceId_of : bytes -> prim.

Abbreviation indexEntry :=
  (Index.indexEntry JSON_stringify toBufferKey indexBy Source_for).
Abbreviation previous_map := (Index.previous_map JSON_stringify indexBy).
Abbreviation current_entries :=
  (Index.current_entries JSON_stringify indexBy Source_for).
Abbreviation transform_options := (Index.transform_options toBufferKey).
Abbreviation transform :=
  (Index.transform toBufferKey JSON_parse NumberToString sourceId_of).
Abbreviation found_of :=
  (Index.found_of JSON_parse NumberToString sourceId_of).
Abbreviation fullKey := (Index.fullKey toBufferKey).

(** X18.  What has been indexed is found: for a request on which nothing
    throws, under the conditions of X12 and for a source whose binary key
    is not empty, once the operations of [indexEntry] are written, the
    scan of the index key [k] reads the row of the source with the value
    of the last current entry under [k]; [transform] has the element of
    that row in its result when it has one, and has none when the
    callback throws on that row, as it does with [returnFullKeyValue] on
    the empty value of a bare key where [JSON.parse] throws on the empty
    string.  The scan of [k] has no row of the source left when [k] was
    among the previous keys and is not among the current ones. *)
Theorem indexed_entry_is_found (id : prim) (req : Index.IndexRequest)
  (s : Index.State) (previous current : list (Index.key * string))
  (t : list (bytes * opvalue)) (k : Index.key) (returnFullKeyValue : bool) :
  previous_map req = Some previous ->
  current_entries id req = Some current ->
  NoDup (map fst t) ->
  Index.rows_agree toBufferKey id previous t ->
  Index.distinct_rows toBufferKey id
    (k :: map fst previous ++ map fst current) ->
  toBufferKey id <> [] ->
  exists ops,
    Index.operations (indexEntry id req s) = Index.operations s ++ ops
    /\ (forall v,
          Index.last_value k current = Some v ->
          let row := (fullKey k id, OVString v) in
          let found := transform returnFullKeyValue (Index.key_prim k)
                         (apply_batch ops t) in
          In row
            (iterable (transform_options (Index.key_prim k))
               (apply_batch ops t))
          /\ (forall l,
                found = Some l ->
                exists f,
                  found_of returnFullKeyValue row = Some f /\ In f l)
          /\ (found_of returnFullKeyValue row = None -> found = None)
          /\ (returnFullKeyValue = true -> v = EmptyString ->
              JSON_parse EmptyString = None -> found = None))
    /\ (Index.last_value k current = None ->
        In k (map fst previous) ->
        forall v,
          ~ In (fullKey k id, v)
              (iterable (transform_options (Index.key_prim k))
                 (apply_batch ops t))).
Proof.
  intros Hprev Hcur Ht Hag Hinj Hid.
  destruct (IndexRowsSpec.rows_after_indexEntry JSON_stringify toBufferKey
              indexBy Source_for id req s previous current t k Hprev Hcur Ht
              Hag Hinj)
    as (ops & Ho & Hrow).
  exists ops. split; [exact Ho|]. unfold Index.expected_row in Hrow. split.
  - intros v Hv row found. rewrite Hv in Hrow.
    assert (Hin : In row
                    (iterable (transform_options (Index.key_prim k))
                       (apply_batch ops t))).
    { apply In_iterable. split.
      - now apply (map_get_In bytes_eqb PersistedSpec.bytes_eqb_eq).
      - now apply in_range_of_key. }
    assert (Hthrows : found_of returnFullKeyValue row = None ->
                      found = None).
    { intros Hf.
      apply (map_found_throws JSON_parse NumberToString sourceId_of).
      now exists row. }
    split; [exact Hin|]. split; [|split; [exact Hthrows|]].
    + intros l Hl.
      exact (map_found_In JSON_parse NumberToString sourceId_of
               returnFullKeyValue _ row Hin l Hl).
    + intros -> -> Hp. apply Hthrows. unfold Index.found_of. simpl.
      now rewrite Hp.
  - intros Hl Hp v Hin. rewrite Hl in Hrow.
    assert (E : existsb (Index.key_eqb k) (map fst previous) = true).
    { apply existsb_exists. exists k. split; [exact Hp|].
      now apply IndexSpec.key_eqb_eq. }
    rewrite E in Hrow.
    apply (map_get_None_notin bytes_eqb PersistedSpec.bytes_eqb_eq) in Hrow.
    apply Hrow. apply In_iterable in Hin. destruct Hin as [Hin _].
    apply in_map_iff. now exists (fullKey k id, v).
Qed.

End IndexingAndReading.

(** *** Listing the entities of a class *)

Section ListingEntities.
Variable toBufferKey : prim -> bytes.
Variable fromBufferKey : bytes -> prim.

Abbreviation getInstanceIds := (getInstanceIds toBufferKey fromBufferKey).
Abbreviation entries_of_table := (entries_of_table fromBufferKey).
Abbreviation range_options := (range_options toBufferKey).
Abbreviation run := (run toBufferKey).
Abbreviation step := (step toBufferKey).
Abbreviation dbPut := (dbPut toBufferKey).
Abbreviation operation_of := (operation_of toBufferKey).

Lemma above_2_not_reserved key :
  compare_bytes key [Byte.x02] = Gt ->
  key <> LAST_VERSION_IN_DB_KEY /\ key <> DB_VERSION_KEY.
Proof. intros H. split; intros ->; discriminate H. Qed.

(** X22.  Listing reads the table, not the writes that are pending: in
    every reachable state [getInstanceIds] and [entries] return the same
    after a [dbPut] as before it, although [dbGet] returns the new value at
    once, and the same after a timer, a deferred flush or a failed batch
    write; without a [gt] bound of its own a listing never includes the
    reserved rows [[0x01,0x01]] and [[0x01,0x02]], and the rows come in the
    order of their keys. *)
Theorem listing_reads_the_table (l0 : Z) (rows : list (bytes * opvalue))
  (tr : list Event) (range : option Range) :
  let w := run tr (new_Writer l0 rows) in
  (forall key value version nextVersion,
     let w' := fst (dbPut key value version nextVersion w) in
     getInstanceIds range w' = getInstanceIds range w
     /\ entries_of_table w' = entries_of_table w
     /\ Persisted.dbGet toBufferKey key w' = stored value)
  /\ (forall e,
        match e with
        | TimerFires _ | PreviousCompleted _ | BatchFailed _ => True
        | _ => False
        end ->
        getInstanceIds range (step e w) = getInstanceIds range w
        /\ entries_of_table (step e w) = entries_of_table w)
  /\ (match range with
      | Some r => loose_eq_null (r_gt r) = true
      | None => True
      end ->
      forall r,
        In r (iterable (range_options range) (table w)) ->
        fst r <> LAST_VERSION_IN_DB_KEY /\ fst r <> DB_VERSION_KEY)
  /\ in_key_order (iterable (range_options range) (table w)).
Proof.
  intros w. split; [|split; [|split]].
  - intros key value version nv w'.
    assert (Et : table w' = table w) by apply BatcherSpec.table_dbPut.
    unfold Persisted.getInstanceIds, Persisted.entries_of_table.
    rewrite Et. split; [reflexivity|]. split; [reflexivity|].
    unfold w'. rewrite BatcherSpec.dbGet_dbPut by apply BatcherSpec.reachable_ok.
    now rewrite same_value_zero_refl.
  - intros e He.
    assert (Et : table (step e w) = table w).
    { destruct e as [? ? ? ? | b | b | b | b]; try contradiction; simpl.
      - destruct (mem b (timers w)); [|reflexivity].
        now destruct (BatcherSpec.same_reads_commitOperations b w)
          as (_ & -> & _).
      - now destruct (mem b (awaiting w) && previous_resolved b w).
      - destruct (find_in_flight b (in_flight w)); [|reflexivity].
        now rewrite BatcherSpec.table_finished. }
    unfold Persisted.getInstanceIds, Persisted.entries_of_table.
    now rewrite Et.
  - intros Hgt r Hr. apply In_iterable in Hr. destruct Hr as [_ Hr].
    apply above_2_not_reserved.
    assert (Hb : o_gt (range_options range) = Some [Byte.x02]).
    { destruct range as [rg|]; [|reflexivity]. simpl.
      unfold bound_of. now rewrite Hgt. }
    unfold in_range in Hr. rewrite Hb in Hr. simpl in Hr.
    destruct (compare_bytes (fst r) [Byte.x02]); try reflexivity;
      discriminate Hr.
  - apply in_key_order_sorted.
Qed.

(** X23.  Once its batch is written an entity is listed: in a reachable
    state in which the batch [b] is with the engine and holds a put for
    [key], after the batch is written [entries] has the row of the key and
    [getInstanceIds] lists it, provided the binary key sorts after [[2]],
    the table holds one row per key and no other key written has the same
    binary form. *)
Theorem written_entity_is_listed (l0 : Z) (rows : list (bytes * opvalue))
  (tr : list Event) (b : nat) (ops : list Operation) (key : prim)
  (s : string) :
  NoDup (map fst rows) ->
  toBufferKey key <> LAST_VERSION_IN_DB_KEY ->
  (forall k, In k (put_keys tr) ->
             toBufferKey k = toBufferKey key -> k = key) ->
  compare_bytes (toBufferKey key) [Byte.x02] = Gt ->
  let w := run tr (new_Writer l0 rows) in
  find_in_flight b (in_flight w) = Some ops ->
  map_get same_value_zero key (entries (get_batch b w))
  = Some (operation_of key (Some s)) ->
  let w' := step (BatchWritten b) w in
  In (fromBufferKey (toBufferKey key), OVString s) (entries_of_table w')
  /\ In (fromBufferKey (toBufferKey key)) (getInstanceIds None w').
Proof.
  intros Hrows Hres Hinj Hgt w Hf Hput w'.
  assert (Hok : batcher_ok toBufferKey w) by apply BatcherSpec.reachable_ok.
  destruct (BatcherSpec.in_flight_cases toBufferKey b ops w Hok Hf)
    as ((Hnd & Hfo) & (v & ->) & _).
  assert (Hrow : In (toBufferKey key, OVString s) (table w')).
  { apply (map_get_In bytes_eqb PersistedSpec.bytes_eqb_eq).
    unfold w'. simpl. rewrite Hf. rewrite BatcherSpec.table_finished. simpl.
    rewrite (BatcherSpec.table_after_batch toBufferKey key); auto.
    - now rewrite Hput.
    - intros k Hk. apply Hinj.
      apply (BatcherSpec.keys_within_run toBufferKey [] tr
               (new_Writer l0 rows)) with b; [|exact Hk].
      intros b' k' Hk'. unfold get_batch in Hk'. simpl in Hk'.
      now destruct b'.
    - now apply BatcherSpec.NoDup_table_run. }
  assert (Hin : In (toBufferKey key, OVString s)
                  (iterable all_entities (table w'))).
  { apply In_iterable. split; [exact Hrow|].
    unfold in_range. simpl. now rewrite Hgt. }
  split.
  - unfold Persisted.entries_of_table.
    apply (in_map (fun r => (fromBufferKey (fst r), snd r))) in Hin.
    exact Hin.
  - unfold Persisted.getInstanceIds. simpl.
    apply (in_map (fun r => fromBufferKey (fst r))) in Hin. exact Hin.
Qed.

End ListingEntities.

End ScanSpec.

(* ================================================================== *)
(** * Resuming an index *)
(* ================================================================== *)

Module ResumeSpec.
Import Js JsFacts Index.

Section ResumeFacts.
Variable JSON_stringify : value -> string.
Variable toBufferKey : prim -> bytes.
Variable indexBy : value -> option indexed.
Variable Source_for : prim -> option entity_value.
Variable sourceId_of : bytes -> prim.
Variable INITIALIZATION_SOURCE : source.
Variable db_version_json : string.

Abbreviation indexEntry :=
  (indexEntry JSON_stringify toBufferKey indexBy Source_for).
Abbreviation current_entries :=
  (current_entries JSON_stringify indexBy Source_for).
Abbreviation fullKey := (fullKey toBufferKey).
Abbreviation resumeIndex :=
  (resumeIndex sourceId_of INITIALIZATION_SOURCE db_version_json).
Abbreviation resume_request := (resume_request INITIALIZATION_SOURCE).
Abbreviation remove_rows_of := (remove_rows_of sourceId_of).
Abbreviation row := (map_get Persisted.bytes_eqb).

(** Dropping rows of a table leaves one row per key. *)
Lemma filter_keeps_one_row_per_key (keep : bytes * Persisted.opvalue -> bool)
  (t : list (bytes * Persisted.opvalue)) :
  NoDup (map fst t) -> NoDup (map fst (filter keep t)).
Proof.
  intros Ht. induction t as [|[key x] t IH]; simpl; [constructor|].
  apply NoDup_cons_iff in Ht. destruct Ht as [Hkey Ht].
  destruct (keep (key, x)); simpl; [|exact (IH Ht)].
  apply NoDup_cons; [|exact (IH Ht)].
  intros Hin. apply Hkey.
  apply in_map_iff in Hin. destruct Hin as ([key' y] & E & Hin).
  simpl in E. subst key'. apply filter_In in Hin.
  apply in_map_iff. exists (key, y). split; [reflexivity|apply Hin].
Qed.

(** The requests entered for a list of distinct ids *)
Lemma queue_after_resume (L : list (prim * Z)) :
  forall q id v,
    NoDup (map fst L) -> In (id, v) L ->
    map_get same_value_zero id
      (map_data
         (fold_left
            (fun q iv =>
               mo_set same_value_zero (fst iv) (resume_request (snd iv)) q)
            L q))
    = Some (resume_request v).
Proof.
  induction L as [|[i0 v0] L IH]; intros q id v Hnd Hin; [contradiction|].
  simpl in Hnd. inversion Hnd as [|x l Hx Hl]; subst. simpl.
  destruct Hin as [E | Hin].
  - injection E as -> ->.
    assert (Hkeep : forall L q,
               ~ In id (map fst L) ->
               map_get same_value_zero id
                 (map_data
                    (fold_left
                       (fun q iv =>
                          mo_set same_value_zero (fst iv)
                            (resume_request (snd iv)) q) L q))
               = map_get same_value_zero id (map_data q)).
    { clear. induction L as [|[i1 v1] L IHL]; intros q Hn; [reflexivity|].
      simpl in *. rewrite IHL by tauto. simpl.
      apply (map_get_set_other same_value_zero same_value_zero_eq).
      intros ->. tauto. }
    rewrite Hkeep by assumption. simpl.
    apply (map_get_set_same same_value_zero same_value_zero_eq).
  - now apply IH.
Qed.

(** X24.  Resuming indexes the sources named from scratch: when the
    progress row is absent or a number, [resumeIndex] sets
    [lastIndexedVersion] to it (0 when absent), enters for every id of the
    list, the ids being distinct, a request with the version of the list,
    the initialization source and no previous state, and leaves no row of
    these sources among the entries of the table, which it clears when the
    progress is 0; so indexing such a request afterwards, when nothing
    throws in it, leaves under every index key exactly the row its current
    entries ask for, although no previous state is known.  The second part of a composite key of
    the source must decode to the source, the composite key must sort
    after [[2]], and the index keys involved need distinct composite
    keys. *)
Theorem resume_indexes_from_scratch (L : list (prim * Z)) (s : State)
  (n : Z) (id : prim) (v : Z) (k : key) (current : list (key * string)) :
  stored_version s = Some n ->
  current_entries id (resume_request v) = Some current ->
  NoDup (map fst (table s)) ->
  NoDup (map fst L) ->
  In (id, v) L ->
  sourceId_of (fullKey k id) = id ->
  Persisted.compare_bytes (fullKey k id) [Byte.x02] = Gt ->
  distinct_rows toBufferKey id (k :: map fst current) ->
  exists s',
    resumeIndex L s = Some s'
    /\ lastIndexedVersion s' = n
    /\ mo_get same_value_zero id (queue s') = Some (resume_request v)
    /\ (n = 0 -> forall r, In r (table s') -> fst r = Persisted.DB_VERSION_KEY)
    /\ (forall r,
          In r (table s') ->
          Persisted.in_range Persisted.all_entities (fst r) = true ->
          ~ In (sourceId_of (fst r)) (map fst L))
    /\ row (fullKey k id) (table s') = None
    /\ exists ops,
         operations (indexEntry id (resume_request v) s')
         = operations s' ++ ops
         /\ row (fullKey k id) (Persisted.apply_batch ops (table s'))
            = match last_value k current with
              | Some x => Some (Persisted.OVString x)
              | None => None
              end.
Proof.
  intros Hn Hcur Ht HL Hin Hdec Hgt Hinj.
  unfold Index.resumeIndex. rewrite Hn.
  eexists. split; [reflexivity|]. simpl.
  set (t' := if n =? 0
             then [(Persisted.DB_VERSION_KEY,
                    Persisted.OVString db_version_json)]
             else remove_rows_of (map fst L) (table s)).
  assert (Hclean : forall r,
             In r t' ->
             Persisted.in_range Persisted.all_entities (fst r) = true ->
             ~ In (sourceId_of (fst r)) (map fst L)).
  { intros r Hr Hrange Hid. unfold t' in Hr.
    destruct (n =? 0).
    - destruct Hr as [<- | []]. discriminate Hrange.
    - unfold Index.remove_rows_of in Hr. apply filter_In in Hr.
      destruct Hr as [_ Hr]. rewrite Hrange in Hr. simpl in Hr.
      apply negb_true_iff in Hr.
      assert (Hex : existsb (same_value_zero (sourceId_of (fst r)))
                      (map fst L) = true).
      { apply existsb_exists. exists (sourceId_of (fst r)).
        split; [exact Hid|apply same_value_zero_refl]. }
      congruence. }
  assert (Hnd : NoDup (map fst t')).
  { unfold t'. destruct (n =? 0).
    - repeat constructor. simpl. tauto.
    - now apply filter_keeps_one_row_per_key. }
  assert (Hnone : row (fullKey k id) t' = None).
  { destruct (row (fullKey k id) t') as [x|] eqn:E; [|reflexivity].
    apply (map_get_In Persisted.bytes_eqb PersistedSpec.bytes_eqb_eq) in E.
    exfalso. apply (Hclean _ E).
    - unfold Persisted.in_range. simpl. now rewrite Hgt.
    - simpl. rewrite Hdec. apply in_map_iff. now exists (id, v). }
  split; [reflexivity|].
  split; [unfold mo_get; simpl; now apply queue_after_resume|].
  split.
  { intros -> r Hr. unfold t' in Hr. simpl in Hr.
    now destruct Hr as [<- | []]. }
  split; [exact Hclean|]. split; [exact Hnone|].
  set (s' := with_queue _ _).
  destruct (IndexRowsSpec.rows_after_indexEntry JSON_stringify toBufferKey
              indexBy Source_for id (resume_request v) s' [] current t' k)
    as (ops & Ho & Hrow).
  - reflexivity.
  - exact Hcur.
  - exact Hnd.
  - intros k0 old [].
  - exact Hinj.
  - exists ops. split; [exact Ho|]. rewrite Hrow.
    unfold expected_row. simpl.
    destruct (last_value k current); [reflexivity|exact Hnone].
Qed.

End ResumeFacts.

End ResumeSpec.

(* ================================================================== *)
(** * What the permission proxy lets through *)
(* ================================================================== *)

Module ProxySpec.
Import SecureAccess.

Section Checks.
Variable checkPermissions : target -> name -> nat -> bool.
Variable currentContext : bool.
Variable method_returns : target -> string -> nat -> retval.

Abbreviation invoke := (invoke checkPermissions currentContext method_returns).

(** X25.  A denied method never runs, but the wrapped object can be had
    without a check: whatever is called on a proxied object, if the call
    ends in an access error then no method of any target has run, there
    was a current context, and the call was a method outside
    [methodOverrides] and [Object.prototype] that [checkPermissions]
    refused; if the call returns, every such method that has run was
    checked, with a positive answer; an instance obtained by [for] is a
    proxy again; [valueOf], which [methodOverrides] inherits from
    [Object.prototype], hands out the wrapped object itself without any
    check; and what a permitted method returns is passed on as it is. *)
Theorem denied_method_never_runs (fuel : nat) (t : target) (n : name)
  (arg : nat) :
  let out := invoke fuel (Proxied t) n arg in
  (forall effects,
     out = Thrown_AccessError effects ->
     (forall t' n' a, ~ In (Ran t' n' a) effects)
     /\ currentContext = true
     /\ exists s, n = n_method s /\ checkPermissions t n arg = false)
  /\ (forall effects r t' s a,
        out = Returned effects r ->
        In (Ran t' (n_method s) a) effects ->
        checkPermissions t' (n_method s) a = true
        /\ In (Checked t' (n_method s) a) effects)
  /\ (forall effects o,
        n = n_for -> out = Returned effects (R_object o) ->
        o = Proxied (AnInstance arg))
  /\ (n = n_valueOf -> fuel <> 0%nat ->
      out = Returned [] (R_object (Plain t)))
  /\ (forall s,
        n = n_method s -> fuel <> 0%nat -> currentContext = true ->
        checkPermissions t n arg = true ->
        out = Returned [Checked t n arg; Ran t n arg]
                (method_returns t s arg))
  /\ (forall effects o,
        out = Returned effects (R_object o) ->
        (exists t', o = Proxied t')
        \/ n = n_valueOf \/ exists s, n = n_method s).
Proof.
  destruct fuel as [|fuel]; simpl.
  { repeat split; intros; try discriminate; contradiction. }
  destruct n as [| | | | |s0|s0|s0]; simpl.
  - (* for *)
    destruct fuel as [|fuel]; simpl.
    + repeat split; intros; discriminate.
    + split; [intros effects H; discriminate|]. split; [|split].
      * intros effects r t' s a H Hin. injection H as <- _.
        destruct Hin as [E | []]. discriminate E.
      * intros effects o _ H. now injection H as _ <-.
      * split; [discriminate|]. split; [discriminate|].
        intros effects o H. injection H as _ <-. left.
        now exists (AnInstance arg).
  - (* stopNotifies *)
    destruct fuel as [|fuel]; simpl.
    + repeat split; intros; discriminate.
    + split; [intros effects H; destruct t; discriminate|]. split; [|split].
      * intros effects r t' s a H Hin.
        assert (E : effects = [Ran t n_stopNotifies arg])
          by (destruct t; now injection H as <- _).
        subst effects. destruct Hin as [E | []]. discriminate E.
      * discriminate.
      * split; [discriminate|]. split; [discriminate|].
        intros effects o H. destruct t; discriminate.
  - (* isChecked *)
    split; [intros effects H; discriminate|]. split; [|split].
    + intros effects r t' s a H Hin. injection H as <- _. contradiction.
    + discriminate.
    + split; [discriminate|]. split; [discriminate|].
      intros effects o H. discriminate.
  - (* valueOf *)
    split; [intros effects H; discriminate|]. split; [|split].
    + intros effects r t' s a H Hin. injection H as <- _. contradiction.
    + discriminate.
    + split; [reflexivity|]. split; [discriminate|].
      intros effects o H. right. now left.
  - (* __proto__ *)
    repeat split; intros; discriminate.
  - (* the functions of Object.prototype *)
    split; [intros effects H; discriminate|]. split; [|split].
    + intros effects r t' s a H Hin. injection H as <- _. contradiction.
    + discriminate.
    + split; [discriminate|]. split; [discriminate|].
      intros effects o H. discriminate.
  - (* a method of the target *)
    destruct currentContext eqn:Ec.
    + destruct (checkPermissions t (n_method s0) arg) eqn:E.
      * split; [intros effects H; destruct t; discriminate|].
        split; [|split].
        -- intros effects r t' s' a H Hin.
           assert (Ee : effects = [Checked t (n_method s0) arg;
                                   Ran t (n_method s0) arg])
             by (destruct t; now injection H as <- _).
           subst effects.
           destruct Hin as [H' | [H' | []]]; [discriminate H'|].
           injection H' as <- <- <-. split; [exact E|]. now left.
        -- discriminate.
        -- split; [discriminate|]. split.
           ++ intros s Hs _ _ _. injection Hs as <-. now destruct t.
           ++ intros effects o H. right. right. now exists s0.
      * split.
        -- intros effects H. injection H as <-. split; [|split].
           ++ intros t' n' a [H | []]. discriminate H.
           ++ reflexivity.
           ++ now exists s0.
        -- repeat split; intros; discriminate.
    + repeat split; intros; discriminate.
  - (* anything else *)
    repeat split; intros; discriminate.
Qed.

End Checks.

End ProxySpec.

(* ================================================================== *)
(** * The properties on concrete inputs *)
(* ================================================================== *)

Module Examples.
Import Js Persisted Scenarios.

(** ** The identity map *)



Lemma for_bad_id_exactly_witness :
  exists r C1 e,
    s_for id7 Samples.empty_class = Return (r, C1)
    /\ identity_get id7 (instancesById C1) = Some r
    /\ nth_error (instances C1) r = Some e
    /\ id e = id7
    /\ s_for id7 C1 = Return (r, C1).
Proof.
  destruct (proj2 (PersistedSpec.for_bad_id_exactly Samples.StringToNumber
                     Samples.toBufferKey id7 Samples.empty_class))
    as [(Habstract & _) | H].
  - apply Persisted.reachable_new. reflexivity.
  - vm_compute. discriminate.
  - discriminate Habstract.
  - exact H.
Defined.

(** On the base class itself [for] throws for an id it does not reject:
    the constructor refuses to instantiate [Persisted]. *)
Lemma for_on_the_abstract_class :
  s_for id7 abstract_class = Throw TypeError_abstract
  /\ s_for id7 abstract_class <> Throw Error_bad_id
  /\ ~ (exists r C1, s_for id7 abstract_class = Return (r, C1)).
Proof.
  split; [reflexivity|]. split; [discriminate|].
  intros (r & C1 & H). discriminate H.
Qed.

Lemma remove_rejects_more_than_for_witness :
  s_remove (String EmptyString) 1 Samples.empty_class = Throw Error_bad_id
  /\ exists r C1, s_for (Number (num 0)) Samples.empty_class = Return (r, C1).
Proof.
  pose proof (PersistedSpec.remove_rejects_more_than_for
                Samples.StringToNumber Samples.toBufferKey)
    as (Hfalsy & _ & _ & _ & Hzero & _).
  split.
  - apply Hfalsy. reflexivity.
  - apply Hzero. reflexivity.
Defined.

(** ** The write batcher *)

Lemma sample_keys_not_reserved :
  forall k, Samples.toBufferKey k <> LAST_VERSION_IN_DB_KEY.
Proof.
  intros [| | b | [| | |q] | s]; simpl; discriminate.
Defined.

Lemma watermark_is_max_enqueued_version_witness :
  lastVersion (s_run set_then_remove (new_Writer 0 []))
  = fold_left Z.max (Persisted.versions set_then_remove) 0.
Proof.
  exact (proj1 (PersistedSpec.watermark_is_max_enqueued_version
                  Samples.toBufferKey sample_keys_not_reserved 0 []
                  set_then_remove)).
Defined.

(** After the two batches, [[0x01,0x02]] reads 1001 and [lastVersion] is
    1001, above the version 1000 of the only row ever written. *)
Lemma watermark_above_row_versions :
  let w := s_run set_then_remove (new_Writer 0 []) in
  map_get bytes_eqb LAST_VERSION_IN_DB_KEY (table w) = Some (OVNumber 1001)
  /\ lastVersion w = 1001
  /\ Persisted.row_versions set_then_remove = [1000]
  /\ lastVersion w <> fold_left Z.max (Persisted.row_versions set_then_remove) 0.
Proof. vm_compute. repeat split; discriminate. Qed.



Lemma failed_batch_resolves_witness :
  let w := s_run (firstn 2 failing_write) registered in
  resolved (Persisted.step Samples.toBufferKey (BatchFailed 0) w) = [0%nat].
Proof.
  refine (proj1 (PersistedSpec.failed_batch_resolves Samples.toBufferKey
                   0%nat _ (s_run (firstn 2 failing_write) registered) _)).
  vm_compute. reflexivity.
Defined.

(** The failure is logged and the completion resolved, but [onDbFailure]
    is not called and [ready] stays fulfilled; and with a newer batch open
    [writeCompletion] keeps pointing at that one. *)
Lemma failed_batch_not_signalled :
  (let w := s_run failing_write registered in
   console w = [console_error_batch 0]
   /\ resolved w = [0%nat]
   /\ onDbFailure_calls w = 0%nat
   /\ ready w = Fulfilled
   /\ ready w <> Rejected)
  /\ (let w :=
        s_run [DbPut id1 (Some "1000,{}"%string) (Some 1000) 1001;
             TimerFires 0;
             DbPut id1 (Some "1002,{}"%string) (Some 1002) 1003;
             BatchFailed 0] registered in
      resolved w = [0%nat]
      /\ writeCompletion w = Some 1%nat
      /\ writeCompletion w <> None).
Proof. vm_compute. repeat split; discriminate. Qed.

(** ** Dropping the cached value *)

Lemma clearCache_frame_and_reload_witness :
  option_map fst
    (s_valueOf 9 (clearCache
                  (set_loaded up_to_date (Some (num 7)) (Some "hello"%string)
                     (set_cachedValue (Some (VStr "hello"))
                        (new_Instance id1))))
       table_with_row)
  = Some (Some (VStr "hello")).
Proof.
  refine (proj2 (proj2 (proj2
            (PersistedSpec.clearCache_frame_and_reload Samples.StringToNumber
               Samples.JSON_parse Samples.toBufferKey (num 0) 8 9
               (new_Instance id1) table_with_row)))
            id1 (Some (VStr "hello")) _ _).
  vm_compute. reflexivity.
Defined.

(** The row is in the table and a new instance reads it, the instance that
    was set reads its value before [clearCache] and nothing after it: its
    [readyState] is still loading-local-data, so nothing is loaded. *)
Lemma clearCache_loses_value_of_set_entity :
  exists C e,
    class_after_set = Some C
    /\ nth_error (instances C) 0 = Some e
    /\ table (writer C)
       = [(Samples.toBufferKey id1, OVString "7,hello");
          (LAST_VERSION_IN_DB_KEY, OVNumber 7)]
    /\ readyState e = Some loading_local_data
    /\ option_map fst (s_valueOf 9 e (writer C)) = Some (Some (VStr "hello"))
    /\ option_map fst (s_valueOf 9 (clearCache e) (writer C)) = Some None
    /\ option_map fst (s_valueOf 9 (new_Instance id1) (writer C))
       = Some (Some (VStr "hello")).
Proof.
  eexists. eexists. split; [vm_compute; reflexivity|].
  vm_compute. repeat split; reflexivity.
Qed.

(** ** The index *)

(** Before [a] and [b] with 1, now [a] with 2: a put under [a] and a del
    under [b].  And with an [indexBy] that returns [null] for what the
    entity holds now, nothing is emitted, the rows of before stay, and the
    console has the warning of the [catch]. *)
Lemma indexEntry_emits_diff_witness :
  (Index.operations (s_indexEntry now_a (request_of before_ab) Index.new_State)
   = Index.operations Index.new_State ++ diff_of before_ab now_a
   /\ diff_of before_ab now_a
      = [Index.put_operation Samples.toBufferKey (Index.KString "a") id1 "2";
         Index.del_operation Samples.toBufferKey (Index.KString "b") id1])
  /\ exists ops,
       Index.operations
         (s_indexEntry (VArr []) (request_of before_ab) Index.new_State)
       = Index.operations Index.new_State ++ ops
       /\ Forall (fun o => op_type o = op_put) ops
       /\ Index.lastIndexedVersion
            (s_indexEntry (VArr []) (request_of before_ab) Index.new_State)
          = Index.lastIndexedVersion Index.new_State
       /\ exists older,
            Index.console
              (s_indexEntry (VArr []) (request_of before_ab) Index.new_State)
            = older ++ [Index.warn_error_indexing id1].
Proof.
  split; [split; [|reflexivity]|].
  - apply (proj1 (IndexSpec.indexEntry_emits_diff Samples.JSON_stringify
                    Samples.toBufferKey Samples.indexBy
                    (Samples.Source_for [(id1, now_a)]) id1
                    (request_of before_ab) Index.new_State)).
    + reflexivity.
    + reflexivity.
    + vm_compute. constructor; [intros [] | constructor].
  - apply (proj2 (IndexSpec.indexEntry_emits_diff Samples.JSON_stringify
                    Samples.toBufferKey Samples.indexBy
                    (Samples.Source_for [(id1, VArr [])]) id1
                    (request_of before_ab) Index.new_State)).
    reflexivity.
Defined.

(** With the key named twice the unchanged entry is put again, where the
    difference of the two sets of entries is empty. *)
Lemma indexEntry_repeated_key :
  Index.operations (s_indexEntry twice (request_of once) Index.new_State)
  = [Index.put_operation Samples.toBufferKey (Index.KString "a") id1 "1"]
  /\ diff_of once twice = []
  /\ Index.operations (s_indexEntry twice (request_of once) Index.new_State)
     <> diff_of once twice.
Proof. vm_compute. repeat split; discriminate. Qed.

End Examples.

(* ================================================================== *)
(** * Further properties on concrete inputs *)
(* ================================================================== *)

Module MoreExamples.
Import Js Persisted Scenarios MoreScenarios.

(** ** The write batcher *)

Lemma commit_is_invisible_witness :
  dbGet tbk id1
    (step tbk (BatchWritten 0) (s_run put_and_flush (new_Writer 0 [])))
  = dbGet tbk id1 (s_run put_and_flush (new_Writer 0 [])).
Proof.
  refine (BatcherSpec.commit_is_invisible tbk 0 [] put_and_flush id1
            (BatchWritten 0) _ _ _ _).
  - constructor.
  - discriminate.
  - intros k [<- | []] _. reflexivity.
  - exact I.
Defined.

Lemma failed_batch_drops_writes_witness :
  dbGet tbk id1 (s_run put_and_flush (new_Writer 0 []))
  = Some (OVString "1000,{}")
  /\ dbGet tbk id1
       (step tbk (BatchFailed 0) (s_run put_and_flush (new_Writer 0 [])))
     = None.
Proof.
  exact (BatcherSpec.failed_batch_drops_writes tbk 0 [] put_and_flush 0%nat
           flushed_operations id1 eq_refl).
Defined.

Lemma dbGet_last_write_wins_witness :
  dbGet tbk id1 (s_run overwrite_in_next_batch (new_Writer 0 []))
  = Some (OVString "2,c").
Proof.
  refine (BatcherSpec.dbGet_last_write_wins tbk 0 [] overwrite_in_next_batch
            id1 _ _ _ _).
  - constructor.
  - reflexivity.
  - discriminate.
  - intros k [<- | [<- | [<- | []]]] H; try reflexivity. discriminate H.
Defined.

(** ** Entities *)

Lemma set_value_is_read_back_witness :
  exists C',
    set_value Samples.JSON_stringify Samples.NumberToString tbk
      (Some (VStr "hello")) 8 0%nat class_with_loaded_1 = Some C'
    /\ instancesById C' = instancesById class_with_loaded_1
    /\ s_valueOf 9 (new_Instance id1) (s_run commit_0 (writer C'))
       = Some (Some (VStr "hello"), hello_1).
Proof.
  refine (EntitySpec.set_value_is_read_back Samples.StringToNumber
            Samples.JSON_parse Samples.JSON_stringify Samples.NumberToString
            tbk (num 0) class_with_loaded_1 0%nat loaded_1 (VStr "hello")
            (num 7) (Some 7) 8 9 commit_0 _ _ _ _ _ _ _ _ _ _ _ _ _).
  - apply BatcherSpec.batcher_ok_new.
  - constructor.
  - reflexivity.
  - reflexivity.
  - reflexivity.
  - reflexivity.
  - reflexivity.
  - reflexivity.
  - reflexivity.
  - reflexivity.
  - reflexivity.
  - discriminate.
  - intros k [].
Defined.

Lemma removed_entity_is_gone_witness :
  identity_get id7 (instancesById class_without_7) = None
  /\ dbGet tbk id7 (s_run commit_0 (writer class_without_7)) = None.
Proof.
  pose proof (EntitySpec.removed_entity_is_gone Samples.StringToNumber
                Samples.JSON_parse Samples.JSON_stringify
                Samples.NumberToString tbk (num 0) class_with_7
                class_without_7 id7 1001 9 commit_0) as H.
  destruct H as (H1 & _ & _ & H4 & _).
  - apply (Persisted.reachable_for _ _ id7 0%nat Samples.empty_class).
    + apply Persisted.reachable_new. reflexivity.
    + reflexivity.
  - apply BatcherSpec.batcher_ok_new.
  - constructor.
  - reflexivity.
  - reflexivity.
  - reflexivity.
  - discriminate.
  - intros k [].
  - split; assumption.
Defined.

Lemma valueOf_is_stable_witness :
  s_valueOf 9 hello_1 (new_Writer 0 [])
  = Some (Some (VStr "hello"), hello_1).
Proof.
  refine (EntitySpec.valueOf_is_stable Samples.StringToNumber
            Samples.JSON_parse tbk (num 0) 7 (new_Instance id1) table_with_row
            (Some (VStr "hello")) hello_1 _ 9 (new_Writer 0 [])).
  reflexivity.
Defined.

Lemma previous_value_is_the_value_set_witness :
  exists C' e',
    set_value Samples.JSON_stringify Samples.NumberToString tbk
      (Some (VStr "hello")) 8 0%nat class_with_loaded_1 = Some C'
    /\ nth_error (instances C') 0%nat = Some e'
    /\ assignPreviousValue Samples.StringToNumber Samples.JSON_parse tbk e'
         (s_run commit_0 (writer C'))
       = Some (Some (VStr "hello")).
Proof.
  refine (EntitySpec.previous_value_is_the_value_set Samples.StringToNumber
            Samples.JSON_parse Samples.JSON_stringify Samples.NumberToString
            tbk class_with_loaded_1 0%nat loaded_1 (VStr "hello") (num 7)
            (Some 7) 8 commit_0 _ _ _ _ _ _ _ _ _ _ _ _ _).
  - apply BatcherSpec.batcher_ok_new.
  - constructor.
  - reflexivity.
  - reflexivity.
  - reflexivity.
  - reflexivity.
  - reflexivity.
  - reflexivity.
  - reflexivity.
  - reflexivity.
  - reflexivity.
  - discriminate.
  - intros k [].
Defined.

Lemma reset_entity_is_stored_as_version_witness :
  exists C',
    resetCache Samples.NumberToString tbk 12 0%nat class_with_loaded_1
    = Some C'
    /\ instancesById C' = instancesById class_with_loaded_1
    /\ dbGet tbk id1 (s_run commit_0 (writer C')) = Some (OVString "12")
    /\ loadLocalData Samples.StringToNumber tbk (new_Instance id1)
         (s_run commit_0 (writer C'))
       = Some (mkLocalData (Some (num 12)) None).
Proof.
  destruct (EntitySpec.reset_entity_is_stored_as_version
              Samples.StringToNumber Samples.NumberToString tbk
              class_with_loaded_1 0%nat loaded_1 (new_Instance id1) 12
              commit_0)
    as (C' & H1 & H2 & _ & H4 & H5).
  - apply BatcherSpec.batcher_ok_new.
  - constructor.
  - reflexivity.
  - reflexivity.
  - reflexivity.
  - reflexivity.
  - reflexivity.
  - reflexivity.
  - reflexivity.
  - discriminate.
  - intros k [].
  - exists C'. repeat split; assumption.
Defined.

(** ** Listing *)

Lemma written_entity_is_listed_witness :
  In (id1, OVString "1000,{}")
    (entries_of_table sample_fromBufferKey
       (step tbk (BatchWritten 0) (s_run put_and_flush (new_Writer 0 []))))
  /\ In id1
       (getInstanceIds tbk sample_fromBufferKey None
          (step tbk (BatchWritten 0) (s_run put_and_flush (new_Writer 0 [])))).
Proof.
  refine (ScanSpec.written_entity_is_listed tbk sample_fromBufferKey 0 []
            put_and_flush 0%nat flushed_operations id1 "1000,{}"%string
            _ _ _ _ _ _).
  - constructor.
  - discriminate.
  - intros k [<- | []] _. reflexivity.
  - reflexivity.
  - reflexivity.
  - reflexivity.
Defined.

(** ** The index *)

Ltac keys_apart :=
  let k1 := fresh "k" in
  let k2 := fresh "k" in
  let H1 := fresh "H" in
  let H2 := fresh "H" in
  let E := fresh "E" in
  intros k1 k2 H1 H2 E; simpl in H1, H2;
  repeat (destruct H1 as [<- | H1]); try contradiction;
  repeat (destruct H2 as [<- | H2]); try contradiction;
  try reflexivity; discriminate E.

Lemma indexEntry_updates_rows_witness :
  exists ops,
    s_operations now_aa (request_of before_ab) = ops
    /\ map_get bytes_eqb (Index.fullKey tbk key_a id1)
         (apply_batch ops rows_before)
       = Some (OVString "1").
Proof.
  destruct (IndexRowsSpec.indexEntry_updates_rows Samples.JSON_stringify tbk
              Samples.indexBy (Samples.Source_for [(id1, now_aa)]) id1
              (request_of before_ab) Index.new_State
              [(key_a, "1"%string); (key_b, "1"%string)]
              [(key_a, "2"%string); (key_a, "1"%string)]
              rows_before key_a)
    as (ops & Ho & Hrow).
  - reflexivity.
  - reflexivity.
  - repeat constructor; simpl; intuition discriminate.
  - intros k old [E | [E | []]]; injection E as <- <-; reflexivity.
  - keys_apart.
  - exists ops. split; [exact Ho|]. exact Hrow.
Defined.


(** The update without version of id 1 moves its request behind the one
    of id 2; indexing a request without version for an entity on whose
    value [indexBy] throws ends in the warning of the [catch]. *)
Lemma update_without_version_witness :
  (let s := s_index_run two_queued Index.new_State in
   Index.console (Index.updated id1 None (update 0) s)
   = [Index.error_missing_version id1]
   /\ map fst (map_data (Index.queue (Index.updated id1 None (update 0) s)))
      = [id2; id1])
  /\ Index.console
       (s_indexEntry VNull (Index.mkIndexRequest None false None 0)
          Index.new_State)
     = [Index.warn_error_indexing id1]
  /\ Index.console
       (s_indexEntry now_a (Index.mkIndexRequest None false None 0)
          Index.new_State)
     = [Index.warn_missing_version id1].
Proof.
  split.
  - destruct (IndexQueueSpec.update_without_version Samples.JSON_stringify
                tbk Samples.indexBy (Samples.Source_for source_values)
                (s_index_run two_queued Index.new_State) id1 None (update 0))
      as (H1 & H2 & _).
    + repeat constructor; simpl; intuition discriminate.
    + reflexivity.
    + reflexivity.
    + split; [exact H1|]. rewrite H2. reflexivity.
  - split.
    + destruct (IndexQueueSpec.update_without_version Samples.JSON_stringify
                  tbk Samples.indexBy (Samples.Source_for [(id1, VNull)])
                  Index.new_State id1 None (update 0))
        as (_ & _ & _ & H).
      * constructor.
      * reflexivity.
      * reflexivity.
      * destruct (H (Index.mkIndexRequest None false None 0) Index.new_State
                    eq_refl) as (_ & Hc & _).
        exact Hc.
    + destruct (IndexQueueSpec.update_without_version Samples.JSON_stringify
                  tbk Samples.indexBy (Samples.Source_for [(id1, now_a)])
                  Index.new_State id1 None (update 0))
        as (_ & _ & _ & H).
      * constructor.
      * reflexivity.
      * reflexivity.
      * destruct (H (Index.mkIndexRequest None false None 0) Index.new_State
                    eq_refl) as (_ & Hc & _).
        exact Hc.
Defined.

(** The row under [a] is read and its element found; the row under [b]
    is gone.  With [returnFullKeyValue] the scan of a bare key, whose row
    has the empty value, fails. *)
Lemma indexed_entry_is_found_witness :
  (exists ops,
     s_operations now_aa (request_of before_ab) = ops
     /\ s_transform false (String "a") (apply_batch ops rows_before)
        = Some [Index.Parsed (VStr "1")]
     /\ forall v,
          ~ In (Index.fullKey tbk key_b id1, v)
              (iterable (Index.transform_options tbk (String "b"))
                 (apply_batch ops rows_before)))
  /\ exists ops,
       s_operations (VStr "a") (Index.mkIndexRequest None false None 3) = ops
       /\ s_transform true (String "a") (apply_batch ops []) = None
       /\ s_transform false (String "a") (apply_batch ops [])
          = Some [Index.SourceId Undefined].
Proof.
  split.
  - destruct (ScanSpec.indexed_entry_is_found Samples.JSON_stringify tbk
                Samples.indexBy (Samples.Source_for [(id1, now_aa)])
                Samples.JSON_parse_row Samples.NumberToString
                sample_sourceId_of id1 (request_of before_ab) Index.new_State
                [(key_a, "1"%string); (key_b, "1"%string)]
                [(key_a, "2"%string); (key_a, "1"%string)]
                rows_before key_b false)
      as (ops & Ho & _ & Hgone).
    + reflexivity.
    + reflexivity.
    + repeat constructor; simpl; intuition discriminate.
    + intros k old [E | [E | []]]; injection E as <- <-; reflexivity.
    + keys_apart.
    + discriminate.
    + exists ops. split; [exact Ho|]. split.
      * simpl in Ho. subst ops. reflexivity.
      * apply Hgone; [reflexivity|]. simpl. auto.
  - destruct (ScanSpec.indexed_entry_is_found Samples.JSON_stringify tbk
                Samples.indexBy (Samples.Source_for [(id1, VStr "a")])
                Samples.JSON_parse_row Samples.NumberToString
                sample_sourceId_of id1
                (Index.mkIndexRequest None false None 3) Index.new_State
                [] [(key_a, EmptyString)] [] key_a true)
      as (ops & Ho & Hfound & _).
    + reflexivity.
    + reflexivity.
    + constructor.
    + intros k old [].
    + keys_apart.
    + discriminate.
    + exists ops. split; [exact Ho|]. split.
      * destruct (Hfound EmptyString eq_refl) as (_ & _ & _ & Hthrows).
        now apply Hthrows.
      * simpl in Ho. subst ops. reflexivity.
Defined.

Lemma resume_indexes_from_scratch_witness :
  exists s',
    s_resumeIndex [(id1, 7)] index_at_5 = Some s'
    /\ Index.lastIndexedVersion s' = 5
    /\ map_get bytes_eqb (Index.fullKey tbk key_b id1) (Index.table s') = None.
Proof.
  destruct (ResumeSpec.resume_indexes_from_scratch Samples.JSON_stringify tbk
              Samples.indexBy (Samples.Source_for [(id1, now_aa)])
              last_number_of 0%nat "{}"%string [(id1, 7)] index_at_5 5 id1 7
              key_b [(key_a, "2"%string); (key_a, "1"%string)])
    as (s' & H1 & H2 & _ & _ & _ & H6 & _).
  - reflexivity.
  - reflexivity.
  - repeat constructor; simpl; intuition discriminate.
  - repeat constructor. simpl. tauto.
  - now left.
  - reflexivity.
  - reflexivity.
  - keys_apart.
  - exists s'. repeat split; assumption.
Defined.

(** A resume in the middle of a run takes [lastIndexedVersion] back to
    the progress of the table, here 0, while the progress 10 of the batch
    before is still waiting, and the pass then stores it. *)
Lemma resume_lowers_the_version :
  let s := s_index_run resume_after_indexing Index.new_State in
  Index.lastIndexedVersion s = 0
  /\ Index.queuedIndexedProgress s = Some 10
  /\ Index.stored_progress (Index.store_progress s) = Some (OVNumber 10).
Proof. vm_compute. repeat split. Qed.

(** With a threshold of 0 the pass commits after the second request: the
    rows of the ids 1 and 2 are in the table and no operation waits.  The
    request of id 7, on which [indexBy] throws, leaves its warning and does
    not count for [lastIndexedVersion]. *)
Lemma pass_empties_the_queue_witness :
  let r := s_processQueue_for false 0 (map_data (Index.queue three_queued)) 0
             three_queued in
  snd r = false
  /\ map_data (Index.queue (fst r)) = []
  /\ Index.lastIndexedVersion (fst r) = 11
  /\ Index.console (fst r) = [Index.warn_error_indexing id7]
  /\ Index.operations (fst r) = []
  /\ Index.table (fst r)
     = [(Index.fullKey tbk (Index.KString "x") id1, OVString "");
        (Index.fullKey tbk (Index.KString "y") id2, OVString "")].
Proof.
  intros r.
  destruct (IndexQueueSpec.pass_empties_the_queue Samples.JSON_stringify tbk
              Samples.indexBy (Samples.Source_for poisoned_values) 0 0
              three_queued)
    as (H1 & H2 & H3 & _ & H5 & _).
  fold s_processQueue_for in H1, H2, H3, H5. fold r in H1, H2, H3, H5.
  split; [exact H1|]. split; [exact H2|].
  split; [rewrite H3; reflexivity|].
  split; [rewrite H5; reflexivity|].
  split; reflexivity.
Defined.

(** The scan of the key ["a"] reads the two rows under it, in the order
    of their keys, and not the row under ["b"]. *)
Lemma transform_reads_the_rows_of_its_key_witness :
  s_transform false (String "a")
    ((Index.fullKey tbk key_a id2, OVString "2") :: rows_before)
  = Some [Index.Parsed (VStr "1"); Index.Parsed (VStr "2")].
Proof.
  apply (proj1 (ScanSpec.transform_reads_the_rows_of_its_key tbk
                  Samples.JSON_parse_row Samples.NumberToString
                  sample_sourceId_of false (String "a")
                  ((Index.fullKey tbk key_a id2, OVString "2")
                   :: rows_before))).
  repeat constructor.
Defined.

(** On a table with the progress 5 the index is resumed and an update of
    version 10 indexed: the progress waiting is at most the version. *)
Lemma progress_never_ahead_witness :
  let s := s_index_run [Index.Enqueue id1 None (update 10); Index.IndexNext;
                        Index.Commit; Index.BatchResolved;
                        Index.UpdatesWritten]
             (Index.step Samples.JSON_stringify tbk Samples.indexBy
                (Samples.Source_for source_values) last_number_of 0%nat
                "{}"%string (Index.Resume [])
                (Index.started (Index.table index_at_5))) in
  0 <= Index.lastIndexedVersion s
  /\ (forall p, Index.queuedIndexedProgress s = Some p ->
                p <= Index.lastIndexedVersion s)
  /\ (forall v, Index.stored_progress s = Some v ->
        exists p, v = OVNumber p /\ p <= Index.lastIndexedVersion s).
Proof.
  intros s.
  refine (proj1 (proj2 (IndexQueueSpec.progress_never_ahead
                          Samples.JSON_stringify tbk Samples.indexBy
                          (Samples.Source_for source_values) last_number_of
                          0%nat "{}"%string))
            (Index.table index_at_5) []
            [Index.Enqueue id1 None (update 10); Index.IndexNext;
             Index.Commit; Index.BatchResolved; Index.UpdatesWritten]
            s _ _ _).
  - intros v Hv. injection Hv as <-. exists 5. split; [reflexivity|lia].
  - reflexivity.
  - right. reflexivity.
Defined.

End MoreExamples.
